(** * Live-session hook and chat service of the conversational companion

    A shallow embedding of [src/hooks/useLiveSession.ts],
    [src/services/geminiService.ts], [src/types.ts] and the chat handlers
    of [src/components/LiveView.tsx], followed by the properties of the
    playback queue, the transcript updaters, the connection guard, the chat
    request and the PCM encoder.

    What is taken for granted about React: an updater handed to a state
    setter runs when React renders next, and React renders after each
    handler has returned and before the next one runs.  An updater that
    reads a ref therefore sees the ref as the handler left it. *)

From Stdlib Require Import ZArith QArith Qminmax Qround Lia Lqa.
From stdpp Require Import base option list strings gmap.

Local Open Scope Z_scope.

(** ** JavaScript numbers

    A JavaScript number is an IEEE-754 double: NaN, an infinity, or a finite
    value, which is a rational.  Comparison of doubles is comparison of the
    values they denote, and [Math.max]/[Math.min] return one of their
    arguments, so these are modelled exactly.  The two zeros are not told
    apart.  Rounded addition is left to the section that uses it. *)
Module JS.

Inductive number : Type :=
| NaN
| NegInf
| Fin (q : Q)
| PosInf.

Definition of_Z (z : Z) : number := Fin (inject_Z z).

(** [a < b] as the language evaluates it: false as soon as one side is NaN. *)
Definition num_ltb (a b : number) : bool :=
  match a, b with
  | NaN, _ | _, NaN => false
  | _, NegInf => false
  | NegInf, _ => true
  | PosInf, _ => false
  | Fin _, PosInf => true
  | Fin x, Fin y => match (x ?= y)%Q with Lt => true | _ => false end
  end.

(** [a <= b]. *)
Definition num_leb (a b : number) : bool :=
  match a, b with
  | NaN, _ | _, NaN => false
  | NegInf, _ => true
  | _, PosInf => true
  | _, NegInf => false
  | PosInf, Fin _ => false
  | Fin x, Fin y => match (x ?= y)%Q with Gt => false | _ => true end
  end.

(** [a > b] and [a >= b] are the mirrored tests. *)
Definition num_gtb (a b : number) : bool := num_ltb b a.
Definition num_geb (a b : number) : bool := num_leb b a.

(** [a === b] on numbers (numeric equality; NaN differs from itself). *)
Definition num_eqb (a b : number) : bool :=
  match a, b with
  | NegInf, NegInf | PosInf, PosInf => true
  | Fin x, Fin y => Qeq_bool x y
  | _, _ => false
  end.

(** [Math.max(a, b)] and [Math.min(a, b)]. *)
Definition Math_max (a b : number) : number :=
  match a, b with
  | NaN, _ | _, NaN => NaN
  | _, _ => if num_ltb a b then b else a
  end.

Definition Math_min (a b : number) : number :=
  match a, b with
  | NaN, _ | _, NaN => NaN
  | _, _ => if num_ltb b a then b else a
  end.

(** The product [a * b], without rounding.  Its one use below multiplies a
    32-bit float by 2^15, where the IEEE product is exact. *)
Definition num_mul (a b : number) : number :=
  match a, b with
  | NaN, _ | _, NaN => NaN
  | Fin x, Fin y => Fin (x * y)
  | Fin x, PosInf | PosInf, Fin x =>
      match (x ?= 0)%Q with Lt => NegInf | Eq => NaN | Gt => PosInf end
  | Fin x, NegInf | NegInf, Fin x =>
      match (x ?= 0)%Q with Lt => PosInf | Eq => NaN | Gt => NegInf end
  | PosInf, PosInf | NegInf, NegInf => PosInf
  | PosInf, NegInf | NegInf, PosInf => NaN
  end.

(** Rounding toward zero of a rational. *)
Definition truncate (q : Q) : Z := Z.quot (Qnum q) (Z.pos (Qden q)).

(** The conversion applied by a store into an [Int16Array] (ToInt16): NaN
    and the infinities give 0, a finite value is truncated toward zero and
    wrapped modulo 2^16 into the signed range. *)
Definition ToInt16 (v : number) : Z :=
  match v with
  | Fin q =>
      let m := truncate q mod 65536 in
      if 32768 <=? m then m - 65536 else m
  | _ => 0
  end.

(** Truthiness of a string: only the empty string is falsy. *)
Definition truthy_string (s : string) : bool :=
  match s with EmptyString => false | _ => true end.

(** [a || b] on possibly undefined strings. *)
Definition or_string (a b : option string) : option string :=
  match a with
  | Some s => if truthy_string s then Some s else b
  | None => b
  end.

End JS.
Import JS.

(** ** [src/types.ts] *)

Inductive SourceType : Type := src_search | src_maps | src_review.

Record GroundingSource : Type := {
  uri : option string;
  title : option string;
  type : SourceType;
}.

Inductive Speaker : Type := user | mary.

Inductive Feedback : Type := up | down.

(** [feedback] and [sources] are optional; [None] stands for an absent (or
    null) field.  [id] is declared a number, but the live hook can store
    null there: an entry gets its id from a ref that is read when React
    runs the updater, and the ref may be null by then
    ([useLiveSession.ts], lines 129 and 144).  So the field holds a number
    or null. *)
Record TranscriptEntry : Type := {
  speaker : Speaker;
  text : string;
  isFinal : bool;
  id : option Z;
  feedback : option Feedback;
  sources : option (list GroundingSource);
}.

Record PersonalitySettings : Type := {
  empathy : number;
  humor : number;
  solidarity : number;
}.

Record UserLocation : Type := {
  latitude : number;
  longitude : number;
}.

#[global] Instance Speaker_eq_dec : EqDecision Speaker.
Proof. solve_decision. Defined.

(** ** Grounding metadata of the SDK, as far as the code reads it *)

Record GroundingChunkWeb : Type := {
  web_uri : option string;
  web_title : option string;
}.

(** [snippet.review] can be absent, null, a string or an object; of an
    object the code reads whether it has a [uri] key ([None]: no such key),
    what the key holds ([Some None]: null or undefined), and its [text]. *)
Inductive Review : Type :=
| ReviewUndefined
| ReviewNull
| ReviewString (s : string)
| ReviewObject (review_uri : option (option string)) (review_text : option string).

Record ReviewSnippet : Type := { review : Review }.

Record PlaceAnswerSources : Type := {
  reviewSnippets : option (list ReviewSnippet);
}.

Record GroundingChunkMaps : Type := {
  maps_uri : option string;
  maps_title : option string;
  placeAnswerSources : option PlaceAnswerSources;
}.

Record GroundingChunk : Type := {
  web : option GroundingChunkWeb;
  maps : option GroundingChunkMaps;
}.

Record GroundingMetadata : Type := {
  groundingChunks : option (list GroundingChunk);
}.

(** The loop that turns grounding chunks into sources.  It is written out
    twice in the source, in [sendChatMessage] and in the turn-completion
    branch of [handleServerMessage]; the two copies differ only in the
    fallback title of a review. *)
Section Grounding.

Variable reviewFallbackTitle : string.

(** Body of the [forEach] over the review snippets of a maps chunk. *)
Definition pushReview (sources : list GroundingSource) (snippet : ReviewSnippet)
  : list GroundingSource :=
  match review snippet with
  | ReviewObject (Some u) t =>
      sources ++ [ {| uri := u;
                      title := or_string t (Some reviewFallbackTitle);
                      type := src_review |} ]
  | _ => sources
  end.

(** Body of the [for ... of groundingChunks] loop. *)
Definition pushChunk (sources : list GroundingSource) (chunk : GroundingChunk)
  : list GroundingSource :=
  match web chunk with
  | Some w =>
      sources ++ [ {| uri := web_uri w;
                      title := or_string (web_title w) (web_uri w);
                      type := src_search |} ]
  | None =>
      match maps chunk with
      | Some m =>
          let sources1 :=
            sources ++ [ {| uri := maps_uri m;
                            title := or_string (maps_title m) (maps_uri m);
                            type := src_maps |} ] in
          match placeAnswerSources m with
          | Some pas =>
              match reviewSnippets pas with
              | Some snippets => foldl pushReview sources1 snippets
              | None => sources1
              end
          | None => sources1
          end
      | None => sources
      end
  end.

Definition extractSources (groundingMetadata : option GroundingMetadata)
  : list GroundingSource :=
  match groundingMetadata with
  | Some md =>
      match groundingChunks md with
      | Some chunks => foldl pushChunk [] chunks
      | None => []
      end
  | None => []
  end.

End Grounding.

(** ** [src/services/geminiService.ts] *)
Module GeminiService.

Inductive TraitLevel : Type := bajo | medio | alto.

Definition getTraitLevel (value : number) : TraitLevel :=
  if num_leb value (of_Z 3) then bajo
  else if num_leb value (of_Z 7) then medio
  else alto.

Record Content : Type := {
  role : string;
  parts : list string;   (* each part is [{ text }] *)
}.

Record ToolConfig : Type := {
  latLng_latitude : number;
  latLng_longitude : number;
}.

(** Of the configuration, the two parts that depend on the arguments; the
    safety settings and the tools are constants. *)
Record Config : Type := {
  systemInstruction : string;
  toolConfig : option ToolConfig;
}.

Record GenerateContentParameters : Type := {
  model : string;
  contents : list Content;
  config : Config;
}.

Record Candidate : Type := {
  groundingMetadata : option GroundingMetadata;
}.

Record GenerateContentResponse : Type := {
  response_text : option string;
  candidates : option (list Candidate);
}.

Definition mapHistoryToGenAI (history : list TranscriptEntry) : list Content :=
  (fun entry =>
     {| role := if decide (speaker entry = user) then "user" else "model";
        parts := [text entry] |}) <$> history.

Section Service.

(** The fixed text of the system prompt, as a function of the three trait
    levels spliced into it. *)
Variable promptTemplate : TraitLevel -> TraitLevel -> TraitLevel -> string.

(** [ai.models.generateContent] of the hosted service. *)
Variable generateContent : GenerateContentParameters -> GenerateContentResponse.

Definition generateSystemInstruction (settings : PersonalitySettings) : string :=
  let empathyLevel := getTraitLevel (empathy settings) in
  let humorLevel := getTraitLevel (humor settings) in
  let solidarityLevel := getTraitLevel (solidarity settings) in
  promptTemplate empathyLevel humorLevel solidarityLevel.

(** The request that [sendChatMessage] hands to the service. *)
Definition chatRequest (prompt : string) (history : list TranscriptEntry)
    (settings : PersonalitySettings) (location : option UserLocation)
  : GenerateContentParameters :=
  let genAIHistory := mapHistoryToGenAI history in
  {| model := "gemini-2.5-flash";
     contents := genAIHistory ++ [ {| role := "user"; parts := [prompt] |} ];
     config :=
       {| systemInstruction := generateSystemInstruction settings;
          toolConfig :=
            match location with
            | Some l => Some {| latLng_latitude := latitude l;
                                latLng_longitude := longitude l |}
            | None => None
            end |} |}.

Definition sendChatMessage (prompt : string) (history : list TranscriptEntry)
    (settings : PersonalitySettings) (location : option UserLocation)
  : option string * list GroundingSource :=
  let response := generateContent (chatRequest prompt history settings location) in
  let groundingMetadata :=
    match candidates response with
    | Some (c :: _) => groundingMetadata c
    | _ => None
    end in
  (response_text response, extractSources "Leer reseña" groundingMetadata).

End Service.

End GeminiService.

(** ** [src/hooks/useLiveSession.ts] *)
Module LiveSession.

Definition INPUT_SAMPLE_RATE : number := of_Z 16000.
Definition OUTPUT_SAMPLE_RATE : number := of_Z 24000.

(** *** [createPcmBlob] *)

Record Blob : Type := {
  data : string;
  mimeType : string;
}.

(** The right-hand side of the assignment in the loop, before the store
    converts it to a 16-bit integer. *)
Definition clampedSample (x : number) : number :=
  Math_max (of_Z (-32768)) (Math_min (of_Z 32767) (num_mul x (of_Z 32768))).

(** [for (let i = 0; i < l; i++) int16[i] = ...] over a typed array
    [int16]. *)
Definition pcmLoop (data : list number) (l : nat) (int16 : list Z) : list Z :=
  foldl (fun int16 i =>
           match data !! i with
           | Some x => <[i := ToInt16 (clampedSample x)]> int16
           | None => int16
           end)
        int16 (seq 0 l).

(** The contents of [int16] when the loop is over. *)
Definition pcmSamples (data : list number) : list Z :=
  let l := length data in
  pcmLoop data l (replicate l 0).

(** [new Uint8Array(int16.buffer)]: two bytes per sample, low byte first. *)
Definition int16Bytes (int16 : list Z) : list Z :=
  int16 ≫= (fun s => [s mod 256; (s / 256) mod 256]).

Section PcmBlob.

(** [encode] of [src/utils/audio], the encoding of the bytes as a string. *)
Variable encode : list Z -> string.

(** The conversion of a number to a string by a template literal. *)
Variable Number_toString : number -> string.

Definition createPcmBlob (data : list number) (sampleRate : number) : Blob :=
  {| data := encode (int16Bytes (pcmSamples data));
     mimeType := "audio/pcm;rate=" +:+ Number_toString sampleRate |}.

End PcmBlob.

(** *** State of the hook

    The React state ([status], [transcripts]) and the refs.  A ref to a
    browser object is [true] when it holds one and [false] when it is null.
    Buffer sources and sessions are named by numbers.  The last four fields
    record what the hook did to the outside: how many buffer sources it
    created, the calls of [source.start], the sources on which
    [source.stop] was called, and the number of calls of
    [ai.live.connect]. *)

Inductive Status : Type := idle | connecting | connected | error | disconnected.

#[global] Instance Status_eq_dec : EqDecision Status.
Proof. solve_decision. Defined.

Record Started : Type := {
  source : nat;
  startTime : number;
  duration : number;
}.

Record Hook : Type := {
  status : Status;
  transcripts : list TranscriptEntry;
  sessionPromiseRef : option nat;
  inputAudioContextRef : bool;
  outputAudioContextRef : bool;
  mediaStreamRef : bool;
  scriptProcessorRef : bool;
  frameIntervalRef : option Z;
  audioSourcesRef : gset nat;
  nextAudioStartTimeRef : number;
  compressorRef : bool;
  micGainNodeRef : bool;
  currentInputTranscriptionRef : string;
  currentOutputTranscriptionRef : string;
  currentUserTranscriptIdRef : option Z;
  currentMaryTranscriptIdRef : option Z;
  createdSources : nat;
  started : list Started;
  stopped : gset nat;
  liveConnects : nat;
}.

Definition initial : Hook :=
  {| status := idle; transcripts := []; sessionPromiseRef := None;
     inputAudioContextRef := false; outputAudioContextRef := false;
     mediaStreamRef := false; scriptProcessorRef := false;
     frameIntervalRef := None; audioSourcesRef := ∅;
     nextAudioStartTimeRef := of_Z 0; compressorRef := false;
     micGainNodeRef := false;
     currentInputTranscriptionRef := ""; currentOutputTranscriptionRef := "";
     currentUserTranscriptIdRef := None; currentMaryTranscriptIdRef := None;
     createdSources := 0%nat; started := []; stopped := ∅;
     liveConnects := 0%nat |}.

(** Assignment to one field. *)
Definition set_status (v : Status) (st : Hook) : Hook :=
  {| status := v; transcripts := transcripts st; sessionPromiseRef :=
     sessionPromiseRef st; inputAudioContextRef := inputAudioContextRef st;
     outputAudioContextRef := outputAudioContextRef st; mediaStreamRef :=
     mediaStreamRef st; scriptProcessorRef := scriptProcessorRef st;
     frameIntervalRef := frameIntervalRef st; audioSourcesRef :=
     audioSourcesRef st; nextAudioStartTimeRef := nextAudioStartTimeRef st;
     compressorRef := compressorRef st; micGainNodeRef := micGainNodeRef st;
     currentInputTranscriptionRef := currentInputTranscriptionRef st;
     currentOutputTranscriptionRef := currentOutputTranscriptionRef st;
     currentUserTranscriptIdRef := currentUserTranscriptIdRef st;
     currentMaryTranscriptIdRef := currentMaryTranscriptIdRef st;
     createdSources := createdSources st; started := started st; stopped :=
     stopped st; liveConnects := liveConnects st |}.

Definition set_transcripts (v : list TranscriptEntry) (st : Hook) : Hook :=
  {| status := status st; transcripts := v; sessionPromiseRef :=
     sessionPromiseRef st; inputAudioContextRef := inputAudioContextRef st;
     outputAudioContextRef := outputAudioContextRef st; mediaStreamRef :=
     mediaStreamRef st; scriptProcessorRef := scriptProcessorRef st;
     frameIntervalRef := frameIntervalRef st; audioSourcesRef :=
     audioSourcesRef st; nextAudioStartTimeRef := nextAudioStartTimeRef st;
     compressorRef := compressorRef st; micGainNodeRef := micGainNodeRef st;
     currentInputTranscriptionRef := currentInputTranscriptionRef st;
     currentOutputTranscriptionRef := currentOutputTranscriptionRef st;
     currentUserTranscriptIdRef := currentUserTranscriptIdRef st;
     currentMaryTranscriptIdRef := currentMaryTranscriptIdRef st;
     createdSources := createdSources st; started := started st; stopped :=
     stopped st; liveConnects := liveConnects st |}.

Definition set_sessionPromiseRef (v : option nat) (st : Hook) : Hook :=
  {| status := status st; transcripts := transcripts st; sessionPromiseRef
     := v; inputAudioContextRef := inputAudioContextRef st;
     outputAudioContextRef := outputAudioContextRef st; mediaStreamRef :=
     mediaStreamRef st; scriptProcessorRef := scriptProcessorRef st;
     frameIntervalRef := frameIntervalRef st; audioSourcesRef :=
     audioSourcesRef st; nextAudioStartTimeRef := nextAudioStartTimeRef st;
     compressorRef := compressorRef st; micGainNodeRef := micGainNodeRef st;
     currentInputTranscriptionRef := currentInputTranscriptionRef st;
     currentOutputTranscriptionRef := currentOutputTranscriptionRef st;
     currentUserTranscriptIdRef := currentUserTranscriptIdRef st;
     currentMaryTranscriptIdRef := currentMaryTranscriptIdRef st;
     createdSources := createdSources st; started := started st; stopped :=
     stopped st; liveConnects := liveConnects st |}.

Definition set_inputAudioContextRef (v : bool) (st : Hook) : Hook :=
  {| status := status st; transcripts := transcripts st; sessionPromiseRef
     := sessionPromiseRef st; inputAudioContextRef := v;
     outputAudioContextRef := outputAudioContextRef st; mediaStreamRef :=
     mediaStreamRef st; scriptProcessorRef := scriptProcessorRef st;
     frameIntervalRef := frameIntervalRef st; audioSourcesRef :=
     audioSourcesRef st; nextAudioStartTimeRef := nextAudioStartTimeRef st;
     compressorRef := compressorRef st; micGainNodeRef := micGainNodeRef st;
     currentInputTranscriptionRef := currentInputTranscriptionRef st;
     currentOutputTranscriptionRef := currentOutputTranscriptionRef st;
     currentUserTranscriptIdRef := currentUserTranscriptIdRef st;
     currentMaryTranscriptIdRef := currentMaryTranscriptIdRef st;
     createdSources := createdSources st; started := started st; stopped :=
     stopped st; liveConnects := liveConnects st |}.

Definition set_outputAudioContextRef (v : bool) (st : Hook) : Hook :=
  {| status := status st; transcripts := transcripts st; sessionPromiseRef
     := sessionPromiseRef st; inputAudioContextRef := inputAudioContextRef
     st; outputAudioContextRef := v; mediaStreamRef := mediaStreamRef st;
     scriptProcessorRef := scriptProcessorRef st; frameIntervalRef :=
     frameIntervalRef st; audioSourcesRef := audioSourcesRef st;
     nextAudioStartTimeRef := nextAudioStartTimeRef st; compressorRef :=
     compressorRef st; micGainNodeRef := micGainNodeRef st;
     currentInputTranscriptionRef := currentInputTranscriptionRef st;
     currentOutputTranscriptionRef := currentOutputTranscriptionRef st;
     currentUserTranscriptIdRef := currentUserTranscriptIdRef st;
     currentMaryTranscriptIdRef := currentMaryTranscriptIdRef st;
     createdSources := createdSources st; started := started st; stopped :=
     stopped st; liveConnects := liveConnects st |}.

Definition set_mediaStreamRef (v : bool) (st : Hook) : Hook :=
  {| status := status st; transcripts := transcripts st; sessionPromiseRef
     := sessionPromiseRef st; inputAudioContextRef := inputAudioContextRef
     st; outputAudioContextRef := outputAudioContextRef st; mediaStreamRef
     := v; scriptProcessorRef := scriptProcessorRef st; frameIntervalRef :=
     frameIntervalRef st; audioSourcesRef := audioSourcesRef st;
     nextAudioStartTimeRef := nextAudioStartTimeRef st; compressorRef :=
     compressorRef st; micGainNodeRef := micGainNodeRef st;
     currentInputTranscriptionRef := currentInputTranscriptionRef st;
     currentOutputTranscriptionRef := currentOutputTranscriptionRef st;
     currentUserTranscriptIdRef := currentUserTranscriptIdRef st;
     currentMaryTranscriptIdRef := currentMaryTranscriptIdRef st;
     createdSources := createdSources st; started := started st; stopped :=
     stopped st; liveConnects := liveConnects st |}.

Definition set_scriptProcessorRef (v : bool) (st : Hook) : Hook :=
  {| status := status st; transcripts := transcripts st; sessionPromiseRef
     := sessionPromiseRef st; inputAudioContextRef := inputAudioContextRef
     st; outputAudioContextRef := outputAudioContextRef st; mediaStreamRef
     := mediaStreamRef st; scriptProcessorRef := v; frameIntervalRef :=
     frameIntervalRef st; audioSourcesRef := audioSourcesRef st;
     nextAudioStartTimeRef := nextAudioStartTimeRef st; compressorRef :=
     compressorRef st; micGainNodeRef := micGainNodeRef st;
     currentInputTranscriptionRef := currentInputTranscriptionRef st;
     currentOutputTranscriptionRef := currentOutputTranscriptionRef st;
     currentUserTranscriptIdRef := currentUserTranscriptIdRef st;
     currentMaryTranscriptIdRef := currentMaryTranscriptIdRef st;
     createdSources := createdSources st; started := started st; stopped :=
     stopped st; liveConnects := liveConnects st |}.

Definition set_frameIntervalRef (v : option Z) (st : Hook) : Hook :=
  {| status := status st; transcripts := transcripts st; sessionPromiseRef
     := sessionPromiseRef st; inputAudioContextRef := inputAudioContextRef
     st; outputAudioContextRef := outputAudioContextRef st; mediaStreamRef
     := mediaStreamRef st; scriptProcessorRef := scriptProcessorRef st;
     frameIntervalRef := v; audioSourcesRef := audioSourcesRef st;
     nextAudioStartTimeRef := nextAudioStartTimeRef st; compressorRef :=
     compressorRef st; micGainNodeRef := micGainNodeRef st;
     currentInputTranscriptionRef := currentInputTranscriptionRef st;
     currentOutputTranscriptionRef := currentOutputTranscriptionRef st;
     currentUserTranscriptIdRef := currentUserTranscriptIdRef st;
     currentMaryTranscriptIdRef := currentMaryTranscriptIdRef st;
     createdSources := createdSources st; started := started st; stopped :=
     stopped st; liveConnects := liveConnects st |}.

Definition set_audioSourcesRef (v : gset nat) (st : Hook) : Hook :=
  {| status := status st; transcripts := transcripts st; sessionPromiseRef
     := sessionPromiseRef st; inputAudioContextRef := inputAudioContextRef
     st; outputAudioContextRef := outputAudioContextRef st; mediaStreamRef
     := mediaStreamRef st; scriptProcessorRef := scriptProcessorRef st;
     frameIntervalRef := frameIntervalRef st; audioSourcesRef := v;
     nextAudioStartTimeRef := nextAudioStartTimeRef st; compressorRef :=
     compressorRef st; micGainNodeRef := micGainNodeRef st;
     currentInputTranscriptionRef := currentInputTranscriptionRef st;
     currentOutputTranscriptionRef := currentOutputTranscriptionRef st;
     currentUserTranscriptIdRef := currentUserTranscriptIdRef st;
     currentMaryTranscriptIdRef := currentMaryTranscriptIdRef st;
     createdSources := createdSources st; started := started st; stopped :=
     stopped st; liveConnects := liveConnects st |}.

Definition set_nextAudioStartTimeRef (v : number) (st : Hook) : Hook :=
  {| status := status st; transcripts := transcripts st; sessionPromiseRef
     := sessionPromiseRef st; inputAudioContextRef := inputAudioContextRef
     st; outputAudioContextRef := outputAudioContextRef st; mediaStreamRef
     := mediaStreamRef st; scriptProcessorRef := scriptProcessorRef st;
     frameIntervalRef := frameIntervalRef st; audioSourcesRef :=
     audioSourcesRef st; nextAudioStartTimeRef := v; compressorRef :=
     compressorRef st; micGainNodeRef := micGainNodeRef st;
     currentInputTranscriptionRef := currentInputTranscriptionRef st;
     currentOutputTranscriptionRef := currentOutputTranscriptionRef st;
     currentUserTranscriptIdRef := currentUserTranscriptIdRef st;
     currentMaryTranscriptIdRef := currentMaryTranscriptIdRef st;
     createdSources := createdSources st; started := started st; stopped :=
     stopped st; liveConnects := liveConnects st |}.

Definition set_compressorRef (v : bool) (st : Hook) : Hook :=
  {| status := status st; transcripts := transcripts st; sessionPromiseRef
     := sessionPromiseRef st; inputAudioContextRef := inputAudioContextRef
     st; outputAudioContextRef := outputAudioContextRef st; mediaStreamRef
     := mediaStreamRef st; scriptProcessorRef := scriptProcessorRef st;
     frameIntervalRef := frameIntervalRef st; audioSourcesRef :=
     audioSourcesRef st; nextAudioStartTimeRef := nextAudioStartTimeRef st;
     compressorRef := v; micGainNodeRef := micGainNodeRef st;
     currentInputTranscriptionRef := currentInputTranscriptionRef st;
     currentOutputTranscriptionRef := currentOutputTranscriptionRef st;
     currentUserTranscriptIdRef := currentUserTranscriptIdRef st;
     currentMaryTranscriptIdRef := currentMaryTranscriptIdRef st;
     createdSources := createdSources st; started := started st; stopped :=
     stopped st; liveConnects := liveConnects st |}.

Definition set_micGainNodeRef (v : bool) (st : Hook) : Hook :=
  {| status := status st; transcripts := transcripts st; sessionPromiseRef
     := sessionPromiseRef st; inputAudioContextRef := inputAudioContextRef
     st; outputAudioContextRef := outputAudioContextRef st; mediaStreamRef
     := mediaStreamRef st; scriptProcessorRef := scriptProcessorRef st;
     frameIntervalRef := frameIntervalRef st; audioSourcesRef :=
     audioSourcesRef st; nextAudioStartTimeRef := nextAudioStartTimeRef st;
     compressorRef := compressorRef st; micGainNodeRef := v;
     currentInputTranscriptionRef := currentInputTranscriptionRef st;
     currentOutputTranscriptionRef := currentOutputTranscriptionRef st;
     currentUserTranscriptIdRef := currentUserTranscriptIdRef st;
     currentMaryTranscriptIdRef := currentMaryTranscriptIdRef st;
     createdSources := createdSources st; started := started st; stopped :=
     stopped st; liveConnects := liveConnects st |}.

Definition set_currentInputTranscriptionRef (v : string) (st : Hook) : Hook :=
  {| status := status st; transcripts := transcripts st; sessionPromiseRef
     := sessionPromiseRef st; inputAudioContextRef := inputAudioContextRef
     st; outputAudioContextRef := outputAudioContextRef st; mediaStreamRef
     := mediaStreamRef st; scriptProcessorRef := scriptProcessorRef st;
     frameIntervalRef := frameIntervalRef st; audioSourcesRef :=
     audioSourcesRef st; nextAudioStartTimeRef := nextAudioStartTimeRef st;
     compressorRef := compressorRef st; micGainNodeRef := micGainNodeRef st;
     currentInputTranscriptionRef := v; currentOutputTranscriptionRef :=
     currentOutputTranscriptionRef st; currentUserTranscriptIdRef :=
     currentUserTranscriptIdRef st; currentMaryTranscriptIdRef :=
     currentMaryTranscriptIdRef st; createdSources := createdSources st;
     started := started st; stopped := stopped st; liveConnects :=
     liveConnects st |}.

Definition set_currentOutputTranscriptionRef (v : string) (st : Hook) : Hook :=
  {| status := status st; transcripts := transcripts st; sessionPromiseRef
     := sessionPromiseRef st; inputAudioContextRef := inputAudioContextRef
     st; outputAudioContextRef := outputAudioContextRef st; mediaStreamRef
     := mediaStreamRef st; scriptProcessorRef := scriptProcessorRef st;
     frameIntervalRef := frameIntervalRef st; audioSourcesRef :=
     audioSourcesRef st; nextAudioStartTimeRef := nextAudioStartTimeRef st;
     compressorRef := compressorRef st; micGainNodeRef := micGainNodeRef st;
     currentInputTranscriptionRef := currentInputTranscriptionRef st;
     currentOutputTranscriptionRef := v; currentUserTranscriptIdRef :=
     currentUserTranscriptIdRef st; currentMaryTranscriptIdRef :=
     currentMaryTranscriptIdRef st; createdSources := createdSources st;
     started := started st; stopped := stopped st; liveConnects :=
     liveConnects st |}.

Definition set_currentUserTranscriptIdRef (v : option Z) (st : Hook) : Hook :=
  {| status := status st; transcripts := transcripts st; sessionPromiseRef
     := sessionPromiseRef st; inputAudioContextRef := inputAudioContextRef
     st; outputAudioContextRef := outputAudioContextRef st; mediaStreamRef
     := mediaStreamRef st; scriptProcessorRef := scriptProcessorRef st;
     frameIntervalRef := frameIntervalRef st; audioSourcesRef :=
     audioSourcesRef st; nextAudioStartTimeRef := nextAudioStartTimeRef st;
     compressorRef := compressorRef st; micGainNodeRef := micGainNodeRef st;
     currentInputTranscriptionRef := currentInputTranscriptionRef st;
     currentOutputTranscriptionRef := currentOutputTranscriptionRef st;
     currentUserTranscriptIdRef := v; currentMaryTranscriptIdRef :=
     currentMaryTranscriptIdRef st; createdSources := createdSources st;
     started := started st; stopped := stopped st; liveConnects :=
     liveConnects st |}.

Definition set_currentMaryTranscriptIdRef (v : option Z) (st : Hook) : Hook :=
  {| status := status st; transcripts := transcripts st; sessionPromiseRef
     := sessionPromiseRef st; inputAudioContextRef := inputAudioContextRef
     st; outputAudioContextRef := outputAudioContextRef st; mediaStreamRef
     := mediaStreamRef st; scriptProcessorRef := scriptProcessorRef st;
     frameIntervalRef := frameIntervalRef st; audioSourcesRef :=
     audioSourcesRef st; nextAudioStartTimeRef := nextAudioStartTimeRef st;
     compressorRef := compressorRef st; micGainNodeRef := micGainNodeRef st;
     currentInputTranscriptionRef := currentInputTranscriptionRef st;
     currentOutputTranscriptionRef := currentOutputTranscriptionRef st;
     currentUserTranscriptIdRef := currentUserTranscriptIdRef st;
     currentMaryTranscriptIdRef := v; createdSources := createdSources st;
     started := started st; stopped := stopped st; liveConnects :=
     liveConnects st |}.

Definition set_createdSources (v : nat) (st : Hook) : Hook :=
  {| status := status st; transcripts := transcripts st; sessionPromiseRef
     := sessionPromiseRef st; inputAudioContextRef := inputAudioContextRef
     st; outputAudioContextRef := outputAudioContextRef st; mediaStreamRef
     := mediaStreamRef st; scriptProcessorRef := scriptProcessorRef st;
     frameIntervalRef := frameIntervalRef st; audioSourcesRef :=
     audioSourcesRef st; nextAudioStartTimeRef := nextAudioStartTimeRef st;
     compressorRef := compressorRef st; micGainNodeRef := micGainNodeRef st;
     currentInputTranscriptionRef := currentInputTranscriptionRef st;
     currentOutputTranscriptionRef := currentOutputTranscriptionRef st;
     currentUserTranscriptIdRef := currentUserTranscriptIdRef st;
     currentMaryTranscriptIdRef := currentMaryTranscriptIdRef st;
     createdSources := v; started := started st; stopped := stopped st;
     liveConnects := liveConnects st |}.

Definition set_started (v : list Started) (st : Hook) : Hook :=
  {| status := status st; transcripts := transcripts st; sessionPromiseRef
     := sessionPromiseRef st; inputAudioContextRef := inputAudioContextRef
     st; outputAudioContextRef := outputAudioContextRef st; mediaStreamRef
     := mediaStreamRef st; scriptProcessorRef := scriptProcessorRef st;
     frameIntervalRef := frameIntervalRef st; audioSourcesRef :=
     audioSourcesRef st; nextAudioStartTimeRef := nextAudioStartTimeRef st;
     compressorRef := compressorRef st; micGainNodeRef := micGainNodeRef st;
     currentInputTranscriptionRef := currentInputTranscriptionRef st;
     currentOutputTranscriptionRef := currentOutputTranscriptionRef st;
     currentUserTranscriptIdRef := currentUserTranscriptIdRef st;
     currentMaryTranscriptIdRef := currentMaryTranscriptIdRef st;
     createdSources := createdSources st; started := v; stopped := stopped
     st; liveConnects := liveConnects st |}.

Definition set_stopped (v : gset nat) (st : Hook) : Hook :=
  {| status := status st; transcripts := transcripts st; sessionPromiseRef
     := sessionPromiseRef st; inputAudioContextRef := inputAudioContextRef
     st; outputAudioContextRef := outputAudioContextRef st; mediaStreamRef
     := mediaStreamRef st; scriptProcessorRef := scriptProcessorRef st;
     frameIntervalRef := frameIntervalRef st; audioSourcesRef :=
     audioSourcesRef st; nextAudioStartTimeRef := nextAudioStartTimeRef st;
     compressorRef := compressorRef st; micGainNodeRef := micGainNodeRef st;
     currentInputTranscriptionRef := currentInputTranscriptionRef st;
     currentOutputTranscriptionRef := currentOutputTranscriptionRef st;
     currentUserTranscriptIdRef := currentUserTranscriptIdRef st;
     currentMaryTranscriptIdRef := currentMaryTranscriptIdRef st;
     createdSources := createdSources st; started := started st; stopped :=
     v; liveConnects := liveConnects st |}.

Definition set_liveConnects (v : nat) (st : Hook) : Hook :=
  {| status := status st; transcripts := transcripts st; sessionPromiseRef
     := sessionPromiseRef st; inputAudioContextRef := inputAudioContextRef
     st; outputAudioContextRef := outputAudioContextRef st; mediaStreamRef
     := mediaStreamRef st; scriptProcessorRef := scriptProcessorRef st;
     frameIntervalRef := frameIntervalRef st; audioSourcesRef :=
     audioSourcesRef st; nextAudioStartTimeRef := nextAudioStartTimeRef st;
     compressorRef := compressorRef st; micGainNodeRef := micGainNodeRef st;
     currentInputTranscriptionRef := currentInputTranscriptionRef st;
     currentOutputTranscriptionRef := currentOutputTranscriptionRef st;
     currentUserTranscriptIdRef := currentUserTranscriptIdRef st;
     currentMaryTranscriptIdRef := currentMaryTranscriptIdRef st;
     createdSources := createdSources st; started := started st; stopped :=
     stopped st; liveConnects := v |}.

(** *** Messages of the live session, as far as the handler reads them

    A transcription is taken to carry its [text], a string, as the handler
    assumes when it appends it to the accumulator; a transcription object
    without a [text] is outside the model. *)

Record ServerContent : Type := {
  audioData : option string;   (* modelTurn?.parts?.[0]?.inlineData?.data *)
  interrupted : bool;
  inputTranscription : option string;    (* the [text] of the delta *)
  outputTranscription : option string;
  turnComplete : bool;
  groundingMetadata : option GroundingMetadata;
}.

Record LiveServerMessage : Type := {
  serverContent : option ServerContent;
}.

(** What one run of the handler reads from the browser: the clock of the
    output audio context, and [Date.now()] at its two call sites (line 127
    for the entry of the user, line 142 for the entry of the model). *)
Record Env : Type := {
  currentTime : number;
  dateNowUser : Z;
  dateNowMary : Z;
}.

(** Truthiness of a ref that holds a number or null: null and 0 are falsy. *)
Definition truthy_id (r : option Z) : bool :=
  match r with
  | Some z => negb (z =? 0)
  | None => false
  end.

(** [t.id === ref.current]: both null, or the same number. *)
Definition id_is (r : option Z) (t : TranscriptEntry) : bool :=
  bool_decide (r = id t).

Definition with_text (s : string) (t : TranscriptEntry) : TranscriptEntry :=
  {| speaker := speaker t; text := s; isFinal := isFinal t; id := id t;
     feedback := feedback t; sources := sources t |}.

Definition with_text_final (s : string) (t : TranscriptEntry) : TranscriptEntry :=
  {| speaker := speaker t; text := s; isFinal := true; id := id t;
     feedback := feedback t; sources := sources t |}.

Definition with_text_final_sources (s : string)
    (srcs : option (list GroundingSource)) (t : TranscriptEntry) : TranscriptEntry :=
  {| speaker := speaker t; text := s; isFinal := true; id := id t;
     feedback := feedback t; sources := srcs |}.

Definition with_feedback (f : Feedback) (t : TranscriptEntry) : TranscriptEntry :=
  {| speaker := speaker t; text := text t; isFinal := isFinal t; id := id t;
     feedback := Some f; sources := sources t |}.

(** The updaters handed to [setTranscripts], as functions of the values
    that they read from the refs when they run. *)
Definition appendEntry (i : option Z) (who : Speaker) (s : string)
    (prev : list TranscriptEntry) : list TranscriptEntry :=
  prev ++ [ {| speaker := who; text := s; isFinal := false; id := i;
               feedback := None; sources := None |} ].

Definition replaceText (r : option Z) (s : string)
    (prev : list TranscriptEntry) : list TranscriptEntry :=
  (fun t => if id_is r t then with_text s t else t) <$> prev.

Definition finalizeUser (r : option Z) (s : string)
    (prev : list TranscriptEntry) : list TranscriptEntry :=
  (fun t => if id_is r t then with_text_final s t else t) <$> prev.

Definition finalizeMary (r : option Z) (s : string) (srcs : list GroundingSource)
    (prev : list TranscriptEntry) : list TranscriptEntry :=
  (fun t =>
     if id_is r t
     then with_text_final_sources s
            (if bool_decide (0 < length srcs)%nat then Some srcs else None) t
     else t) <$> prev.

Definition feedbackReducer (i : Z) (f : Feedback)
    (prev : list TranscriptEntry) : list TranscriptEntry :=
  (fun entry => if bool_decide (id entry = Some i) then with_feedback f entry else entry)
    <$> prev.

Section Handlers.

(** Addition of doubles; how it rounds is left open. *)
Variable num_add : number -> number -> number.

(** The [duration] of the buffer that [decodeAudioData(decode(...))] of
    [src/utils/audio] returns for a payload. *)
Variable bufferDuration : string -> number.

Definition cleanup (st : Hook) : Hook :=
  let st := set_mediaStreamRef false st in
  let st := set_scriptProcessorRef false st in
  let st := if truthy_id (frameIntervalRef st)
            then set_frameIntervalRef None st else st in
  let st := set_compressorRef false st in
  let st := set_inputAudioContextRef false st in
  let st := set_outputAudioContextRef false st in
  let st := set_stopped (stopped st ∪ audioSourcesRef st) st in
  let st := set_audioSourcesRef ∅ st in
  let st := set_nextAudioStartTimeRef (of_Z 0) st in
  set_sessionPromiseRef None st.

(** Lines 95-112: schedule one decoded chunk. *)
Definition playChunk (env : Env) (base64Audio : string) (st : Hook) : Hook :=
  let st := set_nextAudioStartTimeRef
              (Math_max (nextAudioStartTimeRef st) (currentTime env)) st in
  let audioBuffer_duration := bufferDuration base64Audio in
  let src := createdSources st in
  let st := set_createdSources (S src) st in
  let st := set_started
              (started st ++ [ {| source := src;
                                  startTime := nextAudioStartTimeRef st;
                                  duration := audioBuffer_duration |} ]) st in
  let st := set_nextAudioStartTimeRef
              (num_add (nextAudioStartTimeRef st) audioBuffer_duration) st in
  set_audioSourcesRef (audioSourcesRef st ∪ {[ src ]}) st.

(** Lines 116-120. *)
Definition stopPlayback (st : Hook) : Hook :=
  let st := set_stopped (stopped st ∪ audioSourcesRef st) st in
  let st := set_audioSourcesRef ∅ st in
  set_nextAudioStartTimeRef (of_Z 0) st.

(** *** The updaters of the message handler

    [setTranscripts(f)] hands the updater [f] to React, which runs it when
    it renders next.  The six updaters of the handler (lines 128, 132, 143,
    147, 178 and 182) read the refs in their bodies, so what they do depends
    on the refs as they are when React runs them, not as they were when
    the handler handed them over.  The last one also captures [sources],
    which is a constant of the call.

    React is taken to render when the handler that handed over the
    updaters has returned, and before the next message is handled.  That
    React may run the first updater of an idle component at once, when it
    is handed over, is not part of the handler below; an example after the
    properties of the end of a turn shows what that changes. *)
Inductive Updater : Type :=
| AppendUser
| ReplaceUser
| AppendMary
| ReplaceMary
| FinalizeUser
| FinalizeMary (sources : list GroundingSource).

Definition runUpdater (refs : Hook) (u : Updater) (prev : list TranscriptEntry)
  : list TranscriptEntry :=
  match u with
  | AppendUser =>
      appendEntry (currentUserTranscriptIdRef refs) user
        (currentInputTranscriptionRef refs) prev
  | ReplaceUser =>
      replaceText (currentUserTranscriptIdRef refs)
        (currentInputTranscriptionRef refs) prev
  | AppendMary =>
      appendEntry (currentMaryTranscriptIdRef refs) mary
        (currentOutputTranscriptionRef refs) prev
  | ReplaceMary =>
      replaceText (currentMaryTranscriptIdRef refs)
        (currentOutputTranscriptionRef refs) prev
  | FinalizeUser =>
      finalizeUser (currentUserTranscriptIdRef refs)
        (currentInputTranscriptionRef refs) prev
  | FinalizeMary sources =>
      finalizeMary (currentMaryTranscriptIdRef refs)
        (currentOutputTranscriptionRef refs) sources prev
  end.

(** React renders: the updaters of the queue run in order, each on the list
    that the one before returned, with the refs as they are now. *)
Definition render (queue : list Updater) (st : Hook) : Hook :=
  set_transcripts
    (foldl (fun prev u => runUpdater st u prev) (transcripts st) queue) st.

(** Lines 124-135: what the block does to the refs, and the updater that it
    hands to React. *)
Definition queueInputDelta (env : Env) (delta : string) (st : Hook)
  : Hook * list Updater :=
  let st := set_currentInputTranscriptionRef
              (currentInputTranscriptionRef st +:+ delta) st in
  if negb (truthy_id (currentUserTranscriptIdRef st)) then
    (set_currentUserTranscriptIdRef (Some (dateNowUser env)) st, [AppendUser])
  else (st, [ReplaceUser]).

(** Lines 139-150. *)
Definition queueOutputDelta (env : Env) (delta : string) (st : Hook)
  : Hook * list Updater :=
  let st := set_currentOutputTranscriptionRef
              (currentOutputTranscriptionRef st +:+ delta) st in
  if negb (truthy_id (currentMaryTranscriptIdRef st)) then
    (set_currentMaryTranscriptIdRef (Some (dateNowMary env)) st, [AppendMary])
  else (st, [ReplaceMary]).

(** Lines 154-188: the sources are extracted, the two updaters are handed
    over when the refs hold an id, and then the accumulators and the refs
    are reset. *)
Definition queueCompleteTurn (md : option GroundingMetadata) (st : Hook)
  : Hook * list Updater :=
  let srcs := extractSources "Leer reseÃ±a" md in
  let q1 := if truthy_id (currentUserTranscriptIdRef st) then [FinalizeUser] else [] in
  let q2 := if truthy_id (currentMaryTranscriptIdRef st)
            then [FinalizeMary srcs] else [] in
  let st := set_currentInputTranscriptionRef "" st in
  let st := set_currentOutputTranscriptionRef "" st in
  let st := set_currentUserTranscriptIdRef None st in
  (set_currentMaryTranscriptIdRef None st, q1 ++ q2).

(** The first two [if]s of the handler.  The handler is taken to run from
    its first line to its last without another handler in between: the
    only [await] is on [decodeAudioData]. *)
Definition audioStep (env : Env) (sc : option ServerContent) (st : Hook) : Hook :=
  match sc ≫= audioData with
  | Some base64Audio =>
      if truthy_string base64Audio && outputAudioContextRef st
      then playChunk env base64Audio st else st
  | None => st
  end.

Definition interruptedStep (sc : option ServerContent) (st : Hook) : Hook :=
  match sc with
  | Some c => if interrupted c then stopPlayback st else st
  | None => st
  end.

(** The last three [if]s, each with the updaters that it hands over. *)
Definition inputIf (env : Env) (sc : option ServerContent) (st : Hook)
  : Hook * list Updater :=
  match sc ≫= inputTranscription with
  | Some delta => queueInputDelta env delta st
  | None => (st, [])
  end.

Definition outputIf (env : Env) (sc : option ServerContent) (st : Hook)
  : Hook * list Updater :=
  match sc ≫= outputTranscription with
  | Some delta => queueOutputDelta env delta st
  | None => (st, [])
  end.

Definition turnCompleteIf (sc : option ServerContent) (st : Hook)
  : Hook * list Updater :=
  match sc with
  | Some c => if turnComplete c then queueCompleteTurn (groundingMetadata c) st
              else (st, [])
  | None => (st, [])
  end.

(** The handler: its five [if]s, and then React runs what was handed
    over. *)
Definition handleServerMessage (env : Env) (message : LiveServerMessage) (st : Hook)
  : Hook :=
  let sc := serverContent message in
  let st := interruptedStep sc (audioStep env sc st) in
  let i := inputIf env sc st in
  let o := outputIf env sc i.1 in
  let t := turnCompleteIf sc o.1 in
  render (i.2 ++ o.2 ++ t.2) t.1.

(** *** A block of the handler rendered on its own

    What a block does when React runs its updater before the refs change
    again.  For the two delta blocks this is what happens in every message
    that does not also end the turn, since no later block of such a message
    writes the refs that their updaters read. *)
Definition inputDelta (env : Env) (delta : string) (st : Hook) : Hook :=
  let b := queueInputDelta env delta st in render b.2 b.1.

Definition outputDelta (env : Env) (delta : string) (st : Hook) : Hook :=
  let b := queueOutputDelta env delta st in render b.2 b.1.

Definition completeTurn (md : option GroundingMetadata) (st : Hook) : Hook :=
  let b := queueCompleteTurn md st in render b.2 b.1.

Definition inputStep (env : Env) (sc : option ServerContent) (st : Hook) : Hook :=
  match sc ≫= inputTranscription with
  | Some delta => inputDelta env delta st
  | None => st
  end.

Definition outputStep (env : Env) (sc : option ServerContent) (st : Hook) : Hook :=
  match sc ≫= outputTranscription with
  | Some delta => outputDelta env delta st
  | None => st
  end.

(** *** [connect] and the session callbacks *)

(** How far the [try] block of [connect] gets: the places where it can
    throw or reject (lines 198, 208, 210, 211, 214-220 and 223-251), and
    the return of [ai.live.connect] with a session. *)
Inductive ConnectOutcome : Type :=
| GetUserMediaRejects
| PlayRejects
| InputContextThrows
| OutputContextThrows
| CompressorThrows
| SessionSetupThrows
| SessionPromise (session : nat).

(** The [catch] block. *)
Definition connectFailed (st : Hook) : Hook := cleanup (set_status error st).

(** A call of [connect] that nothing interrupts: it is made by the callback
    of the latest render, whose [status] is the current one, and no other
    handler runs while it waits at its two [await]s.  The calls that are
    interrupted, or made by an older callback, are further down. *)
Definition connect (outcome : ConnectOutcome) (st : Hook) : Hook :=
  if bool_decide (status st ≠ idle) || bool_decide (sessionPromiseRef st ≠ None)
  then st
  else
    let st := set_status connecting st in
    match outcome with
    | GetUserMediaRejects => connectFailed st
    | _ =>
    let st := set_mediaStreamRef true st in
    match outcome with
    | PlayRejects | InputContextThrows => connectFailed st
    | _ =>
    let st := set_inputAudioContextRef true st in
    match outcome with
    | OutputContextThrows => connectFailed st
    | _ =>
    let st := set_outputAudioContextRef true st in
    match outcome with
    | CompressorThrows => connectFailed st
    | _ =>
    let st := set_compressorRef true st in
    match outcome with
    | SessionPromise session =>
        set_sessionPromiseRef (Some session)
          (set_liveConnects (S (liveConnects st)) st)
    | _ => connectFailed st
    end end end end end.

(** [onopen]; [interval] is what [setInterval] returns when the canvas
    has a 2d context.  With no input context the callback throws after
    the status is set. *)
Definition onopen (interval : option Z) (st : Hook) : Hook :=
  let st := set_status connected st in
  if inputAudioContextRef st then
    let st := set_micGainNodeRef true st in
    let st := set_scriptProcessorRef true st in
    match interval with
    | Some i => set_frameIntervalRef (Some i) st
    | None => st
    end
  else st.

Definition onerror (st : Hook) : Hook := cleanup (set_status error st).

Definition onclose (st : Hook) : Hook := cleanup (set_status disconnected st).

(** The listener of a buffer source for [ended]. *)
Definition onended (src : nat) (st : Hook) : Hook :=
  set_audioSourcesRef (audioSourcesRef st ∖ {[ src ]}) st.

Definition handleFeedback (i : Z) (f : Feedback) (st : Hook) : Hook :=
  set_transcripts (feedbackReducer i f (transcripts st)) st.

(** *** What can happen to a mounted hook

    In this list a call of [connect] runs to its end at once; the calls
    that wait at an [await] while other things happen are further down. *)
Inductive Event : Type :=
| CallConnect (outcome : ConnectOutcome)
| OnOpen (interval : option Z)
| OnMessage (env : Env) (message : LiveServerMessage)
| OnError
| OnClose
| OnEnded (src : nat)
| CallHandleFeedback (i : Z) (f : Feedback)
| EffectCleanup.

Definition step (st : Hook) (ev : Event) : Hook :=
  match ev with
  | CallConnect outcome => connect outcome st
  | OnOpen interval => onopen interval st
  | OnMessage env message => handleServerMessage env message st
  | OnError => onerror st
  | OnClose => onclose st
  | OnEnded src => onended src st
  | CallHandleFeedback i f => handleFeedback i f st
  | EffectCleanup => cleanup st
  end.

Definition run (st : Hook) (evs : list Event) : Hook := foldl step st evs.

(** *** [connect] with its two [await]s

    [connect] waits for [getUserMedia] (line 198) and for [videoEl.play()]
    (line 208); other handlers, and other calls of [connect], can run
    while it waits.  Its guard reads the [status] that the callback
    captured at the render that made it, and the session ref as it is at
    the call; the ref is set at line 251 only.  Here the body is cut at the
    two [await]s.  A call that waits is recorded with the place where it
    waits and with how far it is going to get. *)
Inductive ConnectAwait : Type := AwaitGetUserMedia | AwaitPlay.

Record Waiting : Type := {
  awaiting : ConnectAwait;
  outcome : ConnectOutcome;
}.

(** Lines 193-198, up to the first [await]. *)
Definition connect_call (closureStatus : Status) (o : ConnectOutcome) (st : Hook)
  : Hook * option Waiting :=
  if bool_decide (closureStatus ≠ idle) || bool_decide (sessionPromiseRef st ≠ None)
  then (st, None)
  else (set_status connecting st,
        Some {| awaiting := AwaitGetUserMedia; outcome := o |}).

(** Lines 210-312, after the second [await].  (A call whose [getUserMedia]
    is rejected does not get here.) *)
Definition connect_afterPlay (o : ConnectOutcome) (st : Hook) : Hook :=
  match o with
  | GetUserMediaRejects | PlayRejects | InputContextThrows => connectFailed st
  | _ =>
  let st := set_inputAudioContextRef true st in
  match o with
  | OutputContextThrows => connectFailed st
  | _ =>
  let st := set_outputAudioContextRef true st in
  match o with
  | CompressorThrows => connectFailed st
  | _ =>
  let st := set_compressorRef true st in
  match o with
  | SessionPromise session =>
      set_sessionPromiseRef (Some session)
        (set_liveConnects (S (liveConnects st)) st)
  | _ => connectFailed st
  end end end end.

(** The call goes on from the [await] at which it waits, up to the next
    one or to its end. *)
Definition connect_resume (w : Waiting) (st : Hook) : Hook * option Waiting :=
  match awaiting w with
  | AwaitGetUserMedia =>
      match outcome w with
      | GetUserMediaRejects => (connectFailed st, None)
      | o => (set_mediaStreamRef true st,
              Some {| awaiting := AwaitPlay; outcome := o |})
      end
  | AwaitPlay => (connect_afterPlay (outcome w) st, None)
  end.

(** The hook with the calls of [connect] that wait at an [await]. *)
Record Mounted : Type := {
  hook : Hook;
  waiting : list Waiting;
}.

Definition mountedHook : Mounted := {| hook := initial; waiting := [] |}.

(** Everything that can happen to a mounted hook, in any order: a call of
    [connect] by a callback with a given [status]; one of the waiting calls
    going on; and the events above. *)
Inductive Moment : Type :=
| ConnectCalled (closureStatus : Status) (o : ConnectOutcome)
| ConnectResumes (k : nat)
| Happens (ev : Event).

Definition moment (m : Mounted) (mo : Moment) : Mounted :=
  match mo with
  | ConnectCalled closureStatus o =>
      let c := connect_call closureStatus o (hook m) in
      {| hook := c.1; waiting := waiting m ++ option_list c.2 |}
  | ConnectResumes k =>
      match waiting m !! k with
      | Some w =>
          let c := connect_resume w (hook m) in
          {| hook := c.1;
             waiting := take k (waiting m) ++ option_list c.2 ++ drop (S k) (waiting m) |}
      | None => m
      end
  | Happens ev => {| hook := step (hook m) ev; waiting := waiting m |}
  end.

Definition moments (m : Mounted) (mos : list Moment) : Mounted := foldl moment m mos.

End Handlers.

End LiveSession.

Import GeminiService LiveSession.

(** ** The sources of a chunk, as the specification words them

    A chunk counts as a web chunk when it has a [web] field, and as a maps
    chunk when it has a [maps] field and no [web] field (the loop tests
    [web] first).  A web chunk gives one 'search' source; a maps chunk gives
    one 'maps' source followed by one 'review' source for each of its review
    snippets whose review is an object with a [uri] key; the source has
    what the key holds as its uri. *)
Section GroundingSpec.

Variable reviewFallbackTitle : string.

Definition reviewSource (snippet : ReviewSnippet) : option GroundingSource :=
  match review snippet with
  | ReviewObject (Some u) t =>
      Some {| uri := u;
              title := or_string t (Some reviewFallbackTitle);
              type := src_review |}
  | _ => None
  end.

Definition snippetsOf (m : GroundingChunkMaps) : list ReviewSnippet :=
  default [] (placeAnswerSources m ≫= reviewSnippets).

Definition sourcesOfChunk (chunk : GroundingChunk) : list GroundingSource :=
  match web chunk, maps chunk with
  | Some w, _ =>
      [ {| uri := web_uri w; title := or_string (web_title w) (web_uri w);
           type := src_search |} ]
  | None, Some m =>
      {| uri := maps_uri m; title := or_string (maps_title m) (maps_uri m);
         type := src_maps |} :: omap reviewSource (snippetsOf m)
  | None, None => []
  end.

Definition chunksOf (groundingMetadata : option GroundingMetadata)
  : list GroundingChunk :=
  default [] (groundingMetadata ≫= groundingChunks).

End GroundingSpec.

(** The grounding metadata of the first candidate of a response. *)
Definition firstCandidateMetadata (response : GeminiService.GenerateContentResponse)
  : option GroundingMetadata :=
  match GeminiService.candidates response with
  | Some (c :: _) => GeminiService.groundingMetadata c
  | _ => None
  end.


(** ** The sample that the encoder stores, in words

    The product of the input sample and 32768, clamped to the interval from
    -32768 to 32767 and then truncated toward zero; an infinite sample gives
    the bound on its side, and NaN gives 0. *)
Definition clampQ (q : Q) : Q :=
  Qmax (inject_Z (-32768)) (Qmin (inject_Z 32767) (q * inject_Z 32768)).

Definition storedSample (x : number) : Z :=
  match x with
  | NaN => 0
  | NegInf => -32768
  | PosInf => 32767
  | Fin q => truncate (clampQ q)
  end.


(** ** Runs of the message handler, and what a message carries *)
Section Runs.

Variable num_add : number -> number -> number.
Variable bufferDuration : string -> number.

(** The messages of a list handled one after the other, each with what
    the browser reports at that moment. *)
Definition runMessages (st : Hook) (ms : list (Env * LiveServerMessage)) : Hook :=
  foldl (fun st em => handleServerMessage num_add bufferDuration em.1 em.2 st) st ms.

(** The audio payload of a message, when the handler takes it for one. *)
Definition chunkOf (message : LiveServerMessage) : option string :=
  match serverContent message ≫= audioData with
  | Some base64Audio => if truthy_string base64Audio then Some base64Audio else None
  | None => None
  end.

Definition isInterrupted (message : LiveServerMessage) : bool :=
  match serverContent message with
  | Some c => interrupted c
  | None => false
  end.

Definition isTurnComplete (message : LiveServerMessage) : bool :=
  match serverContent message with
  | Some c => turnComplete c
  | None => false
  end.

(** The fields that the playback queue consists of. *)
Definition audioView (st : Hook) :=
  (nextAudioStartTimeRef st, started st, audioSourcesRef st, stopped st,
   createdSources st, outputAudioContextRef st).

(** Every message of the list carries a chunk and no interruption. *)
Definition chunksOnly (ms : list (Env * LiveServerMessage)) : Prop :=
  forall i em, ms !! i = Some em ->
    is_Some (chunkOf em.2) /\ isInterrupted em.2 = false.

(** From the second message on, the accumulated start time is at or above
    the clock of the audio context when the message is handled. *)
Definition staysAhead (st : Hook) (ms : list (Env * LiveServerMessage)) : Prop :=
  forall i em, (0 < i)%nat -> ms !! i = Some em ->
    num_leb (currentTime em.1) (nextAudioStartTimeRef (runMessages st (take i ms))) = true.

(** What the run of a list of chunks adds to the calls of [source.start]. *)
Definition scheduledBy (st : Hook) (ms : list (Env * LiveServerMessage))
    (new : list Started) : Prop :=
  started (runMessages st ms) = started st ++ new /\
  length new = length ms /\
  forall i em s, ms !! i = Some em -> new !! i = Some s ->
    let before := runMessages st (take i ms) in
    let after := runMessages st (take (S i) ms) in
    startTime s = Math_max (nextAudioStartTimeRef before) (currentTime em.1) /\
    Some (duration s) = bufferDuration <$> chunkOf em.2 /\
    nextAudioStartTimeRef after = num_add (startTime s) (duration s).

End Runs.


(** Addition of finite numbers without rounding, to run the handler on
    examples; on other arguments it follows the IEEE rules. *)
Definition exact_add (a b : number) : number :=
  match a, b with
  | NaN, _ | _, NaN => NaN
  | PosInf, NegInf | NegInf, PosInf => NaN
  | PosInf, _ | _, PosInf => PosInf
  | NegInf, _ | _, NegInf => NegInf
  | Fin x, Fin y => Fin (x + y)
  end.

(** A message that carries nothing but an audio payload. *)
Definition audioMessage (base64Audio : string) : LiveServerMessage :=
  {| serverContent :=
       Some {| audioData := Some base64Audio; interrupted := false;
               inputTranscription := None; outputTranscription := None;
               turnComplete := false; groundingMetadata := None |} |}.

(** A hook with a session open: all of [connect] and [onopen] done. *)
Definition connectedHook : Hook :=
  onopen (Some 7) (connect (SessionPromise 1) initial).


(** A message that only reports an interruption. *)
Definition interruptedMessage : LiveServerMessage :=
  {| serverContent :=
       Some {| audioData := None; interrupted := true;
               inputTranscription := None; outputTranscription := None;
               turnComplete := false; groundingMetadata := None |} |}.

(** The state that [cleanup] leaves behind. *)
Definition cleanedUp (st : Hook) : Prop :=
  mediaStreamRef st = false /\ scriptProcessorRef st = false /\
  truthy_id (frameIntervalRef st) = false /\ compressorRef st = false /\
  inputAudioContextRef st = false /\ outputAudioContextRef st = false /\
  audioSourcesRef st = ∅ /\ nextAudioStartTimeRef st = of_Z 0 /\
  sessionPromiseRef st = None.

(** The outcomes of [connect] in which its [try] block throws. *)
Definition connectThrows (outcome : ConnectOutcome) : Prop :=
  match outcome with
  | SessionPromise _ => False
  | _ => True
  end.


(** Messages with a single transcription delta, and the end of a turn. *)
Definition inputMessage (delta : string) : LiveServerMessage :=
  {| serverContent :=
       Some {| audioData := None; interrupted := false;
               inputTranscription := Some delta; outputTranscription := None;
               turnComplete := false; groundingMetadata := None |} |}.

Definition outputMessage (delta : string) : LiveServerMessage :=
  {| serverContent :=
       Some {| audioData := None; interrupted := false;
               inputTranscription := None; outputTranscription := Some delta;
               turnComplete := false; groundingMetadata := None |} |}.

Definition turnCompleteMessage (md : option GroundingMetadata) : LiveServerMessage :=
  {| serverContent :=
       Some {| audioData := None; interrupted := false;
               inputTranscription := None; outputTranscription := None;
               turnComplete := true; groundingMetadata := md |} |}.

(** What the browser reports when [Date.now()] is [now]. *)
Definition atTime (now : Z) : Env :=
  {| currentTime := of_Z 0; dateNowUser := now; dateNowMary := now |}.

(** An entry as a delta appends it. *)
Definition freshEntry (i : Z) (who : Speaker) (s : string) : TranscriptEntry :=
  {| speaker := who; text := s; isFinal := false; id := Some i;
     feedback := None; sources := None |}.


(** [next] is [prev] with the text of the entries whose id is in the ref [r]
    replaced by [s], and nothing else changed. *)
Definition textReplaced (r : option Z) (s : string)
    (prev next : list TranscriptEntry) : Prop :=
  length next = length prev /\
  (forall k t, prev !! k = Some t ->
     exists t', next !! k = Some t' /\
       speaker t' = speaker t /\ isFinal t' = isFinal t /\ id t' = id t /\
       feedback t' = feedback t /\ sources t' = sources t /\
       (r = id t -> text t' = s) /\
       (r <> id t -> t' = t)) /\
  (NoDup (id <$> prev) ->
   forall j k tj tk, prev !! j = Some tj -> prev !! k = Some tk ->
     r = id tj -> r = id tk -> j = k).


(** A web chunk, as grounding metadata. *)
Definition oneWebChunk : option GroundingMetadata :=
  Some {| groundingChunks :=
            Some [ {| web := Some {| web_uri := Some "https://example.org";
                                     web_title := Some "Example" |};
                      maps := None |} ] |}.

(** ** A turn of transcription deltas, in words *)

(** The deltas of one speaker in a list of messages, in arrival order. *)
Definition inputDeltas (ms : list (Env * LiveServerMessage)) : list string :=
  omap (fun em => serverContent em.2 ≫= inputTranscription) ms.

Definition outputDeltas (ms : list (Env * LiveServerMessage)) : list string :=
  omap (fun em => serverContent em.2 ≫= outputTranscription) ms.

Definition concatText (deltas : list string) : string :=
  foldr String.append "" deltas.

(** The list holds, at one index only, an entry with id [u]; it is the
    unfinished entry of [who] with text [acc]. *)
Definition located (u : Z) (who : Speaker) (acc : string)
    (l : list TranscriptEntry) : Prop :=
  exists k, l !! k = Some (freshEntry u who acc) /\
            forall j t, l !! j = Some t -> id t = Some u -> j = k.

(** Reconstruction of the text of one speaker: before the first
    delta the ref is null; from then on it holds the id of one entry, whose
    text is the concatenation of the deltas so far. *)
Definition reconstructed (r : option Z) (who : Speaker) (deltas : list string)
    (l : list TranscriptEntry) : Prop :=
  match deltas with
  | [] => r = None
  | _ => exists u, r = Some u /\ u <> 0 /\ located u who (concatText deltas) l
  end.

Section Turn.

Variable num_add : number -> number -> number.
Variable bufferDuration : string -> number.

(** The state in which the handler reaches the [if] on the output
    transcription. *)
Definition beforeOutput (env : Env) (message : LiveServerMessage) (st : Hook) : Hook :=
  let sc := serverContent message in
  inputStep env sc (interruptedStep sc (audioStep num_add bufferDuration env sc st)).

(** Whenever a delta makes the handler take a new id from [Date.now()],
    the value is not 0 and is not the id of an entry of the list. *)
Definition freshIds (st : Hook) (ms : list (Env * LiveServerMessage)) : Prop :=
  forall i em, ms !! i = Some em ->
    let s := runMessages num_add bufferDuration st (take i ms) in
    let s' := beforeOutput em.1 em.2 s in
    (is_Some (serverContent em.2 ≫= inputTranscription) ->
     truthy_id (currentUserTranscriptIdRef s) = false ->
     dateNowUser em.1 <> 0 /\
     forall t, t ∈ transcripts s -> id t <> Some (dateNowUser em.1)) /\
    (is_Some (serverContent em.2 ≫= outputTranscription) ->
     truthy_id (currentMaryTranscriptIdRef s') = false ->
     dateNowMary em.1 <> 0 /\
     forall t, t ∈ transcripts s' -> id t <> Some (dateNowMary em.1)).

End Turn.


(** The state of a turn after the messages [ms]: both accumulators hold the
    concatenation of the deltas of their speaker, and both entries are
    reconstructed. *)
Definition turnInvariant (ms : list (Env * LiveServerMessage)) (s : Hook) : Prop :=
  currentInputTranscriptionRef s = concatText (inputDeltas ms) /\
  currentOutputTranscriptionRef s = concatText (outputDeltas ms) /\
  reconstructed (currentUserTranscriptIdRef s) user (inputDeltas ms) (transcripts s) /\
  reconstructed (currentMaryTranscriptIdRef s) mary (outputDeltas ms) (transcripts s).

(** The state right after the end of a turn, or at the start. *)
Definition turnStart (s : Hook) : Prop :=
  currentInputTranscriptionRef s = "" /\ currentOutputTranscriptionRef s = "" /\
  currentUserTranscriptIdRef s = None /\ currentMaryTranscriptIdRef s = None.


(** ** Invariants of the playback queue *)

(** The queue holds only sources that were created and on which
    [source.stop] was not called; [source.stop] was called only on sources
    that were created. *)
Definition queueInvariant (st : Hook) : Prop :=
  (forall s, s ∈ audioSourcesRef st -> (s < createdSources st)%nat /\ s ∉ stopped st) /\
  (forall s, s ∈ stopped st -> (s < createdSources st)%nat).

(** The calls of [source.start] are those of the sources created, one each,
    in the order of creation. *)
Definition startedInOrder (st : Hook) : Prop :=
  source <$> started st = seq 0 (createdSources st).

(** A number that is not NaN. *)
Definition notNaN (x : number) : Prop :=
  match x with
  | NaN => False
  | _ => True
  end.


(** The status, the session and the refs to browser objects other than the
    output context: what the message handler leaves alone. *)
Definition refsView (st : Hook) :=
  (status st, sessionPromiseRef st, liveConnects st, mediaStreamRef st,
   scriptProcessorRef st, frameIntervalRef st, compressorRef st,
   inputAudioContextRef st, micGainNodeRef st).


(** ** What the hook keeps of an entry *)

(** An entry [t'] that stands where [t] stood: same id, same speaker, and
    final if [t] was. *)
Definition entryKept (t t' : TranscriptEntry) : Prop :=
  id t' = id t /\ speaker t' = speaker t /\ (isFinal t = true -> isFinal t' = true).

(** Every entry of [l] is still in [l'], at its index. *)
Definition entriesKept (l l' : list TranscriptEntry) : Prop :=
  forall k t, l !! k = Some t -> exists t', l' !! k = Some t' /\ entryKept t t'.

(** At most one call of [ai.live.connect], none while the status is 'idle',
    and a session reference only after one. *)
Definition oneSession (st : Hook) : Prop :=
  (liveConnects st <= 1)%nat /\
  (status st = idle -> liveConnects st = 0%nat) /\
  (sessionPromiseRef st <> None -> liveConnects st = 1%nat /\ status st <> idle).


(** ** Calls of [connect] by the callback of the latest render

    React is taken to render after everything that happens to the hook, so
    the callback of the latest render has captured the current [status].
    In such a list of moments every call of [connect] is made by that
    callback. *)
Section Calls.

Variable num_add : number -> number -> number.
Variable bufferDuration : string -> number.

Fixpoint callsFromLatestRender (m : Mounted) (mos : list Moment) : Prop :=
  match mos with
  | [] => True
  | mo :: mos =>
      match mo with
      | ConnectCalled closureStatus _ => closureStatus = status (hook m)
      | _ => True
      end /\
      callsFromLatestRender (moment num_add bufferDuration m mo) mos
  end.

End Calls.

(** At most one call of [connect] waits or has opened a session, and none
    waits while the status is 'idle'. *)
Definition oneCall (m : Mounted) : Prop :=
  oneSession (hook m) /\
  (length (waiting m) + liveConnects (hook m) <= 1)%nat /\
  (status (hook m) = idle -> waiting m = []).


(** ** Reading the bytes of a PCM blob back

    The 16-bit integer that two bytes denote, low byte first, in two's
    complement; and the integers of a list of bytes taken two by two. *)
Definition int16OfBytes (lo hi : Z) : Z :=
  let u := lo + 256 * hi in
  if 32768 <=? u then u - 65536 else u.

Fixpoint bytesToInt16 (bytes : list Z) : list Z :=
  match bytes with
  | lo :: hi :: rest => int16OfBytes lo hi :: bytesToInt16 rest
  | _ => []
  end.

(** The three levels in their order. *)
Definition levelRank (l : TraitLevel) : nat :=
  match l with
  | bajo => 0
  | medio => 1
  | alto => 2
  end.


#[global] Instance SourceType_eq_dec : EqDecision SourceType.
Proof. solve_decision. Defined.

(** ** Counting sources and chunks *)

(** How many sources of a list have the given type. *)
Definition countType (ty : SourceType) (srcs : list GroundingSource) : nat :=
  length (filter (fun s => type s = ty) srcs).

(** A chunk with a [web] field; a chunk with a [maps] field and no [web]
    field. *)
Definition isWebChunk (chunk : GroundingChunk) : bool :=
  match web chunk with Some _ => true | None => false end.

Definition isMapsChunk (chunk : GroundingChunk) : bool :=
  match web chunk, maps chunk with
  | None, Some _ => true
  | _, _ => false
  end.

(** A snippet whose review is an object with a [uri] key. *)
Definition hasUsableReview (snippet : ReviewSnippet) : bool :=
  match review snippet with
  | ReviewObject (Some _) _ => true
  | _ => false
  end.

(** The number of such snippets in a maps chunk; 0 for another chunk. *)
Definition usableReviews (chunk : GroundingChunk) : nat :=
  match web chunk, maps chunk with
  | None, Some m => length (List.filter hasUsableReview (snippetsOf m))
  | _, _ => 0
  end.

(** ** [src/components/LiveView.tsx]: the chat and the image analysis

    The two handlers are asynchronous: each runs up to its [await], and
    goes on when the service has answered or failed.  The part before the
    [await] returns what the rest of the handler holds on to; the part
    after it takes that and the outcome.  A handler is taken to be called
    from the latest render, so the flags it reads are the current ones;
    the updaters of these handlers capture constants only. *)
Module LiveView.

Record State : Type := {
  chatHistory : list TranscriptEntry;
  isChatLoading : bool;
  isAnalyzing : bool;
  isActionMenuOpen : bool;
}.

(** The reducer [prev => prev.map(m => m.id === thinkingMessageId ? message : m)]
    of lines 255, 264, 327 and 337. *)
Definition replaceById (thinkingMessageId : Z) (message : TranscriptEntry)
    (prev : list TranscriptEntry) : list TranscriptEntry :=
  (fun m => if bool_decide (id m = Some thinkingMessageId) then message else m) <$> prev.

(** What [handleSendMessage] holds across its [await]. *)
Record ChatCall : Type := {
  chatThinkingId : Z;
  chatPrompt : string;
  historyForApi : list TranscriptEntry;
}.

Definition userMessage (prompt : string) (now : Z) : TranscriptEntry :=
  {| speaker := user; text := prompt; isFinal := true; id := Some now;
     feedback := None; sources := None |}.

Definition thinkingMessage (s : string) (thinkingMessageId : Z) : TranscriptEntry :=
  {| speaker := mary; text := s; isFinal := false; id := Some thinkingMessageId;
     feedback := None; sources := None |}.

Definition botMessage (s : string) (srcs : option (list GroundingSource))
    (thinkingMessageId : Z) : TranscriptEntry :=
  {| speaker := mary; text := s; isFinal := true; id := Some thinkingMessageId;
     feedback := None; sources := srcs |}.

Section Handlers.

(** [String.prototype.trim]. *)
Variable String_trim : string -> string.

(** Lines 222-244: [now1] and [now2] are [Date.now()] at lines 231 and 236,
    [liveTranscripts] the transcripts of the live session. *)
Definition handleSendMessage_start (prompt : string) (now1 now2 : Z)
    (liveTranscripts : list TranscriptEntry) (lv : State)
  : State * option ChatCall :=
  if negb (truthy_string (String_trim prompt)) || isChatLoading lv then (lv, None)
  else
    let thinkingMessageId := now2 + 1 in
    ({| chatHistory :=
          (chatHistory lv ++ [userMessage prompt now1])
            ++ [thinkingMessage "Pensando..." thinkingMessageId];
        isChatLoading := true;
        isAnalyzing := isAnalyzing lv;
        isActionMenuOpen := isActionMenuOpen lv |},
     Some {| chatThinkingId := thinkingMessageId; chatPrompt := prompt;
             historyForApi := liveTranscripts ++ chatHistory lv |}).

(** Lines 246-267: [result] is what [sendChatMessage] resolved to, or
    [None] when it threw. *)
Definition handleSendMessage_settle (call : ChatCall)
    (result : option (string * list GroundingSource)) (lv : State) : State :=
  let message :=
    match result with
    | Some (text, sources) => botMessage text (Some sources) (chatThinkingId call)
    | None =>
        botMessage "Lo siento, estoy teniendo problemas para conectarme ahora mismo."
          None (chatThinkingId call)
    end in
  {| chatHistory := replaceById (chatThinkingId call) message (chatHistory lv);
     isChatLoading := false;
     isAnalyzing := isAnalyzing lv;
     isActionMenuOpen := isActionMenuOpen lv |}.

(** Lines 270-286: the thinking id is [Date.now()] itself. *)
Definition handleImageAnalysis_start (now : Z) (lv : State) : State * option Z :=
  if isAnalyzing lv then (lv, None)
  else
    ({| chatHistory := chatHistory lv ++ [thinkingMessage "Analizando la imagen..." now];
        isChatLoading := isChatLoading lv;
        isAnalyzing := true;
        isActionMenuOpen := false |},
     Some now).

(** Lines 288-340: [result] is the text that [analyzeImage] resolved to, or
    [None] when the frame could not be captured or the service failed. *)
Definition handleImageAnalysis_settle (thinkingMessageId : Z)
    (result : option string) (lv : State) : State :=
  let message :=
    match result with
    | Some text => botMessage text None thinkingMessageId
    | None => botMessage "Lo siento, no pude analizar la imagen." None thinkingMessageId
    end in
  {| chatHistory := replaceById thinkingMessageId message (chatHistory lv);
     isChatLoading := isChatLoading lv;
     isAnalyzing := false;
     isActionMenuOpen := isActionMenuOpen lv |}.

(** The component with the calls that are under way. *)
Record Running : Type := {
  view : State;
  chatCalls : list ChatCall;
  analyses : list Z;
}.

Inductive Event : Type :=
| SendMessage (prompt : string) (now1 now2 : Z) (liveTranscripts : list TranscriptEntry)
| ChatSettles (result : option (string * list GroundingSource))
| AnalyzeImage (now : Z)
| AnalysisSettles (result : option string).

Definition step (r : Running) (ev : Event) : Running :=
  match ev with
  | SendMessage prompt now1 now2 liveTranscripts =>
      let '(lv, call) :=
        handleSendMessage_start prompt now1 now2 liveTranscripts (view r) in
      {| view := lv; chatCalls := chatCalls r ++ option_list call;
         analyses := analyses r |}
  | ChatSettles result =>
      match chatCalls r with
      | call :: rest =>
          {| view := handleSendMessage_settle call result (view r);
             chatCalls := rest; analyses := analyses r |}
      | [] => r
      end
  | AnalyzeImage now =>
      let '(lv, call) := handleImageAnalysis_start now (view r) in
      {| view := lv; chatCalls := chatCalls r; analyses := analyses r ++ option_list call |}
  | AnalysisSettles result =>
      match analyses r with
      | thinkingMessageId :: rest =>
          {| view := handleImageAnalysis_settle thinkingMessageId result (view r);
             chatCalls := chatCalls r; analyses := rest |}
      | [] => r
      end
  end.

Definition run (r : Running) (evs : list Event) : Running := foldl step r evs.

(** At most one chat call and one analysis under way, and each flag set
    exactly while its call is under way. *)
Definition flagsAgree (r : Running) : Prop :=
  (length (chatCalls r) <= 1)%nat /\
  (isChatLoading (view r) = true <-> chatCalls r <> []) /\
  (length (analyses r) <= 1)%nat /\
  (isAnalyzing (view r) = true <-> analyses r <> []).

(** The ids of the placeholders of the calls under way. *)
Definition thinkingIds (r : Running) : list Z :=
  (chatThinkingId <$> chatCalls r) ++ analyses r.

(** Every entry that is not final either stands in [history], at the same
    index, or is the placeholder of a call under way. *)
Definition placeholdersOf (history : list TranscriptEntry) (r : Running) : Prop :=
  forall k m, chatHistory (view r) !! k = Some m -> isFinal m = false ->
    history !! k = Some m \/ exists i, id m = Some i /\ i ∈ thinkingIds r.

End Handlers.

End LiveView.


(** The component when it has just mounted: the history is the one saved
    in the local storage, whatever it holds, or the greeting
    ([LiveView.tsx], lines 111-130), and both flags are off. *)
Definition mounted (history : list TranscriptEntry) : LiveView.Running :=
  {| LiveView.view :=
       {| LiveView.chatHistory := history; LiveView.isChatLoading := false;
          LiveView.isAnalyzing := false; LiveView.isActionMenuOpen := false |};
     LiveView.chatCalls := []; LiveView.analyses := [] |}.


(** * Properties *)

(** ** Order facts on numbers *)

Lemma num_leb_Fin (x y : Q) : num_leb (Fin x) (Fin y) = true <-> (x <= y)%Q.
Proof.
  unfold num_leb. destruct (x ?= y)%Q eqn:E.
  - apply Qeq_alt in E. split; [intros _; lra | done].
  - apply Qlt_alt in E. split; [intros _; lra | done].
  - apply Qgt_alt in E. split; [done | intros; lra].
Qed.

Lemma num_ltb_Fin (x y : Q) : num_ltb (Fin x) (Fin y) = true <-> (x < y)%Q.
Proof.
  unfold num_ltb. destruct (x ?= y)%Q eqn:E.
  - apply Qeq_alt in E. split; [done | intros; lra].
  - apply Qlt_alt in E. split; [intros _; lra | done].
  - apply Qgt_alt in E. split; [done | intros; lra].
Qed.

Lemma num_ltb_false_Fin (x y : Q) : num_ltb (Fin x) (Fin y) = false <-> (y <= x)%Q.
Proof.
  destruct (num_ltb (Fin x) (Fin y)) eqn:E.
  - apply num_ltb_Fin in E. split; [done | intros; lra].
  - split; [intros _ | done].
    destruct (Qlt_le_dec x y) as [H|H]; [| done].
    apply num_ltb_Fin in H. congruence.
Qed.

Lemma num_leb_not_ltb (a b : number) : num_leb b a = true -> num_ltb a b = false.
Proof.
  destruct a, b; try done.
  intros H%num_leb_Fin. by apply num_ltb_false_Fin.
Qed.

Lemma Math_max_ge (a b : number) : num_leb b a = true -> Math_max a b = a.
Proof.
  intros H. pose proof (num_leb_not_ltb _ _ H) as Hlt.
  unfold Math_max. rewrite Hlt. by destruct a, b.
Qed.

(** ** C9: trait levels *)

(** C9.  For every value that is a number (a slider gives no NaN),
    [getTraitLevel] returns 'bajo' exactly when the value is at most 3,
    'medio' exactly when it is greater than 3 and at most 7, and 'alto'
    exactly when it is greater than 7; so every slider value gets one of
    the three levels. *)
Theorem getTraitLevel_partition (value : number) :
  notNaN value ->
  (getTraitLevel value = bajo <-> num_leb value (of_Z 3) = true) /\
  (getTraitLevel value = medio <->
     num_gtb value (of_Z 3) = true /\ num_leb value (of_Z 7) = true) /\
  (getTraitLevel value = alto <-> num_gtb value (of_Z 7) = true) /\
  (getTraitLevel value = bajo \/ getTraitLevel value = medio \/
   getTraitLevel value = alto).
Proof.
  intros Hnum.
  split; [| split; [| split; [| destruct (getTraitLevel value); auto]]];
  revert Hnum; unfold getTraitLevel, num_gtb;
  (destruct value as [| |q|];
    [ done | cbn; intuition (discriminate || auto) | | cbn; intuition (discriminate || auto) ]);
  intros _;
  destruct (num_leb (Fin q) (of_Z 3)) eqn:E3, (num_leb (Fin q) (of_Z 7)) eqn:E7,
    (num_ltb (of_Z 3) (Fin q)) eqn:L3, (num_ltb (of_Z 7) (Fin q)) eqn:L7;
    unfold of_Z in *;
    repeat match goal with
    | H : num_leb (Fin _) (Fin _) = true |- _ => apply num_leb_Fin in H
    | H : num_ltb (Fin _) (Fin _) = true |- _ => apply num_ltb_Fin in H
    | H : num_ltb (Fin _) (Fin _) = false |- _ => apply num_ltb_false_Fin in H
    | H : num_leb (Fin ?x) (Fin ?y) = false |- _ =>
        assert (y < x)%Q by
          (destruct (Qlt_le_dec y x) as [|H']; [done | apply num_leb_Fin in H'; congruence]);
        clear H
    end;
    unfold inject_Z in *; cbn in *; try lra;
    intuition (congruence || auto).
Qed.

(** The value 5 of a slider: it is greater than 3 and at most 7, and its
    level is 'medio'. *)
Lemma getTraitLevel_partition_witness :
  (getTraitLevel (of_Z 5) = bajo <-> num_leb (of_Z 5) (of_Z 3) = true) /\
  (getTraitLevel (of_Z 5) = medio <->
     num_gtb (of_Z 5) (of_Z 3) = true /\ num_leb (of_Z 5) (of_Z 7) = true) /\
  (getTraitLevel (of_Z 5) = alto <-> num_gtb (of_Z 5) (of_Z 7) = true) /\
  (getTraitLevel (of_Z 5) = bajo \/ getTraitLevel (of_Z 5) = medio \/
   getTraitLevel (of_Z 5) = alto).
Proof. apply (getTraitLevel_partition (of_Z 5)). exact I. Defined.

(** NaN is not the value of a slider: the settings are read from storage
    only when they are numbers of JSON, and are written from the value of a
    range input.  On NaN both comparisons of the function are false, so
    it would give 'alto'. *)
Lemma getTraitLevel_NaN :
  getTraitLevel NaN = alto /\ num_gtb NaN (of_Z 7) = false.
Proof. split; reflexivity. Qed.

(** ** C10: feedback *)

Lemma feedbackReducer_lookup (i : Z) (f : Feedback) (prev : list TranscriptEntry) (k : nat) :
  feedbackReducer i f prev !! k =
  (fun entry => if bool_decide (id entry = Some i) then with_feedback f entry else entry)
    <$> prev !! k.
Proof. unfold feedbackReducer. apply list_lookup_fmap. Qed.

(** C10.  [handleFeedback] keeps the length and the order of the
    transcripts; an entry whose id is the given one gets the given feedback
    and keeps its speaker, text, isFinal, id and sources; an entry with
    another id is unchanged; and when no entry has the id the list is
    unchanged. *)
Theorem handleFeedback_frame (st : Hook) (i : Z) (f : Feedback) :
  let prev := transcripts st in
  let next := transcripts (handleFeedback i f st) in
  length next = length prev /\
  (forall k entry, prev !! k = Some entry ->
     exists entry', next !! k = Some entry' /\
       speaker entry' = speaker entry /\ text entry' = text entry /\
       isFinal entry' = isFinal entry /\ id entry' = id entry /\
       sources entry' = sources entry /\
       (id entry = Some i -> feedback entry' = Some f) /\
       (id entry <> Some i -> entry' = entry)) /\
  ((forall entry, entry ∈ prev -> id entry <> Some i) -> next = prev).
Proof.
  cbn. split; [| split].
  - unfold feedbackReducer. by rewrite length_fmap.
  - intros k entry Hk. rewrite feedbackReducer_lookup, Hk. cbn.
    eexists. split; [reflexivity |].
    case_bool_decide; cbn; repeat split; auto; congruence.
  - intros Hno. unfold feedbackReducer.
    induction (transcripts st) as [|e l IH]; [done |].
    cbn. rewrite IH by (intros x Hx; apply Hno; by right).
    rewrite bool_decide_eq_false_2; [done |]. apply Hno. by left.
Qed.

(** ** C7: the chat request and the sources of the answer *)

Lemma pushReview_spec (fb : string) (snippets : list ReviewSnippet)
    (sources : list GroundingSource) :
  foldl (pushReview fb) sources snippets = sources ++ omap (reviewSource fb) snippets.
Proof.
  revert sources. induction snippets as [|sn l IH]; intros sources; cbn.
  - by rewrite app_nil_r.
  - rewrite IH. unfold pushReview, reviewSource.
    destruct (review sn) as [| | |[u|] t]; cbn; try done.
    by rewrite <- app_assoc.
Qed.

Lemma pushChunk_spec (fb : string) (sources : list GroundingSource) (chunk : GroundingChunk) :
  pushChunk fb sources chunk = sources ++ sourcesOfChunk fb chunk.
Proof.
  unfold pushChunk, sourcesOfChunk, snippetsOf.
  destruct (web chunk) as [w|]; [done |].
  destruct (maps chunk) as [m|]; [| by rewrite app_nil_r].
  destruct (placeAnswerSources m) as [pas|]; cbn; [| done].
  destruct (reviewSnippets pas) as [sns|]; cbn; [| done].
  rewrite pushReview_spec. by rewrite <- app_assoc.
Qed.

Lemma foldl_pushChunk (fb : string) (chunks : list GroundingChunk)
    (sources : list GroundingSource) :
  foldl (pushChunk fb) sources chunks = sources ++ mjoin (sourcesOfChunk fb <$> chunks).
Proof.
  revert sources. induction chunks as [|c l IH]; intros sources; cbn.
  - by rewrite app_nil_r.
  - rewrite IH, pushChunk_spec. by rewrite <- app_assoc.
Qed.

(** The loop of the source computes the sources that the wording in terms
    of web chunks, maps chunks and review snippets describes. *)
Lemma extractSources_spec (fb : string) (md : option GroundingMetadata) :
  extractSources fb md = mjoin (sourcesOfChunk fb <$> chunksOf md).
Proof.
  unfold extractSources, chunksOf.
  destruct md as [md|]; cbn; [| done].
  destruct (groundingChunks md) as [chunks|]; cbn; [| done].
  by rewrite foldl_pushChunk.
Qed.

(** C7.  The contents sent by [sendChatMessage] have one element more than
    the history; the i-th element carries the text of the i-th history
    entry, with role 'user' when its speaker is 'user' and 'model'
    otherwise; the last element is the prompt with role 'user'.  The
    function returns the text of the response, and the sources of the
    grounding chunks of the first candidate: a 'search' source for a web
    chunk, a 'maps' source for a maps chunk, and a 'review' source for each
    review snippet whose review is an object with a uri. *)
Theorem sendChatMessage_request_and_sources
    (promptTemplate : TraitLevel -> TraitLevel -> TraitLevel -> string)
    (generateContent : GenerateContentParameters -> GenerateContentResponse)
    (prompt : string) (history : list TranscriptEntry)
    (settings : PersonalitySettings) (location : option UserLocation) :
  let request := chatRequest promptTemplate prompt history settings location in
  let response := generateContent request in
  length (contents request) = (length history + 1)%nat /\
  (forall i entry, history !! i = Some entry ->
     contents request !! i =
       Some {| role := match speaker entry with user => "user" | mary => "model" end;
               parts := [text entry] |}) /\
  last (contents request) = Some {| role := "user"; parts := [prompt] |} /\
  sendChatMessage promptTemplate generateContent prompt history settings location =
    (response_text response,
     mjoin (sourcesOfChunk "Leer reseña" <$> chunksOf (firstCandidateMetadata response))).
Proof.
  cbn. repeat split.
  - rewrite length_app. unfold mapHistoryToGenAI. by rewrite length_fmap.
  - intros i entry Hi. unfold mapHistoryToGenAI.
    rewrite lookup_app_l by (rewrite length_fmap; by eapply lookup_lt_Some).
    rewrite list_lookup_fmap, Hi. cbn. by destruct (speaker entry).
  - by rewrite last_snoc.
  - unfold sendChatMessage. by rewrite extractSources_spec.
Qed.

(** ** C8: PCM encoding *)

Lemma pcmLoop_lookup (data : list number) (n k : nat) (int16 : list Z) (i : nat) :
  length int16 = length data ->
  foldl (fun int16 j =>
           match data !! j with
           | Some x => <[j := ToInt16 (clampedSample x)]> int16
           | None => int16
           end) int16 (seq k n) !! i =
  if bool_decide (k <= i < k + n)%nat
  then (fun x => ToInt16 (clampedSample x)) <$> data !! i
  else int16 !! i.
Proof.
  revert k int16. induction n as [|n IH]; intros k int16 Hlen; cbn.
  - rewrite bool_decide_eq_false_2 by lia. done.
  - destruct (data !! k) as [x|] eqn:Hk.
    + rewrite IH by (by rewrite length_insert).
      destruct (decide (i = k)) as [->|Hne].
      * rewrite bool_decide_eq_false_2 by lia.
        rewrite bool_decide_eq_true_2 by lia.
        rewrite list_lookup_insert_eq, Hk; [done |].
        rewrite Hlen. by eapply lookup_lt_Some.
      * rewrite list_lookup_insert_ne by done.
        repeat case_bool_decide; try done; lia.
    + rewrite IH by done.
      apply lookup_ge_None in Hk.
      repeat case_bool_decide; try done; try lia.
      * assert (i = k) as -> by lia.
        rewrite !(proj2 (lookup_ge_None _ _)); [done | lia | lia].
Qed.

Lemma pcmLoop_length (data : list number) (l : nat) (int16 : list Z) :
  length (pcmLoop data l int16) = length int16.
Proof.
  unfold pcmLoop. generalize (seq 0 l). intros js. revert int16.
  induction js as [|j js IH]; intros int16; cbn; [done |].
  rewrite IH. destruct (data !! j); [apply length_insert | done].
Qed.

Lemma pcmSamples_length (data : list number) : length (pcmSamples data) = length data.
Proof. unfold pcmSamples. by rewrite pcmLoop_length, length_replicate. Qed.

Lemma pcmSamples_lookup (data : list number) (i : nat) :
  pcmSamples data !! i = (fun x => ToInt16 (clampedSample x)) <$> data !! i.
Proof.
  unfold pcmSamples, pcmLoop.
  rewrite pcmLoop_lookup by (by rewrite length_replicate).
  case_bool_decide as Hi; [done |].
  rewrite !(proj2 (lookup_ge_None _ _)); [done | lia |].
  rewrite length_replicate. lia.
Qed.

Lemma clampedSample_Fin (q : Q) : clampedSample (Fin q) = Fin (clampQ q).
Proof.
  unfold clampedSample, clampQ, of_Z, num_mul, Math_min, Math_max, num_ltb,
    Qmax, Qmin, GenericMinMax.gmax, GenericMinMax.gmin.
  set (p := (q * inject_Z 32768)%Q).
  rewrite <- (Qcompare_antisym (inject_Z 32767) p).
  destruct (inject_Z 32767 ?= p)%Q; cbn;
    destruct (inject_Z (-32768) ?= _)%Q; reflexivity.
Qed.

Lemma clampQ_range (q : Q) : (inject_Z (-32768) <= clampQ q <= inject_Z 32767)%Q.
Proof.
  unfold clampQ. split.
  - apply Q.le_max_l.
  - apply Q.max_lub; [done | apply Q.le_min_l].
Qed.

Lemma truncate_range (c : Q) :
  (inject_Z (-32768) <= c <= inject_Z 32767)%Q -> -32768 <= truncate c <= 32767.
Proof.
  destruct c as [n d]. unfold Qle, truncate. cbn. intros [Hlo Hhi].
  destruct (Z_lt_le_dec n 0) as [Hn|Hn].
  - replace n with (- (- n)) by lia.
    rewrite Z.quot_opp_l by lia.
    rewrite Z.quot_div_nonneg by lia.
    assert (0 <= - n / Z.pos d) by (apply Z.div_pos; lia).
    assert (- n / Z.pos d <= 32768) by (apply Z.div_le_upper_bound; lia).
    lia.
  - rewrite Z.quot_div_nonneg by lia.
    assert (0 <= n / Z.pos d) by (apply Z.div_pos; lia).
    assert (n / Z.pos d <= 32767) by (apply Z.div_le_upper_bound; lia).
    lia.
Qed.

Lemma ToInt16_in_range (c : Q) :
  -32768 <= truncate c <= 32767 -> ToInt16 (Fin c) = truncate c.
Proof.
  intros H. unfold ToInt16. cbv zeta.
  destruct (Z_lt_le_dec (truncate c) 0) as [Hn|Hn].
  - replace (truncate c mod 65536) with (truncate c + 65536).
    + rewrite (proj2 (Z.leb_le _ _)) by lia. lia.
    + apply Z.mod_unique with (q := -1); lia.
  - rewrite Z.mod_small by lia.
    rewrite (proj2 (Z.leb_gt _ _)) by lia. done.
Qed.

Lemma stored_sample (x : number) : ToInt16 (clampedSample x) = storedSample x.
Proof.
  destruct x as [| |q|]; try reflexivity.
  rewrite clampedSample_Fin. cbn.
  apply ToInt16_in_range, truncate_range, clampQ_range.
Qed.

Lemma storedSample_range (x : number) : -32768 <= storedSample x <= 32767.
Proof.
  destruct x as [| |q|]; cbn; try lia.
  apply truncate_range, clampQ_range.
Qed.

Lemma int16Bytes_length (int16 : list Z) :
  length (int16Bytes int16) = (2 * length int16)%nat.
Proof.
  unfold int16Bytes. induction int16 as [|s l IH]; cbn; [done |].
  cbn in IH. rewrite IH. lia.
Qed.

(** C8, as amended.  [createPcmBlob] produces one 16-bit sample per input
    sample; each output sample is the input sample times 32768, clamped to
    the interval from -32768 to 32767 and then truncated toward zero to an
    integer (0 for a NaN sample), so it lies in that interval; the blob
    carries the encoding of these samples, two bytes each, and its mimeType
    is 'audio/pcm;rate=' followed by the sample rate. *)
Theorem createPcmBlob_samples
    (encode : list Z -> string) (Number_toString : number -> string)
    (samples : list number) (sampleRate : number) :
  length (pcmSamples samples) = length samples /\
  (forall i x, samples !! i = Some x ->
     pcmSamples samples !! i = Some (storedSample x) /\
     -32768 <= storedSample x <= 32767) /\
  data (createPcmBlob encode Number_toString samples sampleRate) =
    encode (int16Bytes (pcmSamples samples)) /\
  length (int16Bytes (pcmSamples samples)) = (2 * length samples)%nat /\
  mimeType (createPcmBlob encode Number_toString samples sampleRate) =
    "audio/pcm;rate=" +:+ Number_toString sampleRate.
Proof.
  repeat split.
  - apply pcmSamples_length.
  - rewrite pcmSamples_lookup, H. cbn [fmap option_fmap option_map]. by rewrite stored_sample.
  - apply storedSample_range.
  - apply storedSample_range.
  - by rewrite int16Bytes_length, pcmSamples_length.
Qed.

(** C8, as stated, fails for the one-sample input 2^-16: the sample times
    32768 is 1/2, which lies inside the interval, so the clamped value is
    1/2, while the sample that is stored is 0. *)
Lemma createPcmBlob_truncates :
  pcmSamples [Fin (1 # 65536)] = [0] /\
  num_eqb (clampedSample (Fin (1 # 65536))) (Fin (1 # 2)) = true /\
  num_eqb (clampedSample (Fin (1 # 65536))) (of_Z 0) = false.
Proof. repeat split; vm_compute; reflexivity. Qed.

(** ** The audio part of the state under the handler *)

Section Playback.

Variable num_add : number -> number -> number.
Variable bufferDuration : string -> number.

Local Abbreviation handle := (handleServerMessage num_add bufferDuration).
Local Abbreviation runMs := (runMessages num_add bufferDuration).

Lemma audioView_fields (s s' : Hook) :
  audioView s = audioView s' ->
  nextAudioStartTimeRef s = nextAudioStartTimeRef s' /\ started s = started s' /\
  audioSourcesRef s = audioSourcesRef s' /\ stopped s = stopped s' /\
  createdSources s = createdSources s' /\
  outputAudioContextRef s = outputAudioContextRef s'.
Proof. unfold audioView. by intros [= ? ? ? ? ? ?]. Qed.

Lemma render_audioView q st : audioView (render q st) = audioView st.
Proof. done. Qed.

Lemma inputIf_audioView env sc st :
  audioView (inputIf env sc st).1 = audioView st.
Proof.
  unfold inputIf. destruct (sc ≫= inputTranscription); [| done].
  unfold queueInputDelta. by destruct (negb _).
Qed.

Lemma outputIf_audioView env sc st :
  audioView (outputIf env sc st).1 = audioView st.
Proof.
  unfold outputIf. destruct (sc ≫= outputTranscription); [| done].
  unfold queueOutputDelta. by destruct (negb _).
Qed.

Lemma turnCompleteIf_audioView sc st :
  audioView (turnCompleteIf sc st).1 = audioView st.
Proof.
  unfold turnCompleteIf. destruct sc as [c|]; [| done].
  by destruct (turnComplete c).
Qed.

Lemma handle_audioView env m st :
  audioView (handle env m st) =
  audioView (interruptedStep (serverContent m)
               (audioStep num_add bufferDuration env (serverContent m) st)).
Proof.
  unfold handleServerMessage. cbv zeta.
  by rewrite render_audioView, turnCompleteIf_audioView, outputIf_audioView,
    inputIf_audioView.
Qed.

Lemma audioStep_chunk env m st a :
  chunkOf m = Some a -> outputAudioContextRef st = true ->
  audioStep num_add bufferDuration env (serverContent m) st =
  playChunk num_add bufferDuration env a st.
Proof.
  unfold chunkOf, audioStep. intros Hc Hctx.
  destruct (serverContent m ≫= audioData) as [b|]; [| done].
  destruct (truthy_string b) eqn:Hb; [| done].
  injection Hc as ->. by rewrite Hctx.
Qed.

Lemma audioStep_no_chunk env m st :
  chunkOf m = None ->
  audioStep num_add bufferDuration env (serverContent m) st = st.
Proof.
  unfold chunkOf, audioStep. intros Hc.
  destruct (serverContent m ≫= audioData) as [b|]; [| done].
  by destruct (truthy_string b).
Qed.

Lemma interruptedStep_not m st :
  isInterrupted m = false -> interruptedStep (serverContent m) st = st.
Proof.
  unfold isInterrupted, interruptedStep.
  destruct (serverContent m) as [c|]; [| done]. by intros ->.
Qed.

Lemma interruptedStep_yes m st :
  isInterrupted m = true -> interruptedStep (serverContent m) st = stopPlayback st.
Proof.
  unfold isInterrupted, interruptedStep.
  destruct (serverContent m) as [c|]; [| done]. by intros ->.
Qed.

(** One chunk, not interrupted: what the handler does to the queue. *)
Lemma handle_chunk env m st a :
  chunkOf m = Some a -> isInterrupted m = false ->
  outputAudioContextRef st = true ->
  let t := Math_max (nextAudioStartTimeRef st) (currentTime env) in
  started (handle env m st) =
    started st ++ [ {| source := createdSources st; startTime := t;
                       duration := bufferDuration a |} ] /\
  nextAudioStartTimeRef (handle env m st) = num_add t (bufferDuration a) /\
  audioSourcesRef (handle env m st) = audioSourcesRef st ∪ {[ createdSources st ]} /\
  outputAudioContextRef (handle env m st) = true.
Proof.
  intros Hc Hi Hctx t.
  destruct (audioView_fields _ _ (handle_audioView env m st))
    as (H1 & H2 & H3 & _ & _ & H6).
  rewrite (audioStep_chunk _ _ _ _ Hc Hctx), (interruptedStep_not _ _ Hi)
    in H1, H2, H3, H6.
  rewrite H1, H2, H3, H6. done.
Qed.

Lemma handle_outputAudioContextRef env m st :
  outputAudioContextRef (handle env m st) = outputAudioContextRef st.
Proof.
  destruct (audioView_fields _ _ (handle_audioView env m st))
    as (_ & _ & _ & _ & _ & ->).
  unfold interruptedStep, audioStep.
  destruct (serverContent m) as [c|]; cbn; [| done].
  destruct (audioData c) as [a|]; cbn.
  - destruct (truthy_string a && outputAudioContextRef st);
      by destruct (interrupted c).
  - by destruct (interrupted c).
Qed.

Lemma runMessages_snoc st ms em :
  runMs st (ms ++ [em]) = handle em.1 em.2 (runMs st ms).
Proof. unfold runMessages. by rewrite foldl_snoc. Qed.

Lemma runMessages_outputAudioContextRef st ms :
  outputAudioContextRef (runMs st ms) = outputAudioContextRef st.
Proof.
  induction ms as [|em ms IH] using rev_ind; [done |].
  by rewrite runMessages_snoc, handle_outputAudioContextRef.
Qed.

End Playback.

(** ** C1: gap-free scheduling *)

Section GapFree.

Variable num_add : number -> number -> number.
Variable bufferDuration : string -> number.

Local Abbreviation handle := (handleServerMessage num_add bufferDuration).
Local Abbreviation runMs := (runMessages num_add bufferDuration).

Lemma chunksOnly_snoc ms em :
  chunksOnly (ms ++ [em]) ->
  chunksOnly ms /\ is_Some (chunkOf em.2) /\ isInterrupted em.2 = false.
Proof.
  intros H. split.
  - intros i x Hi. apply (H i). by apply lookup_app_l_Some.
  - apply (H (length ms)). by rewrite list_lookup_middle.
Qed.

Lemma scheduledBy_exists st ms :
  outputAudioContextRef st = true -> chunksOnly ms ->
  exists new, scheduledBy num_add bufferDuration st ms new.
Proof.
  intros Hctx. induction ms as [|em ms IH] using rev_ind; intros Hall.
  - exists []. split; [by rewrite app_nil_r | split; [done |]]. intros i em s Hi. done.
  - apply chunksOnly_snoc in Hall as (Hms & [a Ha] & Hni).
    destruct (IH Hms) as (new & Hst & Hlen & Hidx).
    assert (outputAudioContextRef (runMs st ms) = true) as Hctx'
      by (by rewrite runMessages_outputAudioContextRef).
    destruct (handle_chunk num_add bufferDuration em.1 em.2 _ a Ha Hni Hctx')
      as (Hs & Hn & _ & _).
    eexists (new ++ [_]). split; [| split].
    + rewrite runMessages_snoc, Hs, Hst, <- app_assoc. reflexivity.
    + rewrite !length_app. cbn. lia.
    + intros i x s Hi Hs'.
      destruct (decide (i < length ms)%nat) as [Hlt|Hge].
      * rewrite lookup_app_l in Hi by done.
        rewrite lookup_app_l in Hs' by lia.
        rewrite take_app_le by lia.
        rewrite (take_app_le ms [em] (S i)) by lia.
        by apply Hidx.
      * assert (i = length ms) as ->.
        { apply lookup_lt_Some in Hi. rewrite length_app in Hi. cbn in Hi. lia. }
        rewrite list_lookup_middle in Hi by done. injection Hi as <-.
        rewrite <- Hlen in Hs'. rewrite list_lookup_middle in Hs' by done.
        injection Hs' as <-. cbn [startTime duration].
        rewrite take_app_le by lia. rewrite firstn_all.
        rewrite take_ge by (rewrite length_app; cbn; lia).
        rewrite runMessages_snoc, Ha. done.
Qed.

(** C1.  Each chunk is started at the maximum of the accumulated start time
    and the clock of the audio context, and the accumulated time then
    advances by the duration of the chunk; so in a run of chunks during
    which the accumulated time stays at or above the clock, every chunk is
    started at the start time of the chunk before it plus the duration of
    that chunk. *)
Theorem playback_gap_free (st : Hook) (ms : list (Env * LiveServerMessage)) :
  outputAudioContextRef st = true ->
  chunksOnly ms ->
  staysAhead num_add bufferDuration st ms ->
  exists new,
    scheduledBy num_add bufferDuration st ms new /\
    forall i a b, new !! i = Some a -> new !! S i = Some b ->
      startTime b = num_add (startTime a) (duration a).
Proof.
  intros Hctx Hall Hahead.
  destruct (scheduledBy_exists st ms Hctx Hall) as (new & Hnew).
  exists new. split; [done |].
  destruct Hnew as (_ & Hlen & Hidx).
  intros i a b Ha Hb.
  assert (is_Some (ms !! i)) as [ea Hea].
  { apply lookup_lt_is_Some. rewrite <- Hlen. by eapply lookup_lt_Some. }
  assert (is_Some (ms !! S i)) as [eb Heb].
  { apply lookup_lt_is_Some. rewrite <- Hlen. by eapply lookup_lt_Some. }
  destruct (Hidx i ea a Hea Ha) as (_ & _ & Hafter).
  destruct (Hidx (S i) eb b Heb Hb) as (Hstart & _ & _).
  rewrite Hstart, <- Hafter.
  apply Math_max_ge. apply (Hahead (S i) eb); [lia | done].
Qed.

End GapFree.

(** Three chunks of half a second that arrive faster than they play: the
    second and the third start where the one before ends. *)
Lemma playback_gap_free_witness :
  let ms := [ ({| currentTime := Fin 10; dateNowUser := 0; dateNowMary := 0 |},
               audioMessage "AAAA");
              ({| currentTime := Fin (101 # 10); dateNowUser := 0; dateNowMary := 0 |},
               audioMessage "BBBB");
              ({| currentTime := Fin (102 # 10); dateNowUser := 0; dateNowMary := 0 |},
               audioMessage "CCCC") ] in
  let half := fun _ : string => Fin (1 # 2) in
  exists new,
    scheduledBy exact_add half connectedHook ms new /\
    forall i a b, new !! i = Some a -> new !! S i = Some b ->
      startTime b = exact_add (startTime a) (duration a).
Proof.
  intros ms half.
  apply (playback_gap_free exact_add half connectedHook ms).
  - reflexivity.
  - intros [|[|[|i]]] em Hi; try done; injection Hi as <-; split; by eauto.
  - intros [|[|[|i]]] em Hpos Hi; try done; try lia; injection Hi as <-; by vm_compute.
Defined.

(** ** C4: interruption *)

Section Interruption.

Variable num_add : number -> number -> number.
Variable bufferDuration : string -> number.

Local Abbreviation handle := (handleServerMessage num_add bufferDuration).
Local Abbreviation runMs := (runMessages num_add bufferDuration).

Lemma audioStep_keeps_sources env sc st :
  audioSourcesRef st ⊆ audioSourcesRef (audioStep num_add bufferDuration env sc st).
Proof.
  unfold audioStep. destruct (sc ≫= audioData) as [a|]; [| done].
  destruct (truthy_string a && outputAudioContextRef st); [| done].
  cbn. set_solver.
Qed.

Lemma handle_interrupted env m st :
  isInterrupted m = true ->
  audioSourcesRef (handle env m st) = ∅ /\
  nextAudioStartTimeRef (handle env m st) = of_Z 0 /\
  audioSourcesRef (audioStep num_add bufferDuration env (serverContent m) st)
    ⊆ stopped (handle env m st).
Proof.
  intros Hi.
  destruct (audioView_fields _ _ (handle_audioView num_add bufferDuration env m st))
    as (H1 & _ & H3 & H4 & _ & _).
  rewrite H1, H3, H4, (interruptedStep_yes _ _ Hi). clear. cbn. repeat split. set_solver.
Qed.

(** A message without a chunk leaves an accumulated time of 0 at 0. *)
Lemma handle_no_chunk_zero env m st :
  chunkOf m = None -> nextAudioStartTimeRef st = of_Z 0 ->
  nextAudioStartTimeRef (handle env m st) = of_Z 0.
Proof.
  intros Hc Hz.
  destruct (audioView_fields _ _ (handle_audioView num_add bufferDuration env m st))
    as (H1 & _).
  rewrite (audioStep_no_chunk _ _ _ _ _ Hc) in H1. rewrite H1.
  unfold interruptedStep. destruct (serverContent m) as [c|]; [| done].
  by destruct (interrupted c).
Qed.

Lemma runMessages_no_chunk_zero st ms :
  (forall i em, ms !! i = Some em -> chunkOf em.2 = None) ->
  nextAudioStartTimeRef st = of_Z 0 ->
  nextAudioStartTimeRef (runMs st ms) = of_Z 0.
Proof.
  induction ms as [|em ms IH] using rev_ind; intros Hno Hz; [done |].
  rewrite runMessages_snoc. apply handle_no_chunk_zero.
  - apply (Hno (length ms)). by rewrite list_lookup_middle.
  - apply IH; [| done]. intros i x Hi. apply (Hno i). by apply lookup_app_l_Some.
Qed.

(** A chunk, interrupted in the same message or not, adds one call of
    [source.start]. *)
Lemma handle_chunk_started env m st a :
  chunkOf m = Some a -> outputAudioContextRef st = true ->
  started (handle env m st) =
    started st ++ [ {| source := createdSources st;
                       startTime := Math_max (nextAudioStartTimeRef st) (currentTime env);
                       duration := bufferDuration a |} ].
Proof.
  intros Hc Hctx.
  destruct (audioView_fields _ _ (handle_audioView num_add bufferDuration env m st))
    as (_ & H2 & _).
  rewrite (audioStep_chunk _ _ _ _ _ _ Hc Hctx) in H2. rewrite H2.
  unfold interruptedStep. destruct (serverContent m) as [c|]; [| done].
  by destruct (interrupted c).
Qed.

Lemma Math_max_zero (t : number) :
  num_leb (of_Z 0) t = true -> num_eqb (Math_max (of_Z 0) t) t = true.
Proof.
  destruct t as [| |q|]; try done.
  intros H%num_leb_Fin. unfold Math_max, of_Z.
  destruct (num_ltb (Fin (inject_Z 0)) (Fin q)) eqn:E; cbn.
  - apply Qeq_bool_iff. reflexivity.
  - apply num_ltb_false_Fin in E. apply Qeq_bool_iff. by apply Qle_antisym.
Qed.

(** C4.  A message that reports an interruption stops every source that is
    in the set of queued sources (the one of a chunk in the same message
    included), empties the set and resets the accumulated start time to 0;
    so the first chunk that arrives afterwards, with the output context
    still there and its clock not negative, is started at the clock's
    current time. *)
Theorem interruption_restarts_playback (st : Hook)
    (env : Env) (m : LiveServerMessage) (ms : list (Env * LiveServerMessage))
    (env' : Env) (m' : LiveServerMessage) (a : string) :
  isInterrupted m = true ->
  (forall i em, ms !! i = Some em -> chunkOf em.2 = None) ->
  chunkOf m' = Some a ->
  outputAudioContextRef st = true ->
  num_leb (of_Z 0) (currentTime env') = true ->
  let st1 := handle env m st in
  let st2 := runMs st1 ms in
  let st3 := handle env' m' st2 in
  audioSourcesRef st ⊆ stopped st1 /\
  audioSourcesRef (audioStep num_add bufferDuration env (serverContent m) st)
    ⊆ stopped st1 /\
  audioSourcesRef st1 = ∅ /\
  nextAudioStartTimeRef st1 = of_Z 0 /\
  exists s, started st3 = started st2 ++ [s] /\
            num_eqb (startTime s) (currentTime env') = true.
Proof.
  intros Hi Hno Hc Hctx Hnonneg st1 st2 st3.
  destruct (handle_interrupted env m st Hi) as (Hempty & Hzero & Hstopped).
  split; [| split; [done | split; [done | split; [done |]]]].
  - etrans; [apply audioStep_keeps_sources | apply Hstopped].
  - eexists. split.
    + apply handle_chunk_started; [done |].
      unfold st2. rewrite runMessages_outputAudioContextRef.
      unfold st1. by rewrite handle_outputAudioContextRef.
    + cbn [startTime]. unfold st2.
      rewrite (runMessages_no_chunk_zero st1 ms Hno Hzero).
      by apply Math_max_zero.
Qed.

End Interruption.

(** Two chunks are queued well ahead of the clock, then the model is
    interrupted, a transcription delta arrives, and the next chunk starts
    at the clock's time 12. *)
Lemma interruption_restarts_playback_witness :
  let env (t : Z) :=
    {| currentTime := of_Z t; dateNowUser := 1000; dateNowMary := 1000 |} in
  let long := fun _ : string => of_Z 30 in
  let st := runMessages exact_add long connectedHook
              [ (env 10, audioMessage "AAAA"); (env 10, audioMessage "BBBB") ] in
  let delta :=
    {| serverContent :=
         Some {| audioData := None; interrupted := false;
                 inputTranscription := Some "hola"; outputTranscription := None;
                 turnComplete := false; groundingMetadata := None |} |} in
  let st1 := handleServerMessage exact_add long (env 11) interruptedMessage st in
  let st2 := runMessages exact_add long st1 [ (env 11, delta) ] in
  let st3 := handleServerMessage exact_add long (env 12) (audioMessage "CCCC") st2 in
  nextAudioStartTimeRef st = Fin (70 # 1) /\
  audioSourcesRef st ⊆ stopped st1 /\
  audioSourcesRef (audioStep exact_add long (env 11) (serverContent interruptedMessage) st)
    ⊆ stopped st1 /\
  audioSourcesRef st1 = ∅ /\
  nextAudioStartTimeRef st1 = of_Z 0 /\
  exists s, started st3 = started st2 ++ [s] /\
            num_eqb (startTime s) (currentTime (env 12)) = true.
Proof.
  intros env long st delta st1 st2 st3. split; [reflexivity |].
  apply (interruption_restarts_playback exact_add long st (env 11) interruptedMessage
           [ (env 11, delta) ] (env 12) (audioMessage "CCCC") "CCCC").
  - reflexivity.
  - intros [|i] em Hi; [injection Hi as <-; reflexivity | done].
  - reflexivity.
  - reflexivity.
  - reflexivity.
Defined.

(** ** The refs under the message handler *)

Section Refs.

Variable num_add : number -> number -> number.
Variable bufferDuration : string -> number.

Lemma audioStep_refsView env sc st :
  refsView (audioStep num_add bufferDuration env sc st) = refsView st.
Proof.
  unfold audioStep. destruct (sc ≫= audioData) as [a|]; [| done].
  by destruct (truthy_string a && outputAudioContextRef st).
Qed.

Lemma interruptedStep_refsView sc st : refsView (interruptedStep sc st) = refsView st.
Proof.
  unfold interruptedStep. destruct sc as [c|]; [| done]. by destruct (interrupted c).
Qed.

Lemma inputIf_refsView env sc st : refsView (inputIf env sc st).1 = refsView st.
Proof.
  unfold inputIf. destruct (sc ≫= inputTranscription); [| done].
  unfold queueInputDelta. by destruct (negb _).
Qed.

Lemma outputIf_refsView env sc st : refsView (outputIf env sc st).1 = refsView st.
Proof.
  unfold outputIf. destruct (sc ≫= outputTranscription); [| done].
  unfold queueOutputDelta. by destruct (negb _).
Qed.

Lemma turnCompleteIf_refsView sc st : refsView (turnCompleteIf sc st).1 = refsView st.
Proof.
  unfold turnCompleteIf. destruct sc as [c|]; [| done].
  by destruct (turnComplete c).
Qed.

Lemma handle_refsView env m st :
  refsView (handleServerMessage num_add bufferDuration env m st) = refsView st.
Proof.
  unfold handleServerMessage. cbv zeta.
  change (refsView (render ?q ?s)) with (refsView s).
  by rewrite turnCompleteIf_refsView, outputIf_refsView, inputIf_refsView,
    interruptedStep_refsView, audioStep_refsView.
Qed.

Lemma refsView_fields (s s' : Hook) :
  refsView s = refsView s' ->
  status s = status s' /\ sessionPromiseRef s = sessionPromiseRef s' /\
  liveConnects s = liveConnects s' /\ mediaStreamRef s = mediaStreamRef s' /\
  scriptProcessorRef s = scriptProcessorRef s' /\
  frameIntervalRef s = frameIntervalRef s' /\ compressorRef s = compressorRef s' /\
  inputAudioContextRef s = inputAudioContextRef s' /\
  micGainNodeRef s = micGainNodeRef s'.
Proof. unfold refsView. by intros [= ? ? ? ? ? ? ? ? ?]. Qed.

End Refs.

(** ** C6: no reconnection *)

Section Connection.

Variable num_add : number -> number -> number.
Variable bufferDuration : string -> number.

Local Abbreviation handle := (handleServerMessage num_add bufferDuration).
Local Abbreviation stepH := (step num_add bufferDuration).
Local Abbreviation runH := (run num_add bufferDuration).

Lemma cleanup_cleanedUp st : cleanedUp (cleanup st).
Proof.
  unfold cleanedUp, cleanup.
  destruct (truthy_id (frameIntervalRef _)) eqn:E; cbn; repeat split; done.
Qed.

Lemma cleanup_connection st :
  status (cleanup st) = status st /\ sessionPromiseRef (cleanup st) = None /\
  liveConnects (cleanup st) = liveConnects st.
Proof. unfold cleanup. by destruct (truthy_id (frameIntervalRef _)). Qed.

Lemma cleanup_stops st : audioSourcesRef st ⊆ stopped (cleanup st).
Proof.
  unfold cleanup. destruct (truthy_id (frameIntervalRef _)); cbn; set_solver.
Qed.

Lemma handle_connection env m st :
  status (handle env m st) = status st /\
  sessionPromiseRef (handle env m st) = sessionPromiseRef st /\
  liveConnects (handle env m st) = liveConnects st.
Proof.
  destruct (refsView_fields _ _ (handle_refsView num_add bufferDuration env m st))
    as (? & ? & ? & _).
  done.
Qed.

(** The guard of [connect]. *)
Lemma connect_guard outcome st :
  status st <> idle \/ sessionPromiseRef st <> None -> connect outcome st = st.
Proof.
  intros H. unfold connect.
  destruct H as [H|H]; repeat case_bool_decide; done.
Qed.

(** The [catch] of [connect]. *)
Lemma connect_throws outcome st :
  status st = idle -> sessionPromiseRef st = None -> connectThrows outcome ->
  exists st0, connect outcome st = cleanup st0 /\ status st0 = error.
Proof.
  intros Hs Hp Hthrows. unfold connect.
  rewrite bool_decide_eq_false_2 by (by intros []).
  rewrite bool_decide_eq_false_2 by (by intros []).
  destruct outcome; try done; cbn; eexists; (split; [reflexivity | done]).
Qed.

(** A status other than 'idle' is never left for 'idle', and while it lasts
    [ai.live.connect] is not called. *)
Lemma step_not_idle st ev :
  status st <> idle ->
  status (stepH st ev) <> idle /\ liveConnects (stepH st ev) = liveConnects st.
Proof.
  intros Hs. destruct ev as [outcome|interval|env m| | |src|i f|]; cbn [step].
  - by rewrite connect_guard by (by left).
  - unfold onopen. cbn. destruct (inputAudioContextRef st); [| done].
    by destruct interval.
  - by destruct (handle_connection env m st) as (-> & _ & ->).
  - unfold onerror. by destruct (cleanup_connection (set_status error st)) as (-> & _ & ->).
  - unfold onclose.
    by destruct (cleanup_connection (set_status disconnected st)) as (-> & _ & ->).
  - done.
  - done.
  - by destruct (cleanup_connection st) as (-> & _ & ->).
Qed.

Lemma run_not_idle st evs :
  status st <> idle ->
  status (runH st evs) <> idle /\ liveConnects (runH st evs) = liveConnects st.
Proof.
  intros Hs. induction evs as [|ev evs IH] using rev_ind; [done |].
  unfold run in *. rewrite foldl_snoc.
  destruct IH as [IH1 IH2].
  destruct (step_not_idle (foldl stepH st evs) ev IH1) as [H1 H2].
  split; [done | congruence].
Qed.

(** C6.  [connect] returns the state as it is when the status is not 'idle'
    or a session reference exists.  When its [try] block throws, and when
    the session reports an error, the status becomes 'error' and [cleanup]
    runs; when the session is closed the status becomes 'disconnected' and
    [cleanup] runs.  After that, whatever happens to the hook, the status
    does not return to 'idle', every call of [connect] returns the state as
    it is, and [ai.live.connect] is not called again. *)
Theorem no_reconnection (st : Hook) :
  (forall outcome,
     status st <> idle \/ sessionPromiseRef st <> None -> connect outcome st = st) /\
  (forall outcome,
     status st = idle -> sessionPromiseRef st = None -> connectThrows outcome ->
     status (connect outcome st) = error /\ cleanedUp (connect outcome st) /\
     exists st0, connect outcome st = cleanup st0) /\
  (status (onerror st) = error /\ cleanedUp (onerror st) /\
   onerror st = cleanup (set_status error st)) /\
  (status (onclose st) = disconnected /\ cleanedUp (onclose st) /\
   onclose st = cleanup (set_status disconnected st)) /\
  (forall evs outcome,
     status st = error \/ status st = disconnected ->
     let st' := runH st evs in
     status st' <> idle /\
     connect outcome st' = st' /\
     liveConnects st' = liveConnects st).
Proof.
  split; [| split; [| split; [| split]]].
  - intros outcome. apply connect_guard.
  - intros outcome Hs Hp Hthrows.
    destruct (connect_throws outcome st Hs Hp Hthrows) as (st0 & -> & Hst0).
    destruct (cleanup_connection st0) as (Hv & _ & _).
    split; [congruence | split; [apply cleanup_cleanedUp | by eexists]].
  - unfold onerror. destruct (cleanup_connection (set_status error st)) as (Hv & _ & _).
    split; [done | split; [apply cleanup_cleanedUp | done]].
  - unfold onclose.
    destruct (cleanup_connection (set_status disconnected st)) as (Hv & _ & _).
    split; [done | split; [apply cleanup_cleanedUp | done]].
  - intros evs outcome Hs st'.
    assert (status st <> idle) as Hni by (destruct Hs as [-> | ->]; done).
    destruct (run_not_idle st evs Hni) as [H1 H2].
    split; [done | split; [| done]].
    apply connect_guard. by left.
Qed.

End Connection.

(** A session that is closed by the server, then a call of [connect] that
    would otherwise have succeeded: nothing happens. *)
Example no_reconnection_after_close :
  let st := run exact_add (fun _ => of_Z 1) initial
              [ CallConnect (SessionPromise 1); OnOpen (Some 7); OnClose ] in
  status st = disconnected /\ sessionPromiseRef st = None /\
  liveConnects st = 1%nat /\
  connect (SessionPromise 2) st = st.
Proof. vm_compute. repeat split. Qed.

(** ** C5: the reducers of the transcription deltas *)

(** A delta block rendered on its own, written out. *)
Lemma inputDelta_eq (env : Env) (delta : string) (st : Hook) :
  inputDelta env delta st =
  let st := set_currentInputTranscriptionRef
              (currentInputTranscriptionRef st +:+ delta) st in
  if negb (truthy_id (currentUserTranscriptIdRef st)) then
    let st := set_currentUserTranscriptIdRef (Some (dateNowUser env)) st in
    set_transcripts
      (appendEntry (Some (dateNowUser env)) user (currentInputTranscriptionRef st)
         (transcripts st)) st
  else
    set_transcripts
      (replaceText (currentUserTranscriptIdRef st)
         (currentInputTranscriptionRef st) (transcripts st)) st.
Proof.
  unfold inputDelta, queueInputDelta, render. cbn.
  by destruct (negb (truthy_id (currentUserTranscriptIdRef st))).
Qed.

Lemma outputDelta_eq (env : Env) (delta : string) (st : Hook) :
  outputDelta env delta st =
  let st := set_currentOutputTranscriptionRef
              (currentOutputTranscriptionRef st +:+ delta) st in
  if negb (truthy_id (currentMaryTranscriptIdRef st)) then
    let st := set_currentMaryTranscriptIdRef (Some (dateNowMary env)) st in
    set_transcripts
      (appendEntry (Some (dateNowMary env)) mary (currentOutputTranscriptionRef st)
         (transcripts st)) st
  else
    set_transcripts
      (replaceText (currentMaryTranscriptIdRef st)
         (currentOutputTranscriptionRef st) (transcripts st)) st.
Proof.
  unfold outputDelta, queueOutputDelta, render. cbn.
  by destruct (negb (truthy_id (currentMaryTranscriptIdRef st))).
Qed.

Lemma replaceText_lookup (r : option Z) (s : string) (prev : list TranscriptEntry) (k : nat) :
  replaceText r s prev !! k =
  (fun t => if id_is r t then with_text s t else t) <$> prev !! k.
Proof. unfold replaceText. apply list_lookup_fmap. Qed.

(** The reducer of the replace case, on any list. *)
Lemma replaceText_frame (r : option Z) (s : string) (prev : list TranscriptEntry) :
  textReplaced r s prev (replaceText r s prev).
Proof.
  split; [| split].
  - unfold replaceText. by rewrite length_fmap.
  - intros k t Hk. rewrite replaceText_lookup, Hk. cbn.
    eexists. split; [reflexivity |].
    unfold id_is. case_bool_decide; cbn; repeat split; auto; congruence.
  - intros Hnd j k tj tk Hj Hk Hrj Hrk.
    eapply NoDup_lookup; [exact Hnd | |].
    + rewrite list_lookup_fmap, Hj. reflexivity.
    + rewrite list_lookup_fmap, Hk. cbn. congruence.
Qed.

(** X14.  What a transcription delta does to the list, whatever the ids: it
    either appends exactly one new entry at the end (when the id ref of its
    speaker is null or 0), or maps over the list and replaces the text of
    the entries whose id is the one in the ref, leaving the length of the
    list, the order, every other field of those entries and every entry
    with another id unchanged; when the ids of the list are pairwise
    distinct, at most one entry has that id. *)
Lemma delta_update_frame (env : Env) (delta : string) (st : Hook) :
  let prev := transcripts st in
  (truthy_id (currentUserTranscriptIdRef st) = false ->
   transcripts (inputDelta env delta st) =
     prev ++ [ freshEntry (dateNowUser env) user
                 (currentInputTranscriptionRef st +:+ delta) ]) /\
  (truthy_id (currentUserTranscriptIdRef st) = true ->
   textReplaced (currentUserTranscriptIdRef st)
     (currentInputTranscriptionRef st +:+ delta)
     prev (transcripts (inputDelta env delta st))) /\
  (truthy_id (currentMaryTranscriptIdRef st) = false ->
   transcripts (outputDelta env delta st) =
     prev ++ [ freshEntry (dateNowMary env) mary
                 (currentOutputTranscriptionRef st +:+ delta) ]) /\
  (truthy_id (currentMaryTranscriptIdRef st) = true ->
   textReplaced (currentMaryTranscriptIdRef st)
     (currentOutputTranscriptionRef st +:+ delta)
     prev (transcripts (outputDelta env delta st))).
Proof.
  cbv zeta. rewrite inputDelta_eq, outputDelta_eq. cbn.
  split; [| split; [| split]]; intros H; rewrite H; cbn; try done;
    apply replaceText_frame.
Qed.

(** C5 at a failing input.  The entries of the user and of the model were
    created in the same millisecond, so both have the id that is in the
    ref, and the next delta of the user replaces the text of both: the
    update touches a second entry, that of the model. *)
Theorem delta_rewrites_two_entries :
  let run := runMessages exact_add (fun _ => of_Z 1) in
  let st := run initial [ (atTime 1000, inputMessage "hola");
                          (atTime 1000, outputMessage "adios") ] in
  let st' := run st [ (atTime 1001, inputMessage " que tal") ] in
  transcripts st = [ freshEntry 1000 user "hola"; freshEntry 1000 mary "adios" ] /\
  transcripts st' =
    [ freshEntry 1000 user "hola que tal"; freshEntry 1000 mary "hola que tal" ].
Proof. split; reflexivity. Qed.

(** ** C3: the end of a turn *)

Section TurnComplete.

Variable num_add : number -> number -> number.
Variable bufferDuration : string -> number.

Local Abbreviation handle := (handleServerMessage num_add bufferDuration).

(** The transcript refs: what the updaters read. *)
Lemma playback_keeps_transcripts env sc st :
  let s := interruptedStep sc (audioStep num_add bufferDuration env sc st) in
  transcripts s = transcripts st /\
  currentInputTranscriptionRef s = currentInputTranscriptionRef st /\
  currentOutputTranscriptionRef s = currentOutputTranscriptionRef st /\
  currentUserTranscriptIdRef s = currentUserTranscriptIdRef st /\
  currentMaryTranscriptIdRef s = currentMaryTranscriptIdRef st.
Proof.
  unfold interruptedStep, audioStep.
  destruct sc as [c|]; cbn; [| done].
  destruct (audioData c) as [a|]; cbn.
  - destruct (truthy_string a && outputAudioContextRef st); by destruct (interrupted c).
  - by destruct (interrupted c).
Qed.

Lemma inputIf_transcripts env sc st :
  transcripts (inputIf env sc st).1 = transcripts st.
Proof.
  unfold inputIf. destruct (sc ≫= inputTranscription); [| done].
  unfold queueInputDelta. by destruct (negb _).
Qed.

Lemma outputIf_transcripts env sc st :
  transcripts (outputIf env sc st).1 = transcripts st.
Proof.
  unfold outputIf. destruct (sc ≫= outputTranscription); [| done].
  unfold queueOutputDelta. by destruct (negb _).
Qed.

Lemma turnCompleteIf_transcripts sc st :
  transcripts (turnCompleteIf sc st).1 = transcripts st.
Proof.
  unfold turnCompleteIf. destruct sc as [c|]; [| done].
  by destruct (turnComplete c).
Qed.

(** The handler, in terms of the list: the updaters that it handed over,
    run on the list as it was, with the refs as the handler left them. *)
Lemma handle_transcripts env m st :
  let sc := serverContent m in
  let st0 := interruptedStep sc (audioStep num_add bufferDuration env sc st) in
  let i := inputIf env sc st0 in
  let o := outputIf env sc i.1 in
  let t := turnCompleteIf sc o.1 in
  transcripts (handle env m st) =
  foldl (fun prev u => runUpdater t.1 u prev) (transcripts st) (i.2 ++ o.2 ++ t.2).
Proof.
  cbv zeta. unfold handleServerMessage, render. cbn [transcripts set_transcripts].
  rewrite turnCompleteIf_transcripts, outputIf_transcripts, inputIf_transcripts.
  by destruct (playback_keeps_transcripts env (serverContent m) st) as (-> & _).
Qed.

(** The refs when a handler that found [turnComplete] returns. *)
Lemma turnCompleteIf_resets sc st :
  (exists c, sc = Some c /\ turnComplete c = true) ->
  turnStart (turnCompleteIf sc st).1.
Proof. intros (c & -> & Hc). unfold turnCompleteIf. by rewrite Hc. Qed.

Lemma handle_resets env m st :
  isTurnComplete m = true -> turnStart (handle env m st).
Proof.
  intros Htc. unfold handleServerMessage. cbv zeta.
  set (o := outputIf _ _ _).
  assert (turnStart (turnCompleteIf (serverContent m) o.1).1) as H.
  { apply turnCompleteIf_resets. unfold isTurnComplete in Htc.
    destruct (serverContent m) as [c|]; [by exists c | done]. }
  exact H.
Qed.

(** With null in the refs, an updater touches no entry that has an id. *)
Lemma runUpdater_null (refs : Hook) (u : Updater) (prev : list TranscriptEntry)
    (k : nat) (t : TranscriptEntry) :
  currentUserTranscriptIdRef refs = None -> currentMaryTranscriptIdRef refs = None ->
  prev !! k = Some t -> id t <> None ->
  runUpdater refs u prev !! k = Some t.
Proof.
  intros Hu Hm Hk Hid.
  assert (id_is None t = false) as Hno
    by (unfold id_is; by rewrite bool_decide_eq_false_2).
  destruct u; cbn; rewrite ?Hu, ?Hm;
    unfold appendEntry, replaceText, finalizeUser, finalizeMary;
    try (by apply lookup_app_l_Some);
    by rewrite list_lookup_fmap, Hk; cbn; rewrite Hno.
Qed.

Lemma runUpdaters_null (refs : Hook) (q : list Updater) (prev : list TranscriptEntry)
    (k : nat) (t : TranscriptEntry) :
  currentUserTranscriptIdRef refs = None -> currentMaryTranscriptIdRef refs = None ->
  prev !! k = Some t -> id t <> None ->
  foldl (fun prev u => runUpdater refs u prev) prev q !! k = Some t.
Proof.
  intros Hu Hm. revert prev. induction q as [|u q IH]; intros prev Hk Hid; [done |].
  cbn. apply IH; [| done]. by apply runUpdater_null.
Qed.

(** X13.  The end of a turn marks no entry that has an id as final.  A
    message with [turnComplete] leaves every entry whose id is a number
    exactly as it was, whatever the refs held: the entries in progress keep
    their text, stay not final and get no sources.  It empties both
    accumulators and sets both refs to null, so the next delta of either
    speaker appends a new entry. *)
Theorem turn_complete_finalizes_nothing (env : Env) (m : LiveServerMessage) (st : Hook) :
  let s2 := handle env m st in
  isTurnComplete m = true ->
  (forall k t, transcripts st !! k = Some t -> id t <> None ->
     transcripts s2 !! k = Some t) /\
  currentInputTranscriptionRef s2 = "" /\
  currentOutputTranscriptionRef s2 = "" /\
  currentUserTranscriptIdRef s2 = None /\
  currentMaryTranscriptIdRef s2 = None /\
  (forall env' delta,
     transcripts (inputDelta env' delta s2) =
       transcripts s2 ++ [ freshEntry (dateNowUser env') user delta ]) /\
  (forall env' delta,
     transcripts (outputDelta env' delta s2) =
       transcripts s2 ++ [ freshEntry (dateNowMary env') mary delta ]).
Proof.
  intros s2 Htc.
  destruct (handle_resets env m st Htc) as (H1 & H2 & H3 & H4).
  split.
  { intros k t Hk Hid. unfold s2. rewrite handle_transcripts.
    unfold handleServerMessage in H3, H4. cbv zeta in H3, H4.
    by apply runUpdaters_null. }
  fold s2 in H1, H2, H3, H4. clearbody s2.
  repeat (split; [done |]).
  split; intros env' delta.
  - rewrite inputDelta_eq. cbn. rewrite H3. cbn. by rewrite H1.
  - rewrite outputDelta_eq. cbn. rewrite H4. cbn. by rewrite H2.
Qed.

End TurnComplete.

(** A turn whose two entries were created five milliseconds apart, and
    its end: both entries are as they were. *)
Example turn_complete_distinct_ids :
  let run := runMessages exact_add (fun _ => of_Z 1) in
  let st := run initial [ (atTime 1000, inputMessage "hola");
                          (atTime 1005, outputMessage "adios") ] in
  let s2 := handleServerMessage exact_add (fun _ => of_Z 1) (atTime 1010)
              (turnCompleteMessage oneWebChunk) st in
  transcripts s2 !! 0%nat = Some (freshEntry 1000 user "hola") /\
  transcripts s2 !! 1%nat = Some (freshEntry 1005 mary "adios") /\
  currentUserTranscriptIdRef s2 = None /\ currentMaryTranscriptIdRef s2 = None.
Proof.
  intros run st s2.
  destruct (turn_complete_finalizes_nothing exact_add (fun _ => of_Z 1) (atTime 1010)
              (turnCompleteMessage oneWebChunk) st)
    as (Hidx & _ & _ & Hu & Hm & _); [reflexivity |].
  split; [exact (Hidx 0%nat _ eq_refl ltac:(discriminate)) |].
  split; [exact (Hidx 1%nat _ eq_refl ltac:(discriminate)) |].
  split; [exact Hu | exact Hm].
Defined.

(** C3 at a failing input.  A turn with one delta of the user and one of
    the model, five milliseconds apart, and then its end with one web
    chunk.  The two updaters of the end of the turn are handed to React
    while the refs hold the ids 1000 and 1005, but they read the refs when
    React runs them, after lines 185-188 have set them to null.  No entry
    has the id null, so neither entry is marked as final, and the source
    that was extracted is attached to none. *)
Theorem turn_complete_marks_no_entry_final :
  let run := runMessages exact_add (fun _ => of_Z 1) in
  let st := run initial [ (atTime 1000, inputMessage "hola");
                          (atTime 1005, outputMessage "adios") ] in
  let s2 := handleServerMessage exact_add (fun _ => of_Z 1) (atTime 1010)
              (turnCompleteMessage oneWebChunk) st in
  currentUserTranscriptIdRef st = Some 1000 /\
  currentMaryTranscriptIdRef st = Some 1005 /\
  transcripts st = [ freshEntry 1000 user "hola"; freshEntry 1005 mary "adios" ] /\
  extractSources "Leer reseÃ±a" oneWebChunk =
    [ {| uri := Some "https://example.org"; title := Some "Example";
         type := src_search |} ] /\
  transcripts s2 = [ freshEntry 1000 user "hola"; freshEntry 1005 mary "adios" ] /\
  isFinal <$> transcripts s2 = [ false; false ] /\
  sources <$> transcripts s2 = [ None; None ] /\
  currentUserTranscriptIdRef s2 = None /\ currentMaryTranscriptIdRef s2 = None.
Proof. repeat split. Qed.

(** A delta and the end of the turn in one message.  The updater that
    appends the entry runs after the reset as well, so the entry gets the
    id null and the empty text; the updater of the end of the turn, which
    compares the ids with null, then marks it as final. *)
Example delta_and_turn_complete_in_one_message :
  let m :=
    {| serverContent :=
         Some {| audioData := None; interrupted := false;
                 inputTranscription := Some "hola"; outputTranscription := None;
                 turnComplete := true; groundingMetadata := None |} |} in
  transcripts (handleServerMessage exact_add (fun _ => of_Z 1) (atTime 1000) m initial) =
  [ {| speaker := user; text := ""; isFinal := true; id := None;
       feedback := None; sources := None |} ].
Proof. reflexivity. Qed.

(** React can also run the first updater that an idle component hands
    over at once, with the refs as they are at the call.  At the failing
    input of C3 that is the updater of line 178: the entry of the user is
    then marked as final, and the entry of the model, whose updater still
    runs after the reset, is not final and has no sources either way. *)
Example first_updater_at_once :
  let run := runMessages exact_add (fun _ => of_Z 1) in
  let st := run initial [ (atTime 1000, inputMessage "hola");
                          (atTime 1005, outputMessage "adios") ] in
  let s2 := handleServerMessage exact_add (fun _ => of_Z 1) (atTime 1010)
              (turnCompleteMessage oneWebChunk) st in
  runUpdater s2 (FinalizeMary (extractSources "Leer reseÃ±a" oneWebChunk))
    (runUpdater st FinalizeUser (transcripts st)) =
  [ with_text_final "hola" (freshEntry 1000 user "hola"); freshEntry 1005 mary "adios" ].
Proof. reflexivity. Qed.

(** ** C2: reconstruction of the transcript *)

(** C2 at a failing input.  The first delta of the user and the first delta
    of the model are handled in the same millisecond, so both entries get
    the id 1000; the second delta of the model then rewrites both.  The
    deltas of the user add up to "hola", and the text of the entry of the
    user is "adios amigo". *)
Theorem transcript_lost_on_equal_ids :
  let run := runMessages exact_add (fun _ => of_Z 1) in
  let st := run initial [ (atTime 1000, inputMessage "hola");
                          (atTime 1000, outputMessage "adios");
                          (atTime 1001, outputMessage " amigo") ] in
  currentInputTranscriptionRef st = "hola" /\
  currentUserTranscriptIdRef st = Some 1000 /\
  transcripts st =
    [ freshEntry 1000 user "adios amigo"; freshEntry 1000 mary "adios amigo" ].
Proof. repeat split. Qed.

(** *** What holds when the ids are distinct

    The defect above is the only obstacle: when every id taken from
    [Date.now()] is new, the text of the entry of each speaker is the
    concatenation of the deltas of that speaker. *)

Lemma append_nil_r (s : string) : s +:+ "" = s.
Proof.
  induction s as [|a s IH]; [done |].
  change (String a (s +:+ "") = String a s). by rewrite IH.
Qed.

Lemma append_assoc (s1 s2 s3 : string) : (s1 +:+ s2) +:+ s3 = s1 +:+ (s2 +:+ s3).
Proof.
  induction s1 as [|a s1 IH]; [done |].
  change (String a ((s1 +:+ s2) +:+ s3) = String a (s1 +:+ (s2 +:+ s3))).
  by rewrite IH.
Qed.

Lemma concatText_snoc (deltas : list string) (d : string) :
  concatText (deltas ++ [d]) = concatText deltas +:+ d.
Proof.
  unfold concatText. induction deltas as [|x l IH].
  - apply append_nil_r.
  - change (x +:+ foldr String.append "" (l ++ [d]) =
            (x +:+ foldr String.append "" l) +:+ d).
    by rewrite IH, append_assoc.
Qed.

Lemma located_append_new (l : list TranscriptEntry) (n : Z) (who : Speaker) (s : string) :
  (forall t, t ∈ l -> id t <> Some n) -> located n who s (l ++ [freshEntry n who s]).
Proof.
  intros Hfresh. exists (length l). split; [by rewrite list_lookup_middle |].
  intros j t Hj Hid.
  destruct (decide (j < length l)%nat) as [Hlt|Hge].
  - rewrite lookup_app_l in Hj by done.
    exfalso. eapply Hfresh; [| exact Hid]. by eapply list_elem_of_lookup_2.
  - apply lookup_lt_Some in Hj. rewrite length_app in Hj. cbn in Hj. lia.
Qed.

Lemma located_append_other (l : list TranscriptEntry) (u : Z) (who : Speaker)
    (acc : string) (e : TranscriptEntry) :
  located u who acc l -> id e <> Some u -> located u who acc (l ++ [e]).
Proof.
  intros (k & Hk & Huniq) Hne. exists k. split.
  - by apply lookup_app_l_Some.
  - intros j t Hj Hid.
    destruct (decide (j < length l)%nat) as [Hlt|Hge].
    + rewrite lookup_app_l in Hj by done. by eapply Huniq.
    + assert (j = length l) as ->.
      { apply lookup_lt_Some in Hj. rewrite length_app in Hj. cbn in Hj. lia. }
      rewrite list_lookup_middle in Hj by done. congruence.
Qed.

Lemma located_elem (l : list TranscriptEntry) (u : Z) (who : Speaker) (acc : string) :
  located u who acc l -> exists t, t ∈ l /\ id t = Some u /\ speaker t = who.
Proof.
  intros (k & Hk & _). eexists. split; [by eapply list_elem_of_lookup_2 | done].
Qed.

Lemma located_replace_own (l : list TranscriptEntry) (u : Z) (who : Speaker)
    (acc s : string) :
  located u who acc l -> located u who s (replaceText (Some u) s l).
Proof.
  intros (k & Hk & Huniq). exists k. split.
  - rewrite replaceText_lookup, Hk. cbn. unfold id_is. cbn.
    by rewrite bool_decide_eq_true_2.
  - intros j t. rewrite replaceText_lookup.
    destruct (l !! j) as [t0|] eqn:Hj; [| done]. cbn.
    intros [= <-] Hid. apply (Huniq j t0 Hj).
    by destruct (id_is (Some u) t0).
Qed.

Lemma located_replace_other (l : list TranscriptEntry) (u v : Z) (who : Speaker)
    (acc s : string) :
  located u who acc l -> u <> v -> located u who acc (replaceText (Some v) s l).
Proof.
  intros (k & Hk & Huniq) Hne. exists k. split.
  - rewrite replaceText_lookup, Hk. cbn. unfold id_is. cbn.
    rewrite bool_decide_eq_false_2; [done | congruence].
  - intros j t. rewrite replaceText_lookup.
    destruct (l !! j) as [t0|] eqn:Hj; [| done]. cbn.
    intros [= <-] Hid. apply (Huniq j t0 Hj).
    by destruct (id_is (Some v) t0).
Qed.

Lemma located_speakers (l : list TranscriptEntry) (u v : Z) (a b : string) :
  located u user a l -> located v mary b l -> u <> v.
Proof.
  intros (k & Hk & Huniq) (k' & Hk' & _) ->.
  assert (k' = k) as -> by (by eapply Huniq).
  rewrite Hk in Hk'. discriminate.
Qed.

Lemma reconstructed_snoc (r : option Z) (who : Speaker) (deltas : list string)
    (d : string) (l : list TranscriptEntry) :
  reconstructed r who (deltas ++ [d]) l <->
  exists u, r = Some u /\ u <> 0 /\ located u who (concatText (deltas ++ [d])) l.
Proof. unfold reconstructed. by destruct deltas. Qed.

Lemma reconstructed_truthy (r : option Z) (who : Speaker) (deltas : list string)
    (l : list TranscriptEntry) :
  reconstructed r who deltas l ->
  (truthy_id r = false /\ deltas = [] /\ r = None) \/
  (truthy_id r = true /\
   exists u, r = Some u /\ u <> 0 /\ located u who (concatText deltas) l).
Proof.
  unfold reconstructed. destruct deltas as [|d ds].
  - intros ->. by left.
  - intros (u & -> & Hu & Hloc). right. split; [| by exists u].
    cbn. by apply negb_true_iff, Z.eqb_neq.
Qed.

(** Adding an entry with a new id, for the other speaker. *)
Lemma reconstructed_append_other (r : option Z) (who : Speaker)
    (deltas : list string) (l : list TranscriptEntry) (e : TranscriptEntry) :
  reconstructed r who deltas l -> (forall t, t ∈ l -> id t <> id e) ->
  reconstructed r who deltas (l ++ [e]).
Proof.
  unfold reconstructed. destruct deltas as [|d ds]; [done |].
  intros (u & -> & Hu & Hloc) Hfresh. exists u. repeat split; try done.
  apply located_append_other; [done |].
  destruct (located_elem _ _ _ _ Hloc) as (t & Ht & <- & _).
  intros Heq. by eapply Hfresh.
Qed.

Lemma reconstructed_replace_other (r : option Z) (who : Speaker)
    (deltas : list string) (l : list TranscriptEntry) (v : Z) (s : string) :
  reconstructed r who deltas l -> (forall u, r = Some u -> u <> v) ->
  reconstructed r who deltas (replaceText (Some v) s l).
Proof.
  unfold reconstructed. destruct deltas as [|d ds]; [done |].
  intros (u & -> & Hu & Hloc) Hne. exists u. repeat split; try done.
  apply located_replace_other; [done | by apply Hne].
Qed.

Section Reconstruction.

Local Arguments concatText : simpl never.

Variable num_add : number -> number -> number.
Variable bufferDuration : string -> number.

Local Abbreviation handle := (handleServerMessage num_add bufferDuration).
Local Abbreviation runMs := (runMessages num_add bufferDuration).

Lemma inputStep_invariant env sc s dU dM :
  currentInputTranscriptionRef s = concatText dU ->
  reconstructed (currentUserTranscriptIdRef s) user dU (transcripts s) ->
  reconstructed (currentMaryTranscriptIdRef s) mary dM (transcripts s) ->
  (is_Some (sc ≫= inputTranscription) ->
   truthy_id (currentUserTranscriptIdRef s) = false ->
   dateNowUser env <> 0 /\
   forall t, t ∈ transcripts s -> id t <> Some (dateNowUser env)) ->
  let s' := inputStep env sc s in
  let dU' := dU ++ option_list (sc ≫= inputTranscription) in
  currentInputTranscriptionRef s' = concatText dU' /\
  reconstructed (currentUserTranscriptIdRef s') user dU' (transcripts s') /\
  reconstructed (currentMaryTranscriptIdRef s') mary dM (transcripts s') /\
  currentOutputTranscriptionRef s' = currentOutputTranscriptionRef s /\
  currentMaryTranscriptIdRef s' = currentMaryTranscriptIdRef s.
Proof.
  intros Hacc HU HM Hfresh. unfold inputStep.
  destruct (sc ≫= inputTranscription) as [d|]; cbn [option_list];
    [| by rewrite app_nil_r].
  rewrite inputDelta_eq. cbn.
  destruct (reconstructed_truthy _ _ _ _ HU) as [(Hf & -> & Hr) | (Ht & u & Hr & Hu & Hloc)].
  - rewrite Hf. cbn. destruct Hfresh as [Hnz Hnew]; [by eexists | done |].
    change (concatText [d]) with (concatText ([] ++ [d])).
    rewrite Hacc, concatText_snoc. split; [done |].
    split; [| split; [| done]].
    + eexists. split; [done | split; [done |]]. by apply located_append_new.
    + by apply reconstructed_append_other.
  - rewrite Ht. cbn. rewrite Hacc, <- concatText_snoc.
    split; [done |]. split; [| split; [| done]].
    + apply reconstructed_snoc. exists u. rewrite Hr.
      split; [done | split; [done |]]. by eapply located_replace_own.
    + rewrite Hr. apply reconstructed_replace_other; [done |].
      intros v Hv. destruct dM as [|d' dM']; [cbn in HM; congruence |].
      destruct HM as (v' & Hv' & _ & Hlocv).
      assert (v' = v) as -> by congruence.
      intros ->. by eapply located_speakers.
Qed.

Lemma outputStep_invariant env sc s dU dM :
  currentOutputTranscriptionRef s = concatText dM ->
  reconstructed (currentUserTranscriptIdRef s) user dU (transcripts s) ->
  reconstructed (currentMaryTranscriptIdRef s) mary dM (transcripts s) ->
  (is_Some (sc ≫= outputTranscription) ->
   truthy_id (currentMaryTranscriptIdRef s) = false ->
   dateNowMary env <> 0 /\
   forall t, t ∈ transcripts s -> id t <> Some (dateNowMary env)) ->
  let s' := outputStep env sc s in
  let dM' := dM ++ option_list (sc ≫= outputTranscription) in
  currentOutputTranscriptionRef s' = concatText dM' /\
  reconstructed (currentMaryTranscriptIdRef s') mary dM' (transcripts s') /\
  reconstructed (currentUserTranscriptIdRef s') user dU (transcripts s') /\
  currentInputTranscriptionRef s' = currentInputTranscriptionRef s /\
  currentUserTranscriptIdRef s' = currentUserTranscriptIdRef s.
Proof.
  intros Hacc HU HM Hfresh. unfold outputStep.
  destruct (sc ≫= outputTranscription) as [d|]; cbn [option_list];
    [| by rewrite app_nil_r].
  rewrite outputDelta_eq. cbn.
  destruct (reconstructed_truthy _ _ _ _ HM) as [(Hf & -> & Hr) | (Ht & v & Hr & Hv & Hloc)].
  - rewrite Hf. cbn. destruct Hfresh as [Hnz Hnew]; [by eexists | done |].
    change (concatText [d]) with (concatText ([] ++ [d])).
    rewrite Hacc, concatText_snoc. split; [done |].
    split; [| split; [| done]].
    + eexists. split; [done | split; [done |]]. by apply located_append_new.
    + by apply reconstructed_append_other.
  - rewrite Ht. cbn. rewrite Hacc, <- concatText_snoc.
    split; [done |]. split; [| split; [| done]].
    + apply reconstructed_snoc. exists v. rewrite Hr.
      split; [done | split; [done |]]. by eapply located_replace_own.
    + rewrite Hr. apply reconstructed_replace_other; [done |].
      intros u Hu. destruct dU as [|d' dU']; [cbn in HU; congruence |].
      destruct HU as (u' & Hu' & _ & Hlocu).
      assert (u' = u) as -> by congruence.
      by eapply located_speakers.
Qed.

Lemma handle_not_complete env m st :
  isTurnComplete m = false ->
  handle env m st =
  outputStep env (serverContent m) (beforeOutput num_add bufferDuration env m st).
Proof.
  unfold isTurnComplete, handleServerMessage, beforeOutput, outputStep, inputStep,
    inputIf, outputIf, turnCompleteIf.
  cbv zeta.
  generalize (interruptedStep (serverContent m)
                (audioStep num_add bufferDuration env (serverContent m) st)).
  intros s0.
  destruct (serverContent m) as [c|]; cbn [mbind option_bind];
    [intros -> | intros _].
  - unfold inputDelta, outputDelta, queueInputDelta, queueOutputDelta, render.
    destruct (inputTranscription c) as [d|], (outputTranscription c) as [d'|]; cbn;
      repeat match goal with
             | |- context [negb (truthy_id ?r)] => destruct (negb (truthy_id r)); cbn
             end;
      try reflexivity; by destruct s0.
  - by destruct s0.
Qed.

Lemma inputDeltas_snoc ms em :
  inputDeltas (ms ++ [em]) =
  inputDeltas ms ++ option_list (serverContent em.2 ≫= inputTranscription).
Proof.
  unfold inputDeltas. rewrite omap_app. cbn.
  by destruct (serverContent em.2 ≫= inputTranscription).
Qed.

Lemma outputDeltas_snoc ms em :
  outputDeltas (ms ++ [em]) =
  outputDeltas ms ++ option_list (serverContent em.2 ≫= outputTranscription).
Proof.
  unfold outputDeltas. rewrite omap_app. cbn.
  by destruct (serverContent em.2 ≫= outputTranscription).
Qed.

Lemma freshIds_snoc st ms em :
  freshIds num_add bufferDuration st (ms ++ [em]) ->
  freshIds num_add bufferDuration st ms /\
  let s := runMs st ms in
  let s' := beforeOutput num_add bufferDuration em.1 em.2 s in
  (is_Some (serverContent em.2 ≫= inputTranscription) ->
   truthy_id (currentUserTranscriptIdRef s) = false ->
   dateNowUser em.1 <> 0 /\
   forall t, t ∈ transcripts s -> id t <> Some (dateNowUser em.1)) /\
  (is_Some (serverContent em.2 ≫= outputTranscription) ->
   truthy_id (currentMaryTranscriptIdRef s') = false ->
   dateNowMary em.1 <> 0 /\
   forall t, t ∈ transcripts s' -> id t <> Some (dateNowMary em.1)).
Proof.
  intros H. split.
  - intros i x Hi.
    pose proof (H i x (lookup_app_l_Some _ _ _ _ Hi)) as Hx.
    rewrite take_app_le in Hx; [exact Hx |].
    apply lookup_lt_Some in Hi. lia.
  - pose proof (H (length ms) em (list_lookup_middle _ _ _ _ eq_refl)) as Hx.
    rewrite take_app_le, firstn_all in Hx by lia. exact Hx.
Qed.

(** X12.  From the start of a turn, over messages none of which ends the turn,
    and with new ids, each speaker's entry carries the concatenation of the
    deltas of that speaker. *)
Lemma transcript_reconstruction_distinct_ids (st : Hook)
    (ms : list (Env * LiveServerMessage)) :
  turnStart st ->
  (forall i em, ms !! i = Some em -> isTurnComplete em.2 = false) ->
  freshIds num_add bufferDuration st ms ->
  turnInvariant ms (runMs st ms).
Proof.
  intros (H1 & H2 & H3 & H4).
  induction ms as [|em ms IH] using rev_ind; intros Hnc Hfresh.
  - by repeat split.
  - apply freshIds_snoc in Hfresh as (Hfresh & HfU & HfM).
    destruct IH as (I1 & I2 & I3 & I4); [| done |].
    { intros i x Hi. apply (Hnc i). by apply lookup_app_l_Some. }
    rewrite runMessages_snoc, handle_not_complete
      by (apply (Hnc (length ms)); by rewrite list_lookup_middle).
    unfold beforeOutput in *.
    destruct (playback_keeps_transcripts num_add bufferDuration em.1
                (serverContent em.2) (runMs st ms))
      as (P1 & P2 & P3 & P4 & P5).
    set (s0 := interruptedStep _ _) in *.
    rewrite <- P1, <- P4 in HfU. rewrite <- P1, <- P4 in I3.
    rewrite <- P1, <- P5 in I4. rewrite <- P2 in I1. rewrite <- P3 in I2.
    destruct (inputStep_invariant em.1 (serverContent em.2) s0 _ _ I1 I3 I4 HfU)
      as (J1 & J3 & J4 & J2 & J5).
    rewrite <- J2 in I2.
    destruct (outputStep_invariant em.1 (serverContent em.2) _ _ _ I2 J3 J4 HfM)
      as (K2 & K4 & K3 & K1 & K5).
    unfold turnInvariant. rewrite inputDeltas_snoc, outputDeltas_snoc.
    rewrite K1, J1. done.
Qed.

End Reconstruction.

(** ** Examples *)

(** A conversation of two entries and a new prompt; the service answers
    with a maps chunk that has two review snippets, one of them an object
    with a uri. *)
Example sendChatMessage_example :
  let history := [ freshEntry 1 user "hola"; freshEntry 2 mary "buenas" ] in
  let settings := {| empathy := of_Z 8; humor := of_Z 7; solidarity := of_Z 9 |} in
  let place :=
    {| maps_uri := Some "https://maps.example/p"; maps_title := None;
       placeAnswerSources :=
         Some {| reviewSnippets :=
                   Some [ {| review := ReviewObject (Some (Some "https://maps.example/r")) None |};
                          {| review := ReviewString "muy bien" |} ] |} |} in
  let answer (_ : GenerateContentParameters) :=
    {| response_text := Some "claro";
       candidates :=
         Some [ {| GeminiService.groundingMetadata :=
                     Some {| groundingChunks :=
                               Some [ {| web := None; maps := Some place |} ] |} |} ] |} in
  contents (chatRequest (fun _ _ _ => "") "y ahora" history settings None) =
    [ {| role := "user"; parts := ["hola"] |};
      {| role := "model"; parts := ["buenas"] |};
      {| role := "user"; parts := ["y ahora"] |} ] /\
  sendChatMessage (fun _ _ _ => "") answer "y ahora" history settings None =
    (Some "claro",
     [ {| uri := Some "https://maps.example/p";
          title := Some "https://maps.example/p"; type := src_maps |};
       {| uri := Some "https://maps.example/r";
          title := Some "Leer reseña"; type := src_review |} ]).
Proof. split; reflexivity. Qed.

(** A review whose [uri] key holds null: the test of the loop is on the
    key, so the review gives a source, with a null uri. *)
Example review_with_null_uri :
  extractSources "Leer reseña"
    (Some {| groundingChunks :=
               Some [ {| web := None;
                         maps :=
                           Some {| maps_uri := Some "https://maps.example/p";
                                   maps_title := Some "Plaza";
                                   placeAnswerSources :=
                                     Some {| reviewSnippets :=
                                               Some [ {| review :=
                                                           ReviewObject (Some None)
                                                             (Some "muy bien") |} ] |} |} |} ] |}) =
  [ {| uri := Some "https://maps.example/p"; title := Some "Plaza"; type := src_maps |};
    {| uri := None; title := Some "muy bien"; type := src_review |} ].
Proof. reflexivity. Qed.

Example getTraitLevel_sliders :
  getTraitLevel <$> (of_Z <$> [0; 3; 4; 7; 8; 10]) =
  [bajo; bajo; medio; medio; alto; alto].
Proof. reflexivity. Qed.

Example handleFeedback_example :
  transcripts
    (handleFeedback 2 up
       (set_transcripts [ freshEntry 1 user "hola"; freshEntry 2 mary "buenas" ] initial)) =
  [ freshEntry 1 user "hola"; with_feedback up (freshEntry 2 mary "buenas") ].
Proof. reflexivity. Qed.

(** Half of full scale, full scale in both directions and beyond, and the
    values that are not finite. *)
Example pcmSamples_example :
  pcmSamples [ Fin (1 # 2); Fin 1; Fin (-1); Fin 3; Fin (-3); Fin (3 # 100000);
               PosInf; NegInf; NaN ] =
  [ 16384; 32767; -32768; 32767; -32768; 0; 32767; -32768; 0 ].
Proof. vm_compute. reflexivity. Qed.

(** * Further properties of the hook *)

Section HookInvariants.

Variable num_add : number -> number -> number.
Variable bufferDuration : string -> number.

Local Abbreviation handle := (handleServerMessage num_add bufferDuration).
Local Abbreviation stepH := (step num_add bufferDuration).
Local Abbreviation runH := (run num_add bufferDuration).
Local Abbreviation momentH := (moment num_add bufferDuration).
Local Abbreviation momentsH := (moments num_add bufferDuration).

Lemma run_snoc st evs ev : runH st (evs ++ [ev]) = stepH (runH st evs) ev.
Proof. unfold run. by rewrite foldl_snoc. Qed.

(** [cleanup] as one assignment. *)
Lemma cleanup_eq (st : Hook) :
  cleanup st =
  {| status := status st; transcripts := transcripts st; sessionPromiseRef := None;
     inputAudioContextRef := false; outputAudioContextRef := false;
     mediaStreamRef := false; scriptProcessorRef := false;
     frameIntervalRef :=
       if truthy_id (frameIntervalRef st) then None else frameIntervalRef st;
     audioSourcesRef := ∅; nextAudioStartTimeRef := of_Z 0;
     compressorRef := false; micGainNodeRef := micGainNodeRef st;
     currentInputTranscriptionRef := currentInputTranscriptionRef st;
     currentOutputTranscriptionRef := currentOutputTranscriptionRef st;
     currentUserTranscriptIdRef := currentUserTranscriptIdRef st;
     currentMaryTranscriptIdRef := currentMaryTranscriptIdRef st;
     createdSources := createdSources st; started := started st;
     stopped := stopped st ∪ audioSourcesRef st;
     liveConnects := liveConnects st |}.
Proof.
  unfold cleanup. by destruct (truthy_id (frameIntervalRef _)) eqn:E.
Qed.

(** X1.  [cleanup] can run any number of times: a second run changes
    nothing.  (It runs in [onerror], in [onclose] and when the component
    unmounts, one after the other.) *)
Theorem cleanup_idempotent (st : Hook) : cleanup (cleanup st) = cleanup st.
Proof.
  rewrite (cleanup_eq (cleanup st)), !cleanup_eq. cbn.
  rewrite (right_id_L ∅ (∪)).
  by destruct (truthy_id (frameIntervalRef st)) eqn:E; cbn; rewrite ?E.
Qed.

(** What the two audio steps of the handler do without an output context. *)
Lemma audioStep_no_context env sc st :
  outputAudioContextRef st = false ->
  audioStep num_add bufferDuration env sc st = st.
Proof.
  intros H. unfold audioStep. destruct (sc ≫= audioData) as [a|]; [| done].
  by rewrite H, andb_false_r.
Qed.


(** [connect] and the playback queue: nothing is created or started, and
    the queue is either left alone or stopped and emptied. *)
Lemma connect_queue outcome st :
  started (connect outcome st) = started st /\
  createdSources (connect outcome st) = createdSources st /\
  ((audioSourcesRef (connect outcome st) = audioSourcesRef st /\
    stopped (connect outcome st) = stopped st) \/
   (audioSourcesRef (connect outcome st) = ∅ /\
    stopped (connect outcome st) = stopped st ∪ audioSourcesRef st)).
Proof.
  unfold connect.
  case_bool_decide; [by auto |]. case_bool_decide; [by auto |]. cbn.
  destruct outcome; unfold connectFailed; rewrite ?cleanup_eq; cbn; by auto.
Qed.

Lemma cleanup_queue st :
  started (cleanup st) = started st /\
  createdSources (cleanup st) = createdSources st /\
  audioSourcesRef (cleanup st) = ∅ /\
  stopped (cleanup st) = stopped st ∪ audioSourcesRef st.
Proof. by rewrite cleanup_eq. Qed.

Lemma queueInvariant_cleared (st st' : Hook) :
  queueInvariant st ->
  createdSources st' = createdSources st ->
  audioSourcesRef st' = ∅ ->
  stopped st' = stopped st ∪ audioSourcesRef st ->
  queueInvariant st'.
Proof.
  intros [Hq Hs] Hc Ha Hst. split.
  - intros s. rewrite Ha. set_solver.
  - intros s. rewrite Hst, Hc. intros [?|?]%elem_of_union; [by apply Hs | by apply Hq].
Qed.

Lemma queueInvariant_same (st st' : Hook) :
  queueInvariant st ->
  createdSources st' = createdSources st ->
  audioSourcesRef st' = audioSourcesRef st ->
  stopped st' = stopped st ->
  queueInvariant st'.
Proof. intros [Hq Hs] Hc Ha Hst. split; intros s; rewrite ?Ha, ?Hst, Hc; auto. Qed.

Lemma queueInvariant_audioStep env sc st :
  queueInvariant st -> queueInvariant (audioStep num_add bufferDuration env sc st).
Proof.
  intros [Hq Hs]. unfold audioStep.
  destruct (sc ≫= audioData) as [a|]; [| done].
  destruct (truthy_string a && outputAudioContextRef st); [| done].
  split; cbn.
  - intros s [Hin| ->%elem_of_singleton]%elem_of_union.
    + destruct (Hq s Hin). split; [lia | done].
    + split; [lia |]. intros Hin. apply Hs in Hin. lia.
  - intros s Hin. apply Hs in Hin. lia.
Qed.

Lemma queueInvariant_interruptedStep sc st :
  queueInvariant st -> queueInvariant (interruptedStep sc st).
Proof.
  intros Hinv. unfold interruptedStep. destruct sc as [c|]; [| done].
  destruct (interrupted c); [| done].
  by eapply queueInvariant_cleared.
Qed.

Lemma queueInvariant_handle env m st :
  queueInvariant st -> queueInvariant (handle env m st).
Proof.
  intros Hinv.
  destruct (audioView_fields _ _ (handle_audioView num_add bufferDuration env m st))
    as (_ & _ & Ha & Hs & Hc & _).
  eapply queueInvariant_same; [| exact Hc | exact Ha | exact Hs].
  by apply queueInvariant_interruptedStep, queueInvariant_audioStep.
Qed.

Lemma queueInvariant_step st ev : queueInvariant st -> queueInvariant (stepH st ev).
Proof.
  intros Hinv. destruct ev as [outcome|interval|env m| | |src|i f|]; cbn [step].
  - destruct (connect_queue outcome st) as (_ & Hc & [[Ha Hs] | [Ha Hs]]).
    + by eapply queueInvariant_same.
    + by eapply queueInvariant_cleared.
  - eapply queueInvariant_same; [done | ..]; unfold onopen; cbn;
      destruct (inputAudioContextRef st); try done; by destruct interval.
  - by apply queueInvariant_handle.
  - destruct (cleanup_queue (set_status error st)) as (_ & Hc & Ha & Hs).
    by eapply queueInvariant_cleared.
  - destruct (cleanup_queue (set_status disconnected st)) as (_ & Hc & Ha & Hs).
    by eapply queueInvariant_cleared.
  - destruct Hinv as [Hq Hs]. split; cbn; [| done].
    intros s [Hin _]%elem_of_difference. by apply Hq.
  - done.
  - destruct (cleanup_queue st) as (_ & Hc & Ha & Hs).
    by eapply queueInvariant_cleared.
Qed.

(** X2.  Whatever happens to a mounted hook, the set of queued sources holds
    only buffer sources that the hook created and has not stopped, and
    the hook has stopped only sources that it created.  (The hook stops
    queued sources only, so it stops none twice.) *)
Theorem queue_holds_unstopped_sources (evs : list (Event)) :
  queueInvariant (runH initial evs).
Proof.
  induction evs as [|ev evs IH] using rev_ind.
  - split; intros s; cbn; set_solver.
  - rewrite run_snoc. by apply queueInvariant_step.
Qed.

Lemma startedInOrder_audioStep env sc st :
  startedInOrder st -> startedInOrder (audioStep num_add bufferDuration env sc st).
Proof.
  unfold startedInOrder, audioStep. intros H.
  destruct (sc ≫= audioData) as [a|]; [| done].
  destruct (truthy_string a && outputAudioContextRef st); [| done].
  cbn. rewrite fmap_app, H. symmetry. apply (seq_S (createdSources st) 0).
Qed.

Lemma startedInOrder_step st ev : startedInOrder st -> startedInOrder (stepH st ev).
Proof.
  unfold startedInOrder. intros H.
  destruct ev as [outcome|interval|env m| | |src|i f|]; cbn [step].
  - by destruct (connect_queue outcome st) as (-> & -> & _).
  - unfold onopen. cbn. destruct (inputAudioContextRef st); [| done].
    by destruct interval.
  - destruct (audioView_fields _ _ (handle_audioView num_add bufferDuration env m st))
      as (_ & -> & _ & _ & -> & _).
    pose proof (startedInOrder_audioStep env (serverContent m) st H) as H'.
    unfold startedInOrder, interruptedStep in *.
    destruct (serverContent m) as [c|]; [| done]. by destruct (interrupted c).
  - unfold onerror. by destruct (cleanup_queue (set_status error st)) as (-> & -> & _).
  - unfold onclose.
    by destruct (cleanup_queue (set_status disconnected st)) as (-> & -> & _).
  - done.
  - done.
  - by destruct (cleanup_queue st) as (-> & -> & _).
Qed.

(** X3.  Every buffer source that the hook creates is started exactly once:
    the calls of [source.start] are those of the sources created, in the
    order of creation, whatever happens to the hook. *)
Theorem every_source_started_once (evs : list Event) :
  startedInOrder (runH initial evs) /\
  length (started (runH initial evs)) = createdSources (runH initial evs).
Proof.
  assert (startedInOrder (runH initial evs)) as H.
  { induction evs as [|ev evs IH] using rev_ind; [done |].
    rewrite run_snoc. by apply startedInOrder_step. }
  split; [done |].
  unfold startedInOrder in H.
  by rewrite <- (length_fmap source), H, length_seq.
Qed.

Lemma connect_session outcome st :
  (connect outcome st = st) \/
  (status (connect outcome st) = error /\ sessionPromiseRef (connect outcome st) = None /\
   liveConnects (connect outcome st) = liveConnects st) \/
  (status st = idle /\ status (connect outcome st) = connecting /\
   liveConnects (connect outcome st) = S (liveConnects st)).
Proof.
  unfold connect.
  case_bool_decide as Hs; [by auto |]. case_bool_decide as Hp; [by auto |].
  cbn.
  destruct outcome; unfold connectFailed; rewrite ?cleanup_eq; cbn; by auto.
Qed.

Lemma oneSession_step st ev : oneSession st -> oneSession (stepH st ev).
Proof.
  intros (H1 & H2 & H3).
  destruct ev as [outcome|interval|env m| | |src|i f|]; cbn [step].
  - destruct (connect_session outcome st) as [-> | [(Hs & Hp & Hl) | (Hi & Hs & Hl)]].
    + done.
    + unfold oneSession. rewrite Hs, Hp, Hl. repeat split; try done; lia.
    + unfold oneSession. rewrite Hs, Hl, (H2 Hi). repeat split; done.
  - unfold oneSession, onopen. cbn.
    assert (forall s, status s = connected -> liveConnects s = liveConnects st ->
              sessionPromiseRef s = sessionPromiseRef st ->
              (liveConnects s <= 1)%nat /\ (status s = idle -> liveConnects s = 0%nat) /\
              (sessionPromiseRef s <> None -> liveConnects s = 1%nat /\ status s <> idle))
      as Hgen.
    { intros s Hs Hl Hp. rewrite Hs, Hl, Hp.
      split; [done | split; [done |]]. intros Hne. by destruct (H3 Hne). }
    destruct (inputAudioContextRef st); [| by apply Hgen].
    destruct interval; by apply Hgen.
  - destruct (refsView_fields _ _ (handle_refsView num_add bufferDuration env m st))
      as (Hs & Hp & Hl & _).
    unfold oneSession. by rewrite Hs, Hp, Hl.
  - unfold onerror, oneSession. rewrite cleanup_eq. cbn. repeat split; done.
  - unfold onclose, oneSession. rewrite cleanup_eq. cbn. repeat split; done.
  - done.
  - done.
  - unfold oneSession. rewrite cleanup_eq. cbn. repeat split; done.
Qed.

(** The call of [connect] that nothing interrupts is the call cut at its
    [await]s, made by the callback of the latest render, when nothing
    happens between its parts. *)
Lemma connect_uninterrupted (o : ConnectOutcome) (st : Hook) :
  connect o st =
  hook (momentsH {| hook := st; waiting := [] |}
          [ ConnectCalled (status st) o; ConnectResumes 0; ConnectResumes 0 ]).
Proof.
  unfold connect, moments. cbn. unfold connect_call.
  destruct (bool_decide (status st ≠ idle) || bool_decide (sessionPromiseRef st ≠ None));
    [done |].
  by destruct o.
Qed.

Lemma connect_call_blocked (c : Status) (o : ConnectOutcome) (st : Hook) :
  c <> idle \/ sessionPromiseRef st <> None -> connect_call c o st = (st, None).
Proof.
  intros H. unfold connect_call.
  destruct H as [H|H]; repeat case_bool_decide; done.
Qed.

Lemma connect_call_passes (c : Status) (o : ConnectOutcome) (st : Hook) :
  c = idle -> sessionPromiseRef st = None ->
  connect_call c o st =
    (set_status connecting st, Some {| awaiting := AwaitGetUserMedia; outcome := o |}).
Proof.
  intros -> Hp. unfold connect_call.
  rewrite bool_decide_eq_false_2 by (by intros []).
  by rewrite bool_decide_eq_false_2 by (by intros []).
Qed.

(** What a call that goes on does to the status, the session and the
    count of calls of [ai.live.connect]: it goes on waiting, it fails, or
    it opens a session. *)
Lemma connect_resume_session (w : Waiting) (st : Hook) :
  let r := connect_resume w st in
  (r.2 <> None /\ status r.1 = status st /\
   sessionPromiseRef r.1 = sessionPromiseRef st /\
   liveConnects r.1 = liveConnects st) \/
  (r.2 = None /\ status r.1 = error /\ sessionPromiseRef r.1 = None /\
   liveConnects r.1 = liveConnects st) \/
  (r.2 = None /\ status r.1 = status st /\ sessionPromiseRef r.1 <> None /\
   liveConnects r.1 = S (liveConnects st)).
Proof.
  destruct w as [[|] o]; destruct o;
    unfold connect_resume, connect_afterPlay, connectFailed;
    cbv beta iota zeta delta [awaiting outcome fst snd];
    rewrite ?cleanup_eq; cbn;
    first [ left; by repeat split
          | right; left; by repeat split
          | right; right; by repeat split ].
Qed.

Lemma step_status_liveConnects st ev :
  (status (stepH st ev) = idle -> status st = idle) /\
  (liveConnects (stepH st ev) = liveConnects st \/
   (status st = idle /\ liveConnects (stepH st ev) = S (liveConnects st))).
Proof.
  destruct (decide (status st = idle)) as [Hi|Hn].
  - split; [done |].
    destruct ev as [outcome|interval|env m| | |src|i f|]; cbn [step].
    + destruct (connect_session outcome st) as [-> | [(_ & _ & ->) | (_ & _ & ->)]];
        auto.
    + left. unfold onopen. cbn. destruct (inputAudioContextRef st); [| done].
      by destruct interval.
    + left. by destruct (handle_connection num_add bufferDuration env m st) as (_ & _ & ->).
    + left. unfold onerror. by rewrite cleanup_eq.
    + left. unfold onclose. by rewrite cleanup_eq.
    + by left.
    + by left.
    + left. by rewrite cleanup_eq.
  - destruct (step_not_idle num_add bufferDuration st ev Hn) as [H1 H2].
    split; [done | by left].
Qed.

Lemma oneCall_moment (m : Mounted) (mo : Moment) :
  oneCall m ->
  match mo with
  | ConnectCalled closureStatus _ => closureStatus = status (hook m)
  | _ => True
  end ->
  oneCall (momentH m mo).
Proof.
  intros (Hone & Hlen & Hidle) Hlatest.
  pose proof Hone as (H1 & H2 & H3).
  destruct mo as [c o|k|ev]; cbn [moment].
  - subst c.
    destruct (decide (status (hook m) = idle /\ sessionPromiseRef (hook m) = None))
      as [[Hi Hp]|Hno].
    + rewrite connect_call_passes by done. cbn.
      rewrite (Hidle Hi). unfold oneCall, oneSession. cbn.
      rewrite (H2 Hi), Hp. repeat split; (done || lia).
    + rewrite connect_call_blocked.
      * cbn. by rewrite app_nil_r.
      * destruct (decide (status (hook m) = idle)); [right | by left].
        intros Hp. by apply Hno.
  - destruct (waiting m !! k) as [w|] eqn:Hk; [| done].
    assert (waiting m = [w] /\ k = 0%nat /\ liveConnects (hook m) = 0%nat)
      as (Hw & -> & Hl).
    { destruct (waiting m) as [|w0 [|w1 ws]]; [done | | cbn in Hlen; lia].
      cbn in Hlen. destruct k; [| done]. injection Hk as ->.
      repeat split. lia. }
    assert (status (hook m) <> idle) as Hn.
    { intros Hi. rewrite (Hidle Hi) in Hw. discriminate. }
    rewrite Hw. cbv zeta. cbn [take drop app].
    pose proof (connect_resume_session w (hook m)) as Hr. cbv zeta in Hr.
    destruct (connect_resume w (hook m)) as [st' w2]. cbn [fst snd] in *.
    unfold oneCall, oneSession. cbn [hook waiting].
    destruct Hr as [(Hr & Hs & Hp & Hc) | [(-> & Hs & Hp & Hc) | (-> & Hs & Hp & Hc)]].
    + destruct w2 as [w'|]; [| done]. cbn.
      rewrite Hs, Hp, Hc, Hl.
      split; [split; [lia | split; [done |]] | split; [cbn; lia | done]].
      intros Hne. destruct (H3 Hne) as [H30 _]. lia.
    + cbn. rewrite Hs, Hp, Hc, Hl. repeat split; (done || lia).
    + cbn. rewrite Hs, Hc, Hl. repeat split; (done || lia).
  - destruct (step_status_liveConnects (hook m) ev) as [Hback Hcount].
    unfold oneCall. cbn. split; [by apply oneSession_step |].
    split; [| by intros Hi; apply Hidle, Hback].
    destruct Hcount as [-> | [Hi ->]]; [done |].
    rewrite (Hidle Hi), (H2 Hi). cbn. lia.
Qed.

Lemma oneCall_moments (m : Mounted) (mos : list Moment) :
  oneCall m -> callsFromLatestRender num_add bufferDuration m mos ->
  oneCall (momentsH m mos).
Proof.
  revert m. induction mos as [|mo mos IH]; intros m Hm Hl; [done |].
  destruct Hl as [Hmo Hl]. cbn. apply IH; [| done].
  by apply oneCall_moment.
Qed.

(** X4.  A mounted hook whose [connect] is always called by the callback
    of the latest render opens at most one live session in its whole life:
    however the calls, their [await]s and the other events follow one
    another, [ai.live.connect] has been called at most once, not at all
    while the status is 'idle', and a session reference exists only after
    that one call, with a status other than 'idle'. *)
Theorem at_most_one_session (mos : list Moment) :
  callsFromLatestRender num_add bufferDuration mountedHook mos ->
  oneSession (hook (momentsH mountedHook mos)).
Proof.
  intros Hl.
  assert (oneCall mountedHook) as H0.
  { unfold oneCall, oneSession. cbn. repeat split; (done || lia). }
  by destruct (oneCall_moments mountedHook mos H0 Hl) as (? & _).
Qed.




Lemma num_leb_refl (a : number) : notNaN a -> num_leb a a = true.
Proof. destruct a as [| |x|]; try done. intros _. apply num_leb_Fin. lra. Qed.

Lemma num_ltb_leb (a b : number) : num_ltb a b = true -> num_leb a b = true.
Proof.
  destruct a as [| |x|], b as [| |y|]; try done.
  intros H%num_ltb_Fin. apply num_leb_Fin. lra.
Qed.

Lemma num_ltb_false_leb (a b : number) :
  notNaN a -> notNaN b -> num_ltb a b = false -> num_leb b a = true.
Proof.
  destruct a as [| |x|], b as [| |y|]; try done.
  intros _ _ H%num_ltb_false_Fin. by apply num_leb_Fin.
Qed.

Lemma Math_max_bounds (a b : number) :
  notNaN a -> notNaN b ->
  num_leb a (Math_max a b) = true /\ num_leb b (Math_max a b) = true.
Proof.
  intros Ha Hb.
  assert (Math_max a b = if num_ltb a b then b else a) as ->
    by (by destruct a, b).
  destruct (num_ltb a b) eqn:E.
  - split; [by apply num_ltb_leb | by apply num_leb_refl].
  - split; [by apply num_leb_refl | by apply num_ltb_false_leb].
Qed.

(** X6.  No chunk is scheduled in the past: when the clock of the output
    context and the accumulated start time are not NaN, a chunk is started
    at a time that is at or after the clock and at or after the accumulated
    start time. *)
Theorem chunk_never_starts_in_the_past (env : Env) (m : LiveServerMessage)
    (st : Hook) (a : string) :
  chunkOf m = Some a -> outputAudioContextRef st = true ->
  notNaN (currentTime env) -> notNaN (nextAudioStartTimeRef st) ->
  exists s, started (handle env m st) = started st ++ [s] /\
    num_leb (currentTime env) (startTime s) = true /\
    num_leb (nextAudioStartTimeRef st) (startTime s) = true.
Proof.
  intros Hc Hctx Hcur Hnext. eexists. split.
  - by apply handle_chunk_started.
  - cbn. destruct (Math_max_bounds _ _ Hnext Hcur). done.
Qed.

(** X7.  A message whose payload is missing or empty, or that arrives when
    there is no output context (before [connect] has set it, or after
    [cleanup]), schedules nothing: no source is created or started, and
    unless the message reports an interruption the accumulated start time
    and the queue stay as they are. *)
Theorem audio_dropped (env : Env) (m : LiveServerMessage) (st : Hook) :
  chunkOf m = None \/ outputAudioContextRef st = false ->
  started (handle env m st) = started st /\
  createdSources (handle env m st) = createdSources st /\
  (isInterrupted m = false ->
   nextAudioStartTimeRef (handle env m st) = nextAudioStartTimeRef st /\
   audioSourcesRef (handle env m st) = audioSourcesRef st).
Proof.
  intros H.
  assert (audioStep num_add bufferDuration env (serverContent m) st = st) as Heq.
  { destruct H; [by apply audioStep_no_chunk | by apply audioStep_no_context]. }
  destruct (audioView_fields _ _ (handle_audioView num_add bufferDuration env m st))
    as (A1 & A2 & A3 & _ & A5 & _).
  rewrite Heq in A1, A2, A3, A5. rewrite A1, A2, A3, A5.
  split; [| split].
  - unfold interruptedStep. destruct (serverContent m) as [c|]; [| done].
    by destruct (interrupted c).
  - unfold interruptedStep. destruct (serverContent m) as [c|]; [| done].
    by destruct (interrupted c).
  - intros Hi. by rewrite interruptedStep_not.
Qed.

Lemma entriesKept_refl l : entriesKept l l.
Proof. intros k t Hk. exists t. by repeat split. Qed.

Lemma entriesKept_trans l1 l2 l3 :
  entriesKept l1 l2 -> entriesKept l2 l3 -> entriesKept l1 l3.
Proof.
  intros H12 H23 k t Hk.
  destruct (H12 k t Hk) as (t2 & Hk2 & E1 & E2 & E3).
  destruct (H23 k t2 Hk2) as (t3 & Hk3 & F1 & F2 & F3).
  exists t3. split; [done |]. repeat split; [congruence | congruence | auto].
Qed.

Lemma entriesKept_fmap (g : TranscriptEntry -> TranscriptEntry) l :
  (forall t, entryKept t (g t)) -> entriesKept l (g <$> l).
Proof.
  intros Hg k t Hk. exists (g t). by rewrite list_lookup_fmap, Hk.
Qed.

Lemma entriesKept_app l l' : entriesKept l (l ++ l').
Proof.
  intros k t Hk. exists t. split; [by apply lookup_app_l_Some | by repeat split].
Qed.

Lemma entriesKept_length l l' : entriesKept l l' -> (length l <= length l')%nat.
Proof.
  intros H. destruct (decide (length l = 0)%nat) as [->|Hne]; [lia |].
  destruct (lookup_lt_is_Some_2 l (length l - 1)) as [t Ht]; [lia |].
  destruct (H _ _ Ht) as (t' & Ht' & _). apply lookup_lt_Some in Ht'. lia.
Qed.

Lemma entriesKept_replaceText r s0 l : entriesKept l (replaceText r s0 l).
Proof.
  apply entriesKept_fmap. intros t. destruct (id_is r t); by repeat split.
Qed.

Lemma entriesKept_runUpdater refs u l : entriesKept l (runUpdater refs u l).
Proof.
  destruct u; cbn; unfold appendEntry, finalizeUser, finalizeMary;
    try apply entriesKept_app; try apply entriesKept_replaceText;
    apply entriesKept_fmap; intros t; destruct (id_is _ t); by repeat split.
Qed.

Lemma entriesKept_runUpdaters refs q l :
  entriesKept l (foldl (fun prev u => runUpdater refs u prev) l q).
Proof.
  revert l. induction q as [|u q IH]; intros l; cbn; [apply entriesKept_refl |].
  eapply entriesKept_trans; [apply entriesKept_runUpdater | apply IH].
Qed.

Lemma entriesKept_handle env m st :
  entriesKept (transcripts st) (transcripts (handle env m st)).
Proof.
  rewrite (handle_transcripts num_add bufferDuration).
  apply entriesKept_runUpdaters.
Qed.

Lemma connect_transcripts outcome st :
  transcripts (connect outcome st) = transcripts st.
Proof.
  unfold connect.
  case_bool_decide; [done |]. case_bool_decide; [done |]. cbn.
  destruct outcome; unfold connectFailed; rewrite ?cleanup_eq; done.
Qed.

Lemma entriesKept_step st ev :
  entriesKept (transcripts st) (transcripts (stepH st ev)).
Proof.
  destruct ev as [outcome|interval|env m| | |src|i f|]; cbn [step].
  - rewrite connect_transcripts. apply entriesKept_refl.
  - unfold onopen. cbn. destruct (inputAudioContextRef st); [| apply entriesKept_refl].
    destruct interval; apply entriesKept_refl.
  - apply entriesKept_handle.
  - unfold onerror. rewrite cleanup_eq. apply entriesKept_refl.
  - unfold onclose. rewrite cleanup_eq. apply entriesKept_refl.
  - apply entriesKept_refl.
  - unfold handleFeedback, feedbackReducer. cbn.
    apply entriesKept_fmap. intros t. case_bool_decide; by repeat split.
  - rewrite cleanup_eq. apply entriesKept_refl.
Qed.

(** X8.  The hook never removes or reorders a transcript entry: whatever
    happens, the list does not get shorter, and every entry stays at its
    index with the same id and the same speaker, and stays final once it
    is final. *)
Theorem entries_are_kept (st : Hook) (evs : list Event) :
  entriesKept (transcripts st) (transcripts (runH st evs)) /\
  (length (transcripts st) <= length (transcripts (runH st evs)))%nat.
Proof.
  assert (entriesKept (transcripts st) (transcripts (runH st evs))) as H.
  { induction evs as [|ev evs IH] using rev_ind; [apply entriesKept_refl |].
    rewrite run_snoc. eapply entriesKept_trans; [exact IH | apply entriesKept_step]. }
  split; [done | by apply entriesKept_length].
Qed.

(** *** The same with calls of [connect] that wait

    The invariants of the queue and of the list do not depend on a call of
    [connect] running to its end at once: they hold as well when calls
    wait at their [await]s while other things happen, whichever callback
    makes them. *)

Lemma moments_snoc m mos mo : momentsH m (mos ++ [mo]) = momentH (momentsH m mos) mo.
Proof. unfold moments. by rewrite foldl_snoc. Qed.

Lemma connect_call_hook (c : Status) (o : ConnectOutcome) (st : Hook) :
  (connect_call c o st).1 = st \/ (connect_call c o st).1 = set_status connecting st.
Proof.
  unfold connect_call.
  destruct (bool_decide (c ≠ idle) || bool_decide (sessionPromiseRef st ≠ None));
    by auto.
Qed.

Lemma connect_resume_queue (w : Waiting) (st : Hook) :
  let st' := (connect_resume w st).1 in
  started st' = started st /\ createdSources st' = createdSources st /\
  transcripts st' = transcripts st /\
  ((audioSourcesRef st' = audioSourcesRef st /\ stopped st' = stopped st) \/
   (audioSourcesRef st' = ∅ /\ stopped st' = stopped st ∪ audioSourcesRef st)).
Proof.
  destruct w as [[|] o]; destruct o;
    unfold connect_resume, connect_afterPlay, connectFailed;
    cbv beta iota zeta delta [awaiting outcome fst snd];
    rewrite ?cleanup_eq; cbn;
    (split; [done | split; [done | split; [done |]]]);
    first [ left; by split | right; by split ].
Qed.

Lemma queueInvariant_moments (mos : list Moment) :
  queueInvariant (hook (momentsH mountedHook mos)).
Proof.
  induction mos as [|mo mos IH] using rev_ind.
  - split; intros s; cbn; intros Hin; by apply elem_of_empty in Hin.
  - rewrite moments_snoc. set (m := momentsH mountedHook mos) in *.
    destruct mo as [c o|k|ev]; cbn [moment].
    + cbn. destruct (connect_call_hook c o (hook m)) as [-> | ->]; [done |].
      by eapply queueInvariant_same.
    + destruct (waiting m !! k) as [w|]; [| done]. cbn.
      destruct (connect_resume_queue w (hook m)) as (_ & Hc & _ & [[Ha Hs] | [Ha Hs]]).
      * by eapply queueInvariant_same.
      * by eapply queueInvariant_cleared.
    + cbn. by apply queueInvariant_step.
Qed.

Lemma startedInOrder_moments (mos : list Moment) :
  startedInOrder (hook (momentsH mountedHook mos)).
Proof.
  induction mos as [|mo mos IH] using rev_ind; [done |].
  rewrite moments_snoc. set (m := momentsH mountedHook mos) in *.
  destruct mo as [c o|k|ev]; cbn [moment].
  - cbn. by destruct (connect_call_hook c o (hook m)) as [-> | ->].
  - destruct (waiting m !! k) as [w|]; [| done]. cbn.
    destruct (connect_resume_queue w (hook m)) as (Hs & Hc & _).
    unfold startedInOrder in *. by rewrite Hs, Hc.
  - cbn. by apply startedInOrder_step.
Qed.

Lemma entriesKept_moments (m : Mounted) (mos : list Moment) :
  entriesKept (transcripts (hook m)) (transcripts (hook (momentsH m mos))).
Proof.
  induction mos as [|mo mos IH] using rev_ind; [apply entriesKept_refl |].
  rewrite moments_snoc. set (m' := momentsH m mos) in *.
  eapply entriesKept_trans; [exact IH |].
  destruct mo as [c o|k|ev]; cbn [moment].
  - cbn. destruct (connect_call_hook c o (hook m')) as [-> | ->];
      apply entriesKept_refl.
  - destruct (waiting m' !! k) as [w|]; [| apply entriesKept_refl]. cbn.
    destruct (connect_resume_queue w (hook m')) as (_ & _ & -> & _).
    apply entriesKept_refl.
  - cbn. apply entriesKept_step.
Qed.

Lemma completeTurn_at_start (md : option GroundingMetadata) (s : Hook) :
  turnStart s -> completeTurn md s = s.
Proof.
  destruct s. unfold turnStart. cbn. by intros (-> & -> & -> & ->).
Qed.

Lemma completeTurn_resets (md : option GroundingMetadata) (s : Hook) :
  turnStart (completeTurn md s).
Proof. done. Qed.

(** X9.  A second [turnComplete] right after the first changes nothing; in
    particular its grounding metadata is discarded. *)
Theorem turn_complete_twice (env1 env2 : Env) (md1 md2 : option GroundingMetadata)
    (st : Hook) :
  handle env2 (turnCompleteMessage md2) (handle env1 (turnCompleteMessage md1) st) =
  handle env1 (turnCompleteMessage md1) st.
Proof.
  assert (forall env md s, handle env (turnCompleteMessage md) s = completeTurn md s)
    as Hh by done.
  rewrite !Hh. apply completeTurn_at_start. apply completeTurn_resets.
Qed.

(** X10.  Feedback on an entry is overwritten by later feedback on the same
    entry, and feedback on entries with different ids does not depend on
    the order in which it is given. *)
Theorem handleFeedback_composes (i j : Z) (f g : Feedback) (st : Hook) :
  handleFeedback i g (handleFeedback i f st) = handleFeedback i g st /\
  (i <> j ->
   handleFeedback i f (handleFeedback j g st) =
   handleFeedback j g (handleFeedback i f st)).
Proof.
  assert (forall v w s, set_transcripts v (set_transcripts w s) = set_transcripts v s)
    as Hset by done.
  unfold handleFeedback. cbn. rewrite !Hset. split; [| intros Hne];
    f_equal; unfold feedbackReducer; rewrite <- !list_fmap_compose;
    apply list_fmap_ext; intros _ t _; cbn;
    repeat (case_bool_decide; cbn); try done; congruence.
Qed.

Lemma inputStep_accumulators env sc st :
  currentInputTranscriptionRef (inputStep env sc st) =
    currentInputTranscriptionRef st
      +:+ concatText (option_list (sc ≫= inputTranscription)) /\
  currentOutputTranscriptionRef (inputStep env sc st) = currentOutputTranscriptionRef st.
Proof.
  unfold inputStep. destruct (sc ≫= inputTranscription) as [d|].
  - rewrite inputDelta_eq. cbn. destruct (negb _); cbn; by rewrite append_nil_r.
  - cbn. by rewrite append_nil_r.
Qed.

Lemma outputStep_accumulators env sc st :
  currentOutputTranscriptionRef (outputStep env sc st) =
    currentOutputTranscriptionRef st
      +:+ concatText (option_list (sc ≫= outputTranscription)) /\
  currentInputTranscriptionRef (outputStep env sc st) = currentInputTranscriptionRef st.
Proof.
  unfold outputStep. destruct (sc ≫= outputTranscription) as [d|].
  - rewrite outputDelta_eq. cbn. destruct (negb _); cbn; by rewrite append_nil_r.
  - cbn. by rewrite append_nil_r.
Qed.

Lemma concatText_app (l1 l2 : list string) :
  concatText (l1 ++ l2) = concatText l1 +:+ concatText l2.
Proof.
  unfold concatText. induction l1 as [|x l IH]; [done |].
  change (x +:+ foldr String.append "" (l ++ l2) =
          (x +:+ foldr String.append "" l) +:+ foldr String.append "" l2).
  by rewrite IH, append_assoc.
Qed.

(** X11.  Between two ends of turn the accumulators are exact, whatever the
    ids of the entries: after any messages none of which ends the turn,
    each accumulator holds what it held before followed by the deltas of
    its speaker, in arrival order. *)
Theorem accumulators_hold_the_deltas (st : Hook) (ms : list (Env * LiveServerMessage)) :
  (forall i em, ms !! i = Some em -> isTurnComplete em.2 = false) ->
  currentInputTranscriptionRef (runMessages num_add bufferDuration st ms) =
    currentInputTranscriptionRef st +:+ concatText (inputDeltas ms) /\
  currentOutputTranscriptionRef (runMessages num_add bufferDuration st ms) =
    currentOutputTranscriptionRef st +:+ concatText (outputDeltas ms).
Proof.
  induction ms as [|em ms IH] using rev_ind; intros Hnc.
  - cbn. by rewrite !append_nil_r.
  - destruct IH as [I1 I2].
    { intros i x Hi. apply (Hnc i). by apply lookup_app_l_Some. }
    rewrite runMessages_snoc, handle_not_complete
      by (apply (Hnc (length ms)); by rewrite list_lookup_middle).
    unfold beforeOutput.
    destruct (playback_keeps_transcripts num_add bufferDuration em.1
                (serverContent em.2) (runMessages num_add bufferDuration st ms))
      as (_ & P2 & P3 & _).
    set (s0 := interruptedStep _ _) in *.
    destruct (inputStep_accumulators em.1 (serverContent em.2) s0) as [J1 J2].
    destruct (outputStep_accumulators em.1 (serverContent em.2)
                (inputStep em.1 (serverContent em.2) s0)) as [K2 K1].
    rewrite K1, K2, J1, J2, P2, P3, I1, I2.
    rewrite inputDeltas_snoc, outputDeltas_snoc, !concatText_app, !append_assoc.
    done.
Qed.

End HookInvariants.

(** A call of [connect]; while it waits for the camera the component
    asks again, with the callback of the render that followed the first
    call; the first call goes on and opens the session. *)
Lemma at_most_one_session_witness :
  oneSession
    (hook (moments exact_add (fun _ => of_Z 1) mountedHook
             [ ConnectCalled idle (SessionPromise 1);
               ConnectCalled connecting (SessionPromise 2);
               ConnectResumes 0;
               Happens (OnMessage (atTime 5) (audioMessage "AAAA"));
               ConnectResumes 0;
               Happens (OnOpen (Some 7));
               ConnectCalled connected (SessionPromise 3) ])).
Proof.
  apply (at_most_one_session exact_add (fun _ => of_Z 1)).
  vm_compute. repeat split.
Defined.


(** Two calls by the same callback, before React has rendered the status
    that the first one set: both pass the guard, and both get to
    [ai.live.connect]; the ref keeps the second session only. *)
Example two_calls_in_one_render :
  let m := moments exact_add (fun _ => of_Z 1) mountedHook
             [ ConnectCalled idle (SessionPromise 1);
               ConnectCalled idle (SessionPromise 2);
               ConnectResumes 0; ConnectResumes 0;
               ConnectResumes 0; ConnectResumes 0 ] in
  liveConnects (hook m) = 2%nat /\ sessionPromiseRef (hook m) = Some 2%nat /\
  waiting m = [].
Proof. vm_compute. repeat split. Qed.

(** The component unmounts while [connect] waits for the camera: [cleanup]
    runs, and then the call goes on, takes the stream, makes the audio
    contexts and opens the session. *)
Example unmount_while_connecting :
  let m := moments exact_add (fun _ => of_Z 1) mountedHook
             [ ConnectCalled idle (SessionPromise 1); Happens EffectCleanup;
               ConnectResumes 0; ConnectResumes 0 ] in
  mediaStreamRef (hook m) = true /\ outputAudioContextRef (hook m) = true /\
  sessionPromiseRef (hook m) = Some 1%nat /\ status (hook m) = connecting.
Proof. vm_compute. repeat split. Qed.

(** A chunk of one second is playing since the clock's time 2; the next
    chunk arrives at time 5, when the queue has run dry, and starts at 5. *)
Lemma chunk_never_starts_in_the_past_witness :
  let clock (t : Z) := {| currentTime := of_Z t; dateNowUser := 0; dateNowMary := 0 |} in
  let st := handleServerMessage exact_add (fun _ => of_Z 1) (clock 2)
              (audioMessage "AAAA") connectedHook in
  exists s,
    started (handleServerMessage exact_add (fun _ => of_Z 1) (clock 5)
               (audioMessage "BBBB") st)
      = started st ++ [s] /\
    num_leb (currentTime (clock 5)) (startTime s) = true /\
    num_leb (nextAudioStartTimeRef st) (startTime s) = true.
Proof.
  intros clock st.
  apply (chunk_never_starts_in_the_past exact_add (fun _ => of_Z 1) (clock 5)
           (audioMessage "BBBB") st "BBBB"); [reflexivity | reflexivity | exact I |].
  vm_compute. exact I.
Defined.

(** A chunk that arrives before [connect]: nothing is scheduled. *)
Lemma audio_dropped_witness :
  let st' := handleServerMessage exact_add (fun _ => of_Z 1) (atTime 5)
               (audioMessage "AAAA") initial in
  started st' = started initial /\
  createdSources st' = createdSources initial /\
  (isInterrupted (audioMessage "AAAA") = false ->
   nextAudioStartTimeRef st' = nextAudioStartTimeRef initial /\
   audioSourcesRef st' = audioSourcesRef initial).
Proof.
  apply (audio_dropped exact_add (fun _ => of_Z 1) (atTime 5) (audioMessage "AAAA") initial).
  right. reflexivity.
Defined.

(** Two deltas of the user around one of the model, with equal ids. *)
Lemma accumulators_hold_the_deltas_witness :
  let ms := [ (atTime 1000, inputMessage "hola");
              (atTime 1000, outputMessage "adios");
              (atTime 1001, inputMessage " que tal") ] in
  let st := runMessages exact_add (fun _ => of_Z 1) initial ms in
  currentInputTranscriptionRef st = "" +:+ concatText (inputDeltas ms) /\
  currentOutputTranscriptionRef st = "" +:+ concatText (outputDeltas ms).
Proof.
  intros ms st.
  apply (accumulators_hold_the_deltas exact_add (fun _ => of_Z 1) initial ms).
  intros [|[|[|i]]] em Hi; try done; by injection Hi as <-.
Defined.

(** A turn in which the three ids taken from the clock are 1000 and 1005:
    two deltas of the user around one of the model. *)
Lemma transcript_reconstruction_distinct_ids_witness :
  let ms := [ (atTime 1000, inputMessage "hola");
              (atTime 1005, outputMessage "adios");
              (atTime 1006, inputMessage " que tal") ] in
  turnInvariant ms (runMessages exact_add (fun _ => of_Z 1) initial ms).
Proof.
  intros ms.
  apply (transcript_reconstruction_distinct_ids exact_add (fun _ => of_Z 1) initial ms).
  - by repeat split.
  - intros [|[|[|i]]] em Hi; try done; by injection Hi as <-.
  - intros [|[|[|i]]] em Hi; try done; injection Hi as <-;
      (split; intros [d Hd] Hf); try discriminate Hd; try discriminate Hf;
      (split; [done |]); intros t Ht; vm_compute in Ht;
      repeat (apply elem_of_cons in Ht as [-> | Ht]; [vm_compute; discriminate |]);
      by apply elem_of_nil in Ht.
Defined.

(** * Further properties of the PCM encoder *)

Lemma int16Bytes_roundtrip (int16 : list Z) :
  Forall (fun s => -32768 <= s <= 32767) int16 ->
  bytesToInt16 (int16Bytes int16) = int16 /\
  Forall (fun b => 0 <= b < 256) (int16Bytes int16).
Proof.
  unfold int16Bytes. induction 1 as [|s l Hs Hl [IH1 IH2]]; [done |].
  cbn. cbn in IH1, IH2. rewrite IH1. split.
  - f_equal. unfold int16OfBytes. cbv zeta.
    assert (s mod 256 + 256 * (s / 256 mod 256) = s mod 65536) as ->.
    { change 65536 with (256 * 256).
      rewrite Z.rem_mul_r by lia. done. }
    destruct (Z_lt_le_dec s 0).
    + replace (s mod 65536) with (s + 65536)
        by (apply Z.mod_unique with (q := -1); lia).
      rewrite (proj2 (Z.leb_le _ _)) by lia. lia.
    + rewrite Z.mod_small by lia.
      rewrite (proj2 (Z.leb_gt _ _)) by lia. done.
  - repeat constructor; try done; apply Z.mod_pos_bound; lia.
Qed.

Lemma pcmSamples_range (samples : list number) :
  Forall (fun s => -32768 <= s <= 32767) (pcmSamples samples).
Proof.
  apply Forall_lookup. intros i s. rewrite pcmSamples_lookup.
  destruct (samples !! i) as [x|]; [| done].
  cbn [fmap option_fmap option_map]. intros [= <-].
  rewrite stored_sample. apply storedSample_range.
Qed.

(** X15.  Nothing is lost between the samples and the bytes of the blob:
    every byte is between 0 and 255, and reading the bytes back two by two,
    low byte first and in two's complement, gives the samples. *)
Theorem pcm_bytes_roundtrip (samples : list number) :
  bytesToInt16 (int16Bytes (pcmSamples samples)) = pcmSamples samples /\
  Forall (fun b => 0 <= b < 256) (int16Bytes (pcmSamples samples)).
Proof. apply int16Bytes_roundtrip, pcmSamples_range. Qed.

Lemma truncate_nonneg (q : Q) : 0 <= Qnum q -> truncate q = Qfloor q.
Proof.
  destruct q as [n d]. unfold truncate. cbn. intros Hn.
  by rewrite Z.quot_div_nonneg by lia.
Qed.

Lemma truncate_neg (q : Q) : Qnum q < 0 -> truncate q = Qceiling q.
Proof.
  destruct q as [n d]. unfold truncate, Qceiling. cbn. intros Hn.
  replace n with (- (- n)) at 1 by lia.
  rewrite Z.quot_opp_l by lia. by rewrite Z.quot_div_nonneg by lia.
Qed.

Lemma truncate_monotone (p q : Q) : (p <= q)%Q -> truncate p <= truncate q.
Proof.
  intros Hle.
  destruct (Z_lt_le_dec (Qnum p) 0) as [Hp|Hp], (Z_lt_le_dec (Qnum q) 0) as [Hq|Hq].
  - rewrite !truncate_neg by done. by apply Qceiling_resp_le.
  - rewrite truncate_neg, truncate_nonneg by done.
    assert (Qceiling p <= 0).
    { change 0 with (Qceiling 0). apply Qceiling_resp_le.
      destruct p as [n d]. unfold Qle. cbn in *. lia. }
    assert (0 <= Qfloor q).
    { change 0 with (Qfloor 0). apply Qfloor_resp_le.
      destruct q as [n d]. unfold Qle. cbn in *. lia. }
    lia.
  - exfalso. destruct p as [n d], q as [n' d']. unfold Qle in Hle. cbn in *. nia.
  - rewrite !truncate_nonneg by done. by apply Qfloor_resp_le.
Qed.

Lemma truncate_inject_Z (z : Z) : truncate (inject_Z z) = z.
Proof. unfold truncate. cbn. apply Z.quot_1_r. Qed.

Lemma clampQ_monotone (p q : Q) : (p <= q)%Q -> (clampQ p <= clampQ q)%Q.
Proof.
  intros Hle. unfold clampQ.
  apply Q.max_le_compat_l, Q.min_le_compat_l.
  unfold inject_Z. nra.
Qed.

Lemma storedSample_monotone (x y : number) :
  num_leb x y = true -> storedSample x <= storedSample y.
Proof.
  destruct x as [| |p|], y as [| |q|]; try done; cbn; intros H.
  - apply truncate_range, clampQ_range.
  - apply num_leb_Fin in H. by apply truncate_monotone, clampQ_monotone.
  - apply truncate_range, clampQ_range.
Qed.

(** X16.  The encoder keeps the order of the samples: clamping before the
    store rules out wrap-around, so of two input samples (neither NaN) the
    one that is not greater never gets the greater output. *)
Theorem pcm_keeps_order (samples : list number) (i j : nat) (x y : number) :
  samples !! i = Some x -> samples !! j = Some y -> num_leb x y = true ->
  exists a b, pcmSamples samples !! i = Some a /\ pcmSamples samples !! j = Some b /\
              a <= b.
Proof.
  intros Hi Hj Hle. exists (storedSample x), (storedSample y).
  rewrite !pcmSamples_lookup, Hi, Hj. cbn [fmap option_fmap option_map].
  rewrite !stored_sample. repeat split. by apply storedSample_monotone.
Qed.

(** X17.  Full scale and beyond saturates: a sample of at least
    32767/32768 is stored as 32767, and a sample of at most -1 is stored as
    -32768. *)
Theorem pcm_saturates (samples : list number) (i : nat) (q : Q) :
  samples !! i = Some (Fin q) ->
  ((32767 # 32768 <= q)%Q -> pcmSamples samples !! i = Some 32767) /\
  ((q <= -1)%Q -> pcmSamples samples !! i = Some (-32768)).
Proof.
  intros Hi. rewrite pcmSamples_lookup, Hi. cbn [fmap option_fmap option_map].
  rewrite stored_sample. cbn [storedSample].
  pose proof (truncate_range _ (clampQ_range q)) as [Hlo Hhi].
  split; intros Hq; f_equal.
  - assert (truncate (inject_Z 32767) <= truncate (clampQ q)) as H.
    { apply truncate_monotone. unfold clampQ.
      apply Q.max_le_iff. right. apply Q.min_glb; [lra |].
      unfold inject_Z. nra. }
    rewrite truncate_inject_Z in H. lia.
  - assert (truncate (clampQ q) <= truncate (inject_Z (-32768))) as H.
    { apply truncate_monotone. unfold clampQ.
      apply Q.max_lub; [lra |].
      apply Qle_trans with (q * inject_Z 32768)%Q; [apply Q.le_min_r |].
      unfold inject_Z. nra. }
    rewrite truncate_inject_Z in H. lia.
Qed.

(** X18.  On the grid of 16-bit values the encoder is exact: the sample
    k/32768, which is what a 16-bit value k becomes when it is scaled to a
    float, is stored as k again. *)
Theorem pcm_exact_on_grid (samples : list number) (i : nat) (k : Z) :
  -32768 <= k <= 32767 ->
  samples !! i = Some (Fin (k # 32768)) ->
  pcmSamples samples !! i = Some k.
Proof.
  intros Hk Hi. rewrite pcmSamples_lookup, Hi. cbn [fmap option_fmap option_map].
  rewrite stored_sample. cbn [storedSample]. f_equal.
  assert (clampQ (k # 32768) == inject_Z k)%Q as Heq.
  { unfold clampQ.
    assert ((k # 32768) * inject_Z 32768 == inject_Z k)%Q as Hp.
    { unfold Qeq, Qmult, inject_Z. cbn. lia. }
    assert (inject_Z (-32768) <= inject_Z k)%Q by (unfold Qle; cbn; lia).
    assert (inject_Z k <= inject_Z 32767)%Q by (unfold Qle; cbn; lia).
    rewrite Hp, Q.min_r, Q.max_r by done. reflexivity. }
  assert (truncate (clampQ (k # 32768)) <= truncate (inject_Z k))
    by (apply truncate_monotone; rewrite Heq; apply Qle_refl).
  assert (truncate (inject_Z k) <= truncate (clampQ (k # 32768)))
    by (apply truncate_monotone; rewrite Heq; apply Qle_refl).
  rewrite truncate_inject_Z in *. lia.
Qed.

(** * Further properties of the chat service *)

Lemma num_leb_trans (a b c : number) :
  num_leb a b = true -> num_leb b c = true -> num_leb a c = true.
Proof.
  destruct a as [| |x|], b as [| |y|], c as [| |z|]; try done.
  intros H1%num_leb_Fin H2%num_leb_Fin. apply num_leb_Fin. lra.
Qed.

(** X19.  Raising a slider never lowers the level: of two values (neither
    NaN) the one that is not greater never gets the higher level. *)
Theorem getTraitLevel_monotone (x y : number) :
  num_leb x y = true ->
  (levelRank (getTraitLevel x) <= levelRank (getTraitLevel y))%nat.
Proof.
  intros Hxy. unfold getTraitLevel.
  destruct (num_leb y (of_Z 3)) eqn:Hy3.
  - by rewrite (num_leb_trans _ _ _ Hxy Hy3).
  - destruct (num_leb y (of_Z 7)) eqn:Hy7.
    + rewrite (num_leb_trans _ _ _ Hxy Hy7).
      destruct (num_leb x (of_Z 3)); cbn; lia.
    + destruct (num_leb x (of_Z 3)), (num_leb x (of_Z 7)); cbn; lia.
Qed.

Lemma countType_app ty l1 l2 :
  countType ty (l1 ++ l2) = (countType ty l1 + countType ty l2)%nat.
Proof. unfold countType. by rewrite filter_app, length_app. Qed.

Lemma countType_cons ty (x : GroundingSource) l :
  countType ty (x :: l) =
  ((if decide (type x = ty) then 1 else 0) + countType ty l)%nat.
Proof. unfold countType. rewrite filter_cons. by destruct (decide _). Qed.

Lemma countType_reviews fb ty (snippets : list ReviewSnippet) :
  countType ty (omap (reviewSource fb) snippets) =
  if decide (ty = src_review) then length (List.filter hasUsableReview snippets) else 0%nat.
Proof.
  induction snippets as [|sn l IH]; [by destruct (decide _) |].
  change (omap (reviewSource fb) (sn :: l))
    with (match reviewSource fb sn with
          | Some y => y :: omap (reviewSource fb) l
          | None => omap (reviewSource fb) l
          end).
  change (List.filter hasUsableReview (sn :: l))
    with (if hasUsableReview sn then sn :: List.filter hasUsableReview l
          else List.filter hasUsableReview l).
  unfold reviewSource at 1, hasUsableReview at 1.
  destruct (review sn) as [| | |[u|] t]; try done.
  rewrite countType_cons, IH. cbn [type].
  destruct (decide (ty = src_review)) as [->|Hne].
  - by rewrite decide_True.
  - by rewrite decide_False by congruence.
Qed.

Lemma countType_chunk fb (chunk : GroundingChunk) :
  countType src_search (sourcesOfChunk fb chunk) = (if isWebChunk chunk then 1 else 0)%nat /\
  countType src_maps (sourcesOfChunk fb chunk) = (if isMapsChunk chunk then 1 else 0)%nat /\
  countType src_review (sourcesOfChunk fb chunk) = usableReviews chunk.
Proof.
  unfold sourcesOfChunk, isWebChunk, isMapsChunk, usableReviews.
  destruct (web chunk) as [w|]; [done |].
  destruct (maps chunk) as [m|]; [| done].
  by rewrite !countType_cons, !countType_reviews.
Qed.

Lemma length_by_type (srcs : list GroundingSource) :
  length srcs =
  (countType src_search srcs + countType src_maps srcs + countType src_review srcs)%nat.
Proof.
  induction srcs as [|s l IH]; [done |].
  rewrite !countType_cons. cbn [length].
  destruct (type s); repeat case_decide; try done; lia.
Qed.

(** X20.  The sources extracted from a list of chunks: one 'search' source
    for each chunk with a [web] field, one 'maps' source for each chunk
    with a [maps] field and no [web] field (a chunk never gives both), and
    one 'review' source for each snippet of such a maps chunk whose review
    is an object with a uri key. *)
Theorem sources_by_type (fb : string) (md : option GroundingMetadata) :
  let srcs := extractSources fb md in
  let chunks := chunksOf md in
  countType src_search srcs = length (List.filter isWebChunk chunks) /\
  countType src_maps srcs = length (List.filter isMapsChunk chunks) /\
  countType src_review srcs = sum_list (usableReviews <$> chunks) /\
  length srcs =
    (length (List.filter isWebChunk chunks) + length (List.filter isMapsChunk chunks)
     + sum_list (usableReviews <$> chunks))%nat.
Proof.
  cbv zeta. rewrite extractSources_spec.
  induction (chunksOf md) as [|c l (IH1 & IH2 & IH3 & IH4)]; [done |].
  assert (mjoin (sourcesOfChunk fb <$> c :: l) =
          sourcesOfChunk fb c ++ mjoin (sourcesOfChunk fb <$> l)) as -> by done.
  assert (length (List.filter isWebChunk (c :: l)) =
          ((if isWebChunk c then 1 else 0) + length (List.filter isWebChunk l))%nat)
    as -> by (cbn; by destruct (isWebChunk c)).
  assert (length (List.filter isMapsChunk (c :: l)) =
          ((if isMapsChunk c then 1 else 0) + length (List.filter isMapsChunk l))%nat)
    as -> by (cbn; by destruct (isMapsChunk c)).
  assert (sum_list (usableReviews <$> c :: l) =
          (usableReviews c + sum_list (usableReviews <$> l))%nat) as -> by done.
  destruct (countType_chunk fb c) as (C1 & C2 & C3).
  rewrite !countType_app, length_app, IH1, IH2, IH3, IH4, C1, C2, C3.
  assert (length (sourcesOfChunk fb c) =
          ((if isWebChunk c then 1 else 0) + (if isMapsChunk c then 1 else 0)
           + usableReviews c)%nat) as ->.
  { rewrite <- C1, <- C2, <- C3. apply length_by_type. }
  repeat split; lia.
Qed.

Lemma or_string_fallback (a b : option string) :
  or_string a b = None \/ or_string a b = Some "" -> or_string a b = b.
Proof.
  unfold or_string. destruct a as [s|]; [| done].
  destruct s; cbn; [done |]. intros [|]; discriminate.
Qed.

Lemma or_string_default (a : option string) (d : string) :
  d <> "" -> exists t, or_string a (Some d) = Some t /\ t <> "".
Proof.
  intros Hd. unfold or_string. destruct a as [s|]; [| by exists d].
  destruct s; cbn; [by exists d |]. by eexists.
Qed.

(** X21.  Every extracted source gets a usable title.  The title of a
    'review' source is never empty (the text of the review, or the fallback
    when the review has none); its uri is what the [uri] key of the review
    holds, which can be null.  A 'search' or 'maps' source has an empty or
    undefined title only when its chunk had no title of its own and the
    uri, which then serves as the title, is empty or undefined too. *)
Theorem sources_have_titles (fb : string) (md : option GroundingMetadata)
    (s : GroundingSource) :
  fb <> "" ->
  s ∈ extractSources fb md ->
  (type s = src_review -> exists t, title s = Some t /\ t <> "") /\
  (type s <> src_review ->
   title s = None \/ title s = Some "" -> title s = uri s).
Proof.
  intros Hfb. rewrite extractSources_spec.
  intros (srcs & Hin & (chunk & -> & _)%list_elem_of_fmap)%list_elem_of_join.
  unfold sourcesOfChunk in Hin.
  destruct (web chunk) as [w|].
  { apply list_elem_of_singleton in Hin as ->. cbn.
    split; [done |]. intros _. apply or_string_fallback. }
  destruct (maps chunk) as [m|]; [| by apply elem_of_nil in Hin].
  apply elem_of_cons in Hin as [-> | Hin].
  { cbn. split; [done |]. intros _. apply or_string_fallback. }
  apply list_elem_of_omap in Hin as (sn & _ & Hsn).
  unfold reviewSource in Hsn.
  destruct (review sn) as [| | |[u|] t]; try done.
  injection Hsn as <-. cbn. split; [| done].
  intros _. by apply or_string_default.
Qed.

(** X22.  Missing grounding data is not an error: when the response has no
    candidates, an empty list of candidates, a first candidate without
    grounding metadata, or metadata without chunks or with an empty list of
    chunks, [sendChatMessage] returns the text with an empty list of
    sources. *)
Theorem no_grounding_no_sources
    (promptTemplate : TraitLevel -> TraitLevel -> TraitLevel -> string)
    (generateContent : GenerateContentParameters -> GenerateContentResponse)
    (prompt : string) (history : list TranscriptEntry)
    (settings : PersonalitySettings) (location : option UserLocation) :
  let response :=
    generateContent (chatRequest promptTemplate prompt history settings location) in
  candidates response = None \/
  candidates response = Some [] \/
  (exists c rest, candidates response = Some (c :: rest) /\
     (GeminiService.groundingMetadata c = None \/
      exists md, GeminiService.groundingMetadata c = Some md /\
        (groundingChunks md = None \/ groundingChunks md = Some []))) ->
  sendChatMessage promptTemplate generateContent prompt history settings location =
    (response_text response, []).
Proof.
  intros response H. unfold sendChatMessage. fold response. f_equal.
  destruct H as [-> | [-> | (c & rest & -> & [-> | (md & -> & [H | H])])]];
    try done; cbn; by rewrite H.
Qed.

(** * Properties of the chat and the image analysis of [LiveView] *)

Section LiveViewChat.

Variable String_trim : string -> string.

Local Abbreviation stepV := (LiveView.step String_trim).
Local Abbreviation runV := (LiveView.run String_trim).

Lemma replaceById_fresh (tid : Z) (message : TranscriptEntry) (l : list TranscriptEntry) :
  (forall m, m ∈ l -> id m <> Some tid) -> LiveView.replaceById tid message l = l.
Proof.
  intros Hfresh. unfold LiveView.replaceById.
  induction l as [|m l IH]; [done |]. cbn.
  rewrite bool_decide_eq_false_2 by (apply Hfresh; by left).
  rewrite IH; [done |]. intros x Hx. apply Hfresh. by right.
Qed.

Lemma replaceById_elem (tid : Z) (message : TranscriptEntry) (l : list TranscriptEntry)
    (m' : TranscriptEntry) :
  m' ∈ LiveView.replaceById tid message l ->
  m' = message \/ (m' ∈ l /\ id m' <> Some tid).
Proof.
  unfold LiveView.replaceById. intros (m & -> & Hm)%list_elem_of_fmap.
  case_bool_decide; [by left | by right].
Qed.

(** X23.  A chat message and its answer.  With a prompt that is not blank,
    no other chat call under way, a clock that does not go back between the
    two readings and a thinking id that no earlier entry has, the handler
    hands the service the history as it was before the call, and when the
    call settles the history is the earlier one followed by the message of
    the user and the final answer (or the apology when the service
    failed): the placeholder is gone, the two new entries have different
    ids, and the loading flag is off again. *)
Theorem chat_message_round_trip (prompt : string) (now1 now2 : Z)
    (liveTranscripts : list TranscriptEntry) (lv : LiveView.State)
    (result : option (string * list GroundingSource)) :
  truthy_string (String_trim prompt) = true ->
  LiveView.isChatLoading lv = false ->
  now1 <= now2 ->
  (forall m, m ∈ LiveView.chatHistory lv -> id m <> Some (now2 + 1)) ->
  exists lv1 call,
    LiveView.handleSendMessage_start String_trim prompt now1 now2 liveTranscripts lv
      = (lv1, Some call) /\
    LiveView.historyForApi call = liveTranscripts ++ LiveView.chatHistory lv /\
    LiveView.isChatLoading lv1 = true /\
    let lv2 := LiveView.handleSendMessage_settle call result lv1 in
    let answer :=
      match result with
      | Some (text, sources) => LiveView.botMessage text (Some sources) (now2 + 1)
      | None =>
          LiveView.botMessage
            "Lo siento, estoy teniendo problemas para conectarme ahora mismo."
            None (now2 + 1)
      end in
    LiveView.chatHistory lv2 =
      LiveView.chatHistory lv ++ [LiveView.userMessage prompt now1; answer] /\
    id (LiveView.userMessage prompt now1) <> id answer /\
    LiveView.isChatLoading lv2 = false.
Proof.
  intros Hp Hl Hclock Hfresh.
  unfold LiveView.handleSendMessage_start. rewrite Hp, Hl. cbn [negb orb].
  eexists _, _. split; [reflexivity |]. split; [done |]. split; [done |].
  cbn zeta. unfold LiveView.handleSendMessage_settle. cbn.
  split; [| split; [| done]].
  - unfold LiveView.replaceById. rewrite <- app_assoc, fmap_app.
    fold (LiveView.replaceById (now2 + 1)
            (match result with
             | Some (text, sources) => LiveView.botMessage text (Some sources) (now2 + 1)
             | None =>
                 LiveView.botMessage
                   "Lo siento, estoy teniendo problemas para conectarme ahora mismo."
                   None (now2 + 1)
             end) (LiveView.chatHistory lv)).
    rewrite replaceById_fresh by done. f_equal. cbn.
    rewrite bool_decide_eq_false_2 by (intros [=]; lia).
    rewrite bool_decide_eq_true_2 by done. done.
  - destruct result as [[text sources]|]; cbn; intros [=]; lia.
Qed.

Lemma flagsAgree_step (r : LiveView.Running) (ev : LiveView.Event) :
  LiveView.flagsAgree r -> LiveView.flagsAgree (stepV r ev).
Proof.
  intros (C1 & C2 & A1 & A2).
  destruct ev as [prompt now1 now2 live|result|now|result]; cbn [LiveView.step].
  - unfold LiveView.handleSendMessage_start.
    destruct (negb _ || LiveView.isChatLoading (LiveView.view r)) eqn:Hguard.
    { unfold LiveView.flagsAgree. cbn. rewrite app_nil_r. done. }
    apply orb_false_iff in Hguard as [_ Hload].
    assert (LiveView.chatCalls r = []) as Hnone.
    { destruct (LiveView.chatCalls r); [done |].
      assert (LiveView.isChatLoading (LiveView.view r) = true) by (by apply C2).
      congruence. }
    unfold LiveView.flagsAgree. cbn. rewrite Hnone. cbn.
    split; [lia |]. split; [done |]. split; done.
  - destruct (LiveView.chatCalls r) as [|call rest] eqn:Hcalls;
      [unfold LiveView.flagsAgree; by rewrite Hcalls |].
    assert (rest = []) as -> by (destruct rest; [done | cbn in C1; lia]).
    unfold LiveView.flagsAgree. cbn.
    split; [lia |]. split; [done |]. split; done.
  - unfold LiveView.handleImageAnalysis_start.
    destruct (LiveView.isAnalyzing (LiveView.view r)) eqn:Han.
    { unfold LiveView.flagsAgree. cbn. rewrite app_nil_r, Han. done. }
    assert (LiveView.analyses r = []) as Hnone.
    { destruct (LiveView.analyses r); [done |].
      assert (false = true) by (by apply A2). done. }
    unfold LiveView.flagsAgree. cbn. rewrite Hnone. cbn.
    split; [done |]. split; [done |]. split; [lia | done].
  - destruct (LiveView.analyses r) as [|tid rest] eqn:Hcalls;
      [unfold LiveView.flagsAgree; by rewrite Hcalls |].
    assert (rest = []) as -> by (destruct rest; [done | cbn in A1; lia]).
    unfold LiveView.flagsAgree. cbn.
    split; [done |]. split; [done |]. split; [lia | done].
Qed.

Lemma flagsAgree_run (r : LiveView.Running) (evs : list LiveView.Event) :
  LiveView.flagsAgree r -> LiveView.flagsAgree (runV r evs).
Proof.
  intros H. induction evs as [|ev evs IH] using rev_ind; [done |].
  unfold LiveView.run in *. rewrite foldl_snoc. by apply flagsAgree_step.
Qed.

(** X24.  At most one chat call and at most one image analysis are under
    way at any time, and each loading flag is on exactly while its call is
    under way: a second message sent while the first is unanswered is
    ignored, and a flag never stays on after its call has settled. *)
Theorem one_call_at_a_time (r : LiveView.Running) (evs : list LiveView.Event) :
  LiveView.flagsAgree r ->
  let r' := runV r evs in
  (length (LiveView.chatCalls r') <= 1)%nat /\
  (LiveView.isChatLoading (LiveView.view r') = true <-> LiveView.chatCalls r' <> []) /\
  (length (LiveView.analyses r') <= 1)%nat /\
  (LiveView.isAnalyzing (LiveView.view r') = true <-> LiveView.analyses r' <> []).
Proof. intros H. exact (flagsAgree_run r evs H). Qed.

Lemma replaceById_lookup (tid : Z) (message : TranscriptEntry)
    (l : list TranscriptEntry) (k : nat) (m' : TranscriptEntry) :
  LiveView.replaceById tid message l !! k = Some m' ->
  m' = message \/ (l !! k = Some m' /\ id m' <> Some tid).
Proof.
  unfold LiveView.replaceById. rewrite list_lookup_fmap.
  destruct (l !! k) as [m|]; [| done]. cbn. intros [= <-].
  case_bool_decide; [by left | by right].
Qed.

Lemma placeholdersOf_step (history : list TranscriptEntry)
    (r : LiveView.Running) (ev : LiveView.Event) :
  LiveView.placeholdersOf history r -> LiveView.placeholdersOf history (stepV r ev).
Proof.
  intros Hinv.
  destruct ev as [prompt now1 now2 live|result|now|result]; cbn [LiveView.step].
  - unfold LiveView.handleSendMessage_start.
    destruct (negb _ || LiveView.isChatLoading (LiveView.view r)) eqn:Hguard.
    { unfold LiveView.placeholdersOf, LiveView.thinkingIds in *. cbn.
      by rewrite app_nil_r. }
    unfold LiveView.placeholdersOf, LiveView.thinkingIds in *. cbn.
    intros k m Hk Hnf.
    rewrite <- app_assoc in Hk.
    apply lookup_app_Some in Hk as [Hk | [_ Hk]].
    + destruct (Hinv k m Hk Hnf) as [? | (i & Hi & Hin)]; [by left | right].
      exists i. split; [done |]. revert Hin.
      rewrite fmap_app, !elem_of_app. tauto.
    + destruct (k - _)%nat as [|[|n]]; cbn in Hk; [| | done].
      * injection Hk as <-. done.
      * injection Hk as <-. right. exists (now2 + 1). split; [done |].
        apply elem_of_app. left. rewrite fmap_app. apply elem_of_app. right.
        cbn. by left.
  - destruct (LiveView.chatCalls r) as [|call rest] eqn:Hcalls; [done |].
    unfold LiveView.placeholdersOf, LiveView.thinkingIds in *. cbn.
    rewrite Hcalls in Hinv. cbn in Hinv.
    intros k m' [-> | [Hk Hid]]%replaceById_lookup Hnf.
    + by destruct result as [[? ?]|].
    + destruct (Hinv k m' Hk Hnf) as [? | (i & Hi & Hin)]; [by left | right].
      exists i. split; [done |].
      apply elem_of_cons in Hin as [-> | ?]; [congruence | done].
  - unfold LiveView.handleImageAnalysis_start.
    destruct (LiveView.isAnalyzing (LiveView.view r)) eqn:Han.
    { unfold LiveView.placeholdersOf, LiveView.thinkingIds in *. cbn.
      by rewrite app_nil_r. }
    unfold LiveView.placeholdersOf, LiveView.thinkingIds in *. cbn.
    intros k m Hk Hnf.
    apply lookup_app_Some in Hk as [Hk | [_ Hk]].
    + destruct (Hinv k m Hk Hnf) as [? | (i & Hi & Hin)]; [by left | right].
      exists i. split; [done |]. revert Hin. rewrite !elem_of_app. tauto.
    + destruct (k - _)%nat as [|n]; cbn in Hk; [| done].
      injection Hk as <-. right. exists now. split; [done |].
      apply elem_of_app. right. apply elem_of_app. right. by left.
  - destruct (LiveView.analyses r) as [|tid rest] eqn:Hcalls; [done |].
    unfold LiveView.placeholdersOf, LiveView.thinkingIds in *. cbn.
    rewrite Hcalls in Hinv.
    intros k m' [-> | [Hk Hid]]%replaceById_lookup Hnf.
    + by destruct result.
    + destruct (Hinv k m' Hk Hnf) as [? | (i & Hi & Hin)]; [by left | right].
      exists i. split; [done |].
      apply elem_of_app in Hin as [? | [-> | ?]%elem_of_cons];
        [apply elem_of_app; by left | congruence | apply elem_of_app; by right].
Qed.

Lemma placeholdersOf_run (history : list TranscriptEntry)
    (r : LiveView.Running) (evs : list LiveView.Event) :
  LiveView.placeholdersOf history r -> LiveView.placeholdersOf history (runV r evs).
Proof.
  intros H. induction evs as [|ev evs IH] using rev_ind; [done |].
  unfold LiveView.run in *. rewrite foldl_snoc. by apply placeholdersOf_step.
Qed.

(** X25.  The handlers leave no placeholder of their own behind: whenever
    no chat call and no image analysis is under way, an entry of the chat
    history that is not final was in the history at the start, at the same
    place, and is as it was then, however the calls ended and whatever the
    ids.  So a component that starts with final entries only shows final
    entries only when no call is under way; an entry that was saved as a
    placeholder and restored is not covered. *)
Theorem no_placeholder_left (r : LiveView.Running) (evs : list LiveView.Event) :
  let r' := runV r evs in
  LiveView.chatCalls r' = [] -> LiveView.analyses r' = [] ->
  (forall k m, LiveView.chatHistory (LiveView.view r') !! k = Some m ->
     isFinal m = false ->
     LiveView.chatHistory (LiveView.view r) !! k = Some m) /\
  ((forall m, m ∈ LiveView.chatHistory (LiveView.view r) -> isFinal m = true) ->
   forall m, m ∈ LiveView.chatHistory (LiveView.view r') -> isFinal m = true).
Proof.
  intros r' Hc Ha.
  assert (forall k m, LiveView.chatHistory (LiveView.view r') !! k = Some m ->
            isFinal m = false ->
            LiveView.chatHistory (LiveView.view r) !! k = Some m) as Hold.
  { intros k m Hk Hnf.
    assert (LiveView.placeholdersOf (LiveView.chatHistory (LiveView.view r)) r) as H0
      by (intros k' m' Hk' _; by left).
    destruct (placeholdersOf_run _ r evs H0 k m Hk Hnf) as [? | (i & _ & Hin)];
      [done |].
    unfold LiveView.thinkingIds in Hin. fold r' in Hin. rewrite Hc, Ha in Hin.
    by apply elem_of_nil in Hin. }
  split; [exact Hold |].
  intros Hfinal m [k Hk]%list_elem_of_lookup.
  destruct (isFinal m) eqn:E; [done |].
  rewrite <- E. apply Hfinal. eapply list_elem_of_lookup_2. by apply Hold.
Qed.

End LiveViewChat.

(** * Instances *)

(** When the component has just mounted no call is under way and both
    flags are off, whatever the history holds. *)
Lemma mounted_flagsAgree (history : list TranscriptEntry) :
  LiveView.flagsAgree (mounted history).
Proof.
  unfold LiveView.flagsAgree, mounted. cbn.
  split; [lia |]. split; [done |]. split; [lia | done].
Qed.

Lemma pcm_keeps_order_witness :
  exists a b,
    pcmSamples [Fin (-1 # 2); Fin (1 # 4)] !! 0%nat = Some a /\
    pcmSamples [Fin (-1 # 2); Fin (1 # 4)] !! 1%nat = Some b /\ a <= b.
Proof.
  apply (pcm_keeps_order [Fin (-1 # 2); Fin (1 # 4)] 0 1 (Fin (-1 # 2)) (Fin (1 # 4)));
    reflexivity.
Defined.

Lemma pcm_saturates_witness :
  pcmSamples [Fin 2; Fin (-3)] !! 0%nat = Some 32767 /\
  pcmSamples [Fin 2; Fin (-3)] !! 1%nat = Some (-32768).
Proof.
  split.
  - apply (pcm_saturates [Fin 2; Fin (-3)] 0 2); [reflexivity |].
    unfold Qle. cbn. lia.
  - apply (pcm_saturates [Fin 2; Fin (-3)] 1 (-3)); [reflexivity |].
    unfold Qle. cbn. lia.
Defined.

Lemma pcm_exact_on_grid_witness :
  pcmSamples [Fin (-12345 # 32768)] !! 0%nat = Some (-12345).
Proof.
  apply (pcm_exact_on_grid [Fin (-12345 # 32768)] 0 (-12345)); [lia | reflexivity].
Defined.

Lemma getTraitLevel_monotone_witness :
  (levelRank (getTraitLevel (of_Z 3)) <= levelRank (getTraitLevel (Fin (7 # 2))))%nat.
Proof. apply (getTraitLevel_monotone (of_Z 3) (Fin (7 # 2))). reflexivity. Defined.

(** A maps chunk without a title whose only snippet is a review without
    text, whose [uri] key holds null. *)
Lemma sources_have_titles_witness :
  let md :=
    Some {| groundingChunks :=
              Some [ {| web := None;
                        maps := Some {| maps_uri := Some "https://maps.example/p";
                                        maps_title := None;
                                        placeAnswerSources :=
                                          Some {| reviewSnippets :=
                                                    Some [ {| review :=
                                                                ReviewObject (Some None)
                                                                  None |} ] |} |} |} ] |} in
  let s := {| uri := None; title := Some "Leer"; type := src_review |} in
  (type s = src_review -> exists t, title s = Some t /\ t <> "") /\
  (type s <> src_review ->
   title s = None \/ title s = Some "" -> title s = uri s).
Proof.
  intros md s. apply (sources_have_titles "Leer" md s); [done |].
  vm_compute. right. left.
Defined.

Lemma no_grounding_no_sources_witness :
  let answer (_ : GenerateContentParameters) :=
    {| response_text := Some "claro"; candidates := Some [] |} in
  let settings := {| empathy := of_Z 8; humor := of_Z 7; solidarity := of_Z 9 |} in
  sendChatMessage (fun _ _ _ => "") answer "hola" [] settings None = (Some "claro", []).
Proof.
  intros answer settings.
  apply (no_grounding_no_sources (fun _ _ _ => "") answer "hola" [] settings None).
  right. left. reflexivity.
Defined.

(** A message sent into a history of one entry, answered without
    sources. *)
Lemma chat_message_round_trip_witness :
  let lv := LiveView.view (mounted [LiveView.botMessage "hola" None 1]) in
  exists lv1 call,
    LiveView.handleSendMessage_start (fun s => s) "y ahora" 1000 1000 [] lv
      = (lv1, Some call) /\
    LiveView.historyForApi call = [] ++ LiveView.chatHistory lv /\
    LiveView.isChatLoading lv1 = true /\
    let lv2 := LiveView.handleSendMessage_settle call (Some ("claro", [])) lv1 in
    let answer := LiveView.botMessage "claro" (Some []) (1000 + 1) in
    LiveView.chatHistory lv2 =
      LiveView.chatHistory lv ++ [LiveView.userMessage "y ahora" 1000; answer] /\
    id (LiveView.userMessage "y ahora" 1000) <> id answer /\
    LiveView.isChatLoading lv2 = false.
Proof.
  intros lv.
  apply (chat_message_round_trip (fun s => s) "y ahora" 1000 1000 [] lv
           (Some ("claro", []))).
  - reflexivity.
  - reflexivity.
  - lia.
  - intros m ->%list_elem_of_singleton. cbn. intros [=].
Defined.

(** The component mounts on a history that was saved during a call, so
    that its second entry is a placeholder.  A message and an image
    analysis are started one millisecond apart, so that both placeholders
    have the id 1001; a second message is sent before the first is
    answered. *)
Lemma one_call_at_a_time_witness :
  let r' := LiveView.run (fun s => s)
              (mounted [ LiveView.botMessage "hola" None 1;
                         LiveView.thinkingMessage "Pensando..." 5 ])
              [ LiveView.SendMessage "y ahora" 1000 1000 [];
                LiveView.SendMessage "otra vez" 1000 1000 [];
                LiveView.AnalyzeImage 1001;
                LiveView.ChatSettles (Some ("claro", [])) ] in
  (length (LiveView.chatCalls r') <= 1)%nat /\
  (LiveView.isChatLoading (LiveView.view r') = true <-> LiveView.chatCalls r' <> []) /\
  (length (LiveView.analyses r') <= 1)%nat /\
  (LiveView.isAnalyzing (LiveView.view r') = true <-> LiveView.analyses r' <> []).
Proof.
  apply (one_call_at_a_time (fun s => s)
           (mounted [ LiveView.botMessage "hola" None 1;
                      LiveView.thinkingMessage "Pensando..." 5 ])).
  apply mounted_flagsAgree.
Defined.

(** The same start; the answer arrives and the analysis fails.  The entry
    that is still not final is the one that was restored. *)
Lemma no_placeholder_left_witness :
  let r := mounted [ LiveView.botMessage "hola" None 1;
                     LiveView.thinkingMessage "Pensando..." 5 ] in
  let r' := LiveView.run (fun s => s) r
              [ LiveView.SendMessage "y ahora" 1000 1000 [];
                LiveView.AnalyzeImage 1001;
                LiveView.ChatSettles (Some ("claro", []));
                LiveView.AnalysisSettles None ] in
  LiveView.chatHistory (LiveView.view r') !! 1%nat =
    Some (LiveView.thinkingMessage "Pensando..." 5) /\
  LiveView.chatHistory (LiveView.view r) !! 1%nat =
    Some (LiveView.thinkingMessage "Pensando..." 5).
Proof.
  intros r r'. split; [reflexivity |].
  destruct (no_placeholder_left (fun s => s) r
              [ LiveView.SendMessage "y ahora" 1000 1000 [];
                LiveView.AnalyzeImage 1001;
                LiveView.ChatSettles (Some ("claro", []));
                LiveView.AnalysisSettles None ] eq_refl eq_refl) as [Hold _].
  exact (Hold 1%nat _ eq_refl eq_refl).
Defined.
